(** * chess_lakehouse: the enrichment and consolidation pipeline

    A shallow embedding of [src/find-openings.ts], [src/export-to-parquet.ts]
    and the helpers of [src/lib/pipeline-utils.ts].  The TypeScript drivers
    assemble SQL text and hand it to the DuckDB command line; the embedding
    gives the TypeScript helpers as functions on strings and paths, and each
    SQL statement as a function on the tables it reads and writes. *)

From Stdlib Require Import Ascii String ZArith.
From stdpp Require Import strings list pretty.

#[local] Arguments String.append !_ _ / : simpl nomatch.

(** ** Strings

    DuckDB [VARCHAR] values and the SQL text are byte strings. *)

Module Str.

(** [s.replaceAll(c, r)] for a one-character pattern [c]. *)
Fixpoint replaceAll (c : ascii) (r : string) (s : string) : string :=
  match s with
  | "" => ""
  | String a s' =>
      if Ascii.eqb a c then r +:+ replaceAll c r s'
      else String a (replaceAll c r s')
  end.

(** SQL [CONTAINS(haystack, needle)] on non-null arguments. *)
Fixpoint contains (haystack needle : string) : bool :=
  String.prefix needle haystack ||
  match haystack with
  | "" => false
  | String _ h' => contains h' needle
  end.

(** Textual containment, stated on its own: [needle] occurs inside
    [haystack]. *)
Definition occurs_in (needle haystack : string) : Prop :=
  ∃ before after, haystack = before +:+ needle +:+ after.

(** SQL [string_split(s, sep)] for a one-character separator: the pieces
    between the separators, empty pieces included. *)
Fixpoint string_split (sep : ascii) (s : string) : list string :=
  match s with
  | "" => [""]
  | String a s' =>
      if Ascii.eqb a sep then "" :: string_split sep s'
      else match string_split sep s' with
           | piece :: pieces => String a piece :: pieces
           | [] => [String a ""]
           end
  end.

(** Number of occurrences of a character. *)
Fixpoint count_char (c : ascii) (s : string) : nat :=
  match s with
  | "" => 0
  | String a s' => (if Ascii.eqb a c then 1 else 0) + count_char c s'
  end.

(** [s.toLowerCase()] on ASCII letters. *)
Definition to_lower (a : ascii) : ascii :=
  let n := nat_of_ascii a in
  if Nat.leb 65 n && Nat.leb n 90 then ascii_of_nat (n + 32) else a.

Fixpoint toLowerCase (s : string) : string :=
  match s with
  | "" => ""
  | String a s' => String (to_lower a) (toLowerCase s')
  end.

(** [s.endsWith(suffix)]. *)
Definition endsWith (s suffix : string) : bool :=
  String.prefix (String.rev suffix) (String.rev s).

(** The rest of [s] after the prefix [p], when [s] starts with [p]. *)
Fixpoint strip_prefix (p s : string) : option string :=
  match p, s with
  | "", _ => Some s
  | String a p', String b s' =>
      if Ascii.eqb a b then strip_prefix p' s' else None
  | String _ _, "" => None
  end.

End Str.

(** ** [sqlStringLiteral], [sqlPath] and the SQL reading of a literal *)

Definition quote : ascii := "'"%char.

(** [sqlStringLiteral(s) = s.replaceAll("'", "''")]. *)
Definition sqlStringLiteral (s : string) : string :=
  Str.replaceAll quote "''" s.

(** [sqlPath(p) = sqlStringLiteral(p.replaceAll("\\", "/"))].  The scripts
    use it for the paths they put into [ATTACH] and [COPY]; the embedding
    hands those paths over as they are. *)
Definition sqlPath (p : string) : string :=
  sqlStringLiteral (Str.replaceAll "\"%char "/" p).

(** The SQL lexer on the inside of a single-quoted literal: a doubled quote
    stands for one quote character, a single quote closes the literal.  The
    result is the value of the literal and the text after the closing
    quote; [None] when the literal is never closed. *)
Fixpoint sql_literal_body (s : string) : option (string * string) :=
  match s with
  | "" => None
  | String a s' =>
      if Ascii.eqb a quote then
        match s' with
        | String b s'' =>
            if Ascii.eqb b quote
            then prod_map (String quote) id <$> sql_literal_body s''
            else Some ("", s')
        | "" => Some ("", "")
        end
      else prod_map (String a) id <$> sql_literal_body s'
  end.

(** A literal starts with a quote. *)
Definition sql_literal (s : string) : option (string * string) :=
  match s with
  | String a s' => if Ascii.eqb a quote then sql_literal_body s' else None
  | "" => None
  end.

(** [starts_with_quote rest]: the text after a literal would continue it. *)
Definition starts_with_quote (s : string) : bool :=
  match s with
  | String a _ => Ascii.eqb a quote
  | "" => false
  end.

(** ** Tables

    A nullable column is an [option]: [None] is SQL [NULL]. *)

(** A [DATE] value. *)
Record date := Date { d_year : Z; d_month : nat; d_day : nat }.

(** SQL [year(d)]. *)
Definition year (d : date) : Z := d_year d.

Definition digit (n : nat) : ascii := ascii_of_nat (48 + n).

(** SQL [strftime(d, '%m')]: the month as two decimal digits. *)
Definition strftime_m (d : date) : string :=
  String (digit (d_month d / 10)) (String (digit (d_month d mod 10)) "").

(** A row of the table [games] of a per-source store: the columns that
    [read_pgn] yields, [clean_movetext] added by [read-pgn.ts] and
    [DataSource] added by [find-openings.ts]. *)
Module G.
Record t := Row {
  Event : option string;
  Site : option string;
  White : option string;
  Black : option string;
  Result : option string;
  WhiteTitle : option string;
  BlackTitle : option string;
  WhiteElo : option N;
  BlackElo : option N;
  UTCDate : option date;
  UTCTime : option string;
  ECO : option string;
  Opening : option string;
  Termination : option string;
  TimeControl : option string;
  Source : option string;
  movetext : option string;
  parse_error : option string;
  clean_movetext : option string;
  DataSource : option string;
}.

(** [SET eco = e, Opening = n] on one row. *)
Definition set_opening (e n : option string) (g : t) : t :=
  Row (Event g) (Site g) (White g) (Black g) (Result g) (WhiteTitle g)
    (BlackTitle g) (WhiteElo g) (BlackElo g) (UTCDate g) (UTCTime g)
    e n (Termination g) (TimeControl g) (Source g) (movetext g)
    (parse_error g) (clean_movetext g) (DataSource g).

(** [SET DataSource = v] on one row. *)
Definition set_DataSource (v : option string) (g : t) : t :=
  Row (Event g) (Site g) (White g) (Black g) (Result g) (WhiteTitle g)
    (BlackTitle g) (WhiteElo g) (BlackElo g) (UTCDate g) (UTCTime g)
    (ECO g) (Opening g) (Termination g) (TimeControl g) (Source g)
    (movetext g) (parse_error g) (clean_movetext g) v.

(** The same row with another [parse_error]. *)
Definition with_parse_error (v : option string) (g : t) : t :=
  Row (Event g) (Site g) (White g) (Black g) (Result g) (WhiteTitle g)
    (BlackTitle g) (WhiteElo g) (BlackElo g) (UTCDate g) (UTCTime g)
    (ECO g) (Opening g) (Termination g) (TimeControl g) (Source g)
    (movetext g) v (clean_movetext g) (DataSource g).
End G.

(** A row of the catalogue table [openings.openings]; the query reads the
    columns [eco], [name], [uci] and [pgn]. *)
Module O.
Record t := Row {
  eco : option string;
  name : option string;
  uci : option string;
  pgn : option string;
}.
End O.

(** A row of the table [combined] that [export-to-parquet.ts] builds: the
    select list of [attachAndSelect]. *)
Module C.
Record t := Row {
  Event : option string;
  Site : option string;
  White : option string;
  Black : option string;
  Result : option string;
  WhiteTitle : option string;
  BlackTitle : option string;
  WhiteElo : option N;
  BlackElo : option N;
  UTCDate : option date;
  UTCTime : option string;
  ECO : option string;
  Opening : option string;
  Termination : option string;
  TimeControl : option string;
  Source : option string;
  movetext : option string;
  DataSource : option string;
  year : option Z;
  month : option string;
}.
End C.

#[global] Instance date_eq_dec : EqDecision date.
Proof. solve_decision. Defined.
#[global] Instance game_eq_dec : EqDecision G.t.
Proof. solve_decision. Defined.
#[global] Instance opening_eq_dec : EqDecision O.t.
Proof. solve_decision. Defined.
#[global] Instance combined_eq_dec : EqDecision C.t.
Proof. solve_decision. Defined.

(** ** The classification query of [find-openings.ts]

    [[
    WITH openings_with_ply AS (
           SELECT array_length(string_split(uci, ' ')) AS opening_ply, o.*
           FROM openings.openings o),
         target AS (SELECT rowid as game_id, * FROM games WHERE Opening IS NULL)
    UPDATE games m SET eco = o.eco, Opening = o.name
    FROM target t JOIN LATERAL (
           SELECT o.eco, o.name FROM openings_with_ply o
           WHERE CONTAINS(t.clean_movetext, o.pgn)
           ORDER BY o.opening_ply DESC LIMIT 1) o ON TRUE
    WHERE m.rowid = t.game_id;
    ]] *)

(** [array_length(string_split(uci, ' '))]; [NULL] for a [NULL] [uci]. *)
Definition opening_ply (o : O.t) : option nat :=
  (λ u, length (Str.string_split " "%char u)) <$> O.uci o.

Definition openings_with_ply (openings : list O.t) : list (option nat * O.t) :=
  (λ o, (opening_ply o, o)) <$> openings.

(** [WHERE CONTAINS(t.clean_movetext, o.pgn)]: a [NULL] argument makes the
    condition [NULL], and the row is not selected. *)
Definition matches (t : G.t) (o : O.t) : bool :=
  match G.clean_movetext t, O.pgn o with
  | Some m, Some p => Str.contains m p
  | _, _ => false
  end.

(** The order of [ORDER BY opening_ply DESC]: [a] may come before [b].
    DuckDB sorts [NULL] last by default. *)
Definition ply_ge (a b : option nat) : bool :=
  match a, b with
  | Some x, Some y => Nat.leb y x
  | Some _, None => true
  | None, Some _ => false
  | None, None => true
  end.

(** Sorting by [opening_ply DESC].  The order among rows of equal ply is not
    fixed by the query; the embedding keeps them in catalogue order. *)
Fixpoint insert_desc (x : option nat * O.t) (l : list (option nat * O.t))
  : list (option nat * O.t) :=
  match l with
  | [] => [x]
  | y :: l' => if ply_ge x.1 y.1 then x :: l else y :: insert_desc x l'
  end.

Definition order_by_ply_desc (l : list (option nat * O.t))
  : list (option nat * O.t) :=
  foldr insert_desc [] l.

(** The lateral subquery for one target row [t]. *)
Definition lateral (openings : list O.t) (t : G.t) : list (option nat * O.t) :=
  take 1 (order_by_ply_desc
            (filter (λ o, matches t o.2) (openings_with_ply openings))).

(** [rowid]: the position of the row in the table. *)
Definition with_rowid (games : list G.t) : list (nat * G.t) :=
  imap pair games.

Definition target (games : list G.t) : list (nat * G.t) :=
  filter (λ t, G.Opening t.2 = None) (with_rowid games).

(** [target t JOIN LATERAL (...) o ON TRUE]: an inner join, a target row
    whose subquery is empty yields no row. *)
Definition target_join_lateral (openings : list O.t) (games : list G.t)
  : list (nat * (option nat * O.t)) :=
  t ← target games; (λ o, (t.1, o)) <$> lateral openings t.2.

(** The [UPDATE]: a row of [games] is changed when a joined row has its
    [rowid]. *)
Definition update_openings (openings : list O.t) (games : list G.t) : list G.t :=
  imap (λ rowid m,
          match List.find (λ j, Nat.eqb j.1 rowid) (target_join_lateral openings games) with
          | Some (_, (_, o)) => G.set_opening (O.eco o) (O.name o) m
          | None => m
          end) games.

(** What the statement does to one row, read off the query: the entry it
    applies, if any. *)
Definition applied_entry (openings : list O.t) (g : G.t) : option O.t :=
  if decide (G.Opening g = None)
  then snd <$> head (lateral openings g)
  else None.

Definition classify (openings : list O.t) (g : G.t) : G.t :=
  match applied_entry openings g with
  | Some o => G.set_opening (O.eco o) (O.name o) g
  | None => g
  end.

(** ** Failure

    A driver stops at the first exception: a usage error, an empty input
    listing, a failing file operation, or a [duckdb] run that exits with a
    failure ([ShellError] of Bun's [$]). *)

Inductive error := UsageError | NoFilesFound | FsError | ShellError.

Inductive result (A : Type) := Ok (a : A) | Err (e : error).
Arguments Ok {A} a.
Arguments Err {A} e.

#[global] Instance result_ret : MRet result := @Ok.
#[global] Instance result_bind : MBind result :=
  λ A B f m, match m with Ok a => f a | Err e => Err e end.
#[global] Instance result_fmap : FMap result :=
  λ A B f m, match m with Ok a => Ok (f a) | Err e => Err e end.

(** [for (const x of l) { s = await body(s, x) }]. *)
Fixpoint for_each {A S : Type} (body : S → A → result S) (l : list A) (s : S)
  : result S :=
  match l with
  | [] => Ok s
  | x :: l' => s' ← body s x; for_each body l' s'
  end.

(** ** Paths and files

    A path is kept resolved: the list of its segments from the root.  The
    file system is the list of its files with their paths, in the order in
    which a directory listing meets them; a directory is not an entry of its
    own, it is there as a prefix of the paths of its files, so [mkdirSync]
    changes nothing. *)

Abbreviation path := (list string).

(** A DuckDB database file, as the tables the pipeline uses. *)
Record database := Database {
  games : option (list G.t);
  openings : option (list O.t);
  combined : option (list C.t);
}.

Inductive file :=
  | DbFile (d : database)
  | ParquetFile (rows : list C.t)
  | OtherFile.

Abbreviation fs := (list (path * file)).

#[global] Instance database_eq_dec : EqDecision database.
Proof. solve_decision. Defined.
#[global] Instance file_eq_dec : EqDecision file.
Proof. solve_decision. Defined.
#[global] Instance error_eq_dec : EqDecision error.
Proof. solve_decision. Defined.

Fixpoint fs_lookup (p : path) (s : fs) : option file :=
  match s with
  | [] => None
  | (q, f) :: s' => if decide (q = p) then Some f else fs_lookup p s'
  end.

(** Writing a file: in place when the path exists, a new entry otherwise. *)
Fixpoint fs_write (p : path) (f : file) (s : fs) : fs :=
  match s with
  | [] => [(p, f)]
  | (q, g) :: s' =>
      if decide (q = p) then (p, f) :: s' else (q, g) :: fs_write p f s'
  end.

(** [rmSync(p, { force: true })]. *)
Definition rmSync (p : path) (s : fs) : fs :=
  filter (λ e, e.1 ≠ p) s.

(** [rmSync(dir, { recursive: true, force: true })]. *)
Definition rmSync_recursive (dir : path) (s : fs) : fs :=
  filter (λ e, ¬ dir `prefix_of` e.1) s.

(** [copyFileSync(src, dst)]. *)
Definition copyFileSync (src dst : path) (s : fs) : result fs :=
  match fs_lookup src s with
  | Some f => Ok (fs_write dst f s)
  | None => Err FsError
  end.

(** [path.normalize] on a resolved path: [..] drops the segment before it,
    [.] and empty segments are dropped. *)
Fixpoint normalize_go (acc : path) (p : path) : path :=
  match p with
  | [] => reverse acc
  | seg :: p' =>
      if decide (seg = "..") then normalize_go (tail acc) p'
      else if decide (seg = "." ∨ seg = "") then normalize_go acc p'
      else normalize_go (seg :: acc) p'
  end.

(** [path.join(a, b)]. *)
Definition join (a b : path) : path := normalize_go [] (a ++ b).

(** [path.relative(from, to)]. *)
Fixpoint relative (from to : path) : path :=
  match from, to with
  | a :: from', b :: to' =>
      if decide (a = b) then relative from' to'
      else replicate (length from) ".." ++ to
  | _, _ => replicate (length from) ".." ++ to
  end.

(** [listFilesByExtensionRecursively(dir, extLower)]: the files below [dir]
    whose lower-cased name ends with [extLower]. *)
Definition listFilesByExtensionRecursively (s : fs) (dir : path)
    (extLower : string) : list path :=
  (filter (λ e, dir `prefix_of` e.1 ∧ e.1 ≠ dir ∧
                Str.endsWith (Str.toLowerCase (default "" (last e.1))) extLower)
          s).*1.

(** ** [find-openings.ts] *)

Module FindOpenings.

Record Args := {
  inDir : option path;
  outDir : option path;
  openingsDb : option path;
  dataSource : option string;
  key : option string;
}.

(** [`UPDATE games SET DataSource = '${sqlStringLiteral(args.dataSource)}';`] *)
Definition update_DataSource_stmt (dataSource : string) : string :=
  "UPDATE games SET DataSource = '" +:+ sqlStringLiteral dataSource +:+ "';".

(** The engine on a statement of that form: the literal is read back and
    every row gets its value. *)
Definition exec_update_DataSource (stmt : string) (games : list G.t)
  : result (list G.t) :=
  match Str.strip_prefix "UPDATE games SET DataSource = " stmt with
  | Some lit =>
      match sql_literal lit with
      | Some (v, rest) =>
          if decide (rest = ";") then Ok (G.set_DataSource (Some v) <$> games)
          else Err ShellError
      | None => Err ShellError
      end
  | None => Err ShellError
  end.

(** [ATTACH '...' AS openings (READ_ONLY)] and the table [openings.openings]. *)
Definition attach_openings (s : fs) (openingsDb : path) : result (list O.t) :=
  match fs_lookup openingsDb s with
  | Some (DbFile d) =>
      match openings d with Some t => Ok t | None => Err ShellError end
  | _ => Err ShellError
  end.

(** The script [sql] on the table [games] of one store. *)
Definition run_sql (dataSource : string) (catalogue : result (list O.t))
    (games : list G.t) : result (list G.t) :=
  games1 ← exec_update_DataSource (update_DataSource_stmt dataSource) games;
  openings ← catalogue;
  Ok (update_openings openings games1).

(** [duckdb dstDb -c sql]. *)
Definition duckdb (s : fs) (dstDb openingsDb : path) (dataSource : string)
  : result fs :=
  match fs_lookup dstDb s with
  | Some (DbFile d) =>
      match games d with
      | Some games0 =>
          games1 ← run_sql dataSource (attach_openings s openingsDb) games0;
          Ok (fs_write dstDb
                (DbFile (Database (Some games1) (openings d) (combined d))) s)
      | None => Err ShellError
      end
  | _ => Err ShellError
  end.

(** The destination of a store: [join(outDir, relative(inDir, srcDb))]. *)
Definition dstDb (inDir outDir srcDb : path) : path :=
  join outDir (relative inDir srcDb).

(** The body of the loop over [dbs]. *)
Definition enrich_store (inDir outDir openingsDb : path) (dataSource : string)
    (s : fs) (srcDb : path) : result fs :=
  let dst := dstDb inDir outDir srcDb in
  s1 ← copyFileSync srcDb dst s;
  duckdb s1 dst openingsDb dataSource.

(** The script.  A missing or empty argument is falsy. *)
Definition main (args : Args) (s : fs) : result fs :=
  match inDir args, outDir args, openingsDb args, dataSource args with
  | Some i, Some o, Some c, Some (String a ds) =>
      let dbs := listFilesByExtensionRecursively s i ".duckdb" in
      if decide (dbs = []) then Err NoFilesFound
      else for_each (enrich_store i o c (String a ds)) dbs s
  | _, _, _, _ => Err UsageError
  end.

End FindOpenings.

(** ** [export-to-parquet.ts] *)

Module ExportToParquet.

Record Args := {
  inDir : option path;
  outDir : option path;
  outDb : option path;
  dataSource : option string;
  key : option string;
}.

(** [args.dataSource ?? args.key]. *)
Definition dataSource_or_key (args : Args) : option string :=
  match dataSource args with
  | Some v => Some v
  | None => key args
  end.

(** The select item for the column [DataSource]:
    [dataSource ? `  '${sqlStringLiteral(dataSource)}' AS DataSource,`
                : "  DataSource,"].
    An empty string is falsy. *)
Definition dataSourceSelect (dataSource : option string) : string :=
  match dataSource with
  | Some (String a v) =>
      "  '" +:+ sqlStringLiteral (String a v) +:+ "' AS DataSource,"
  | _ => "  DataSource,"
  end.

(** How the engine reads that item: the column of the source table, or a
    literal. *)
Inductive dataSource_expr := Column | Literal (v : string).

Definition parse_dataSourceSelect (item : string) : result dataSource_expr :=
  if decide (item = "  DataSource,") then Ok Column
  else match Str.strip_prefix "  " item with
       | Some lit =>
           match sql_literal lit with
           | Some (v, rest) =>
               if decide (rest = " AS DataSource,") then Ok (Literal v)
               else Err ShellError
           | None => Err ShellError
           end
       | None => Err ShellError
       end.

Definition eval_dataSource (e : dataSource_expr) (g : G.t) : option string :=
  match e with
  | Column => G.DataSource g
  | Literal v => Some v
  end.

(** [WHERE UTCDate IS NOT NULL AND year(UTCDate) >= 1500]. *)
Definition where_clause (g : G.t) : bool :=
  match G.UTCDate g with
  | Some d => (1500 <=? year d)%Z
  | None => false
  end.

(** The select list. *)
Definition project (e : dataSource_expr) (g : G.t) : C.t :=
  C.Row (G.Event g) (G.Site g) (G.White g) (G.Black g) (G.Result g)
    (G.WhiteTitle g) (G.BlackTitle g) (G.WhiteElo g) (G.BlackElo g)
    (G.UTCDate g) (G.UTCTime g) (G.ECO g) (G.Opening g) (G.Termination g)
    (G.TimeControl g) (G.Source g) (G.movetext g)
    (eval_dataSource e g) (year <$> G.UTCDate g) (strftime_m <$> G.UTCDate g).

(** [SELECT ... FROM src.games WHERE ...]. *)
Definition select (e : dataSource_expr) (src_games : list G.t) : list C.t :=
  project e <$> filter (λ g, where_clause g) src_games.

(** [CREATE TABLE combined AS <select>] when [first], else
    [INSERT INTO combined <select>]. *)
Definition create_or_insert (first : bool) (rows : list C.t) (d : database)
  : result database :=
  match first, combined d with
  | true, None => Ok (Database (games d) (openings d) (Some rows))
  | true, Some _ => Err ShellError
  | false, Some t => Ok (Database (games d) (openings d) (Some (t ++ rows)))
  | false, None => Err ShellError
  end.

(** Opening the database given on the command line creates it when the file
    is not there. *)
Definition open_or_create (s : fs) (p : path) : result database :=
  match fs_lookup p s with
  | None => Ok (Database None None None)
  | Some (DbFile d) => Ok d
  | Some _ => Err ShellError
  end.

(** [ATTACH '...' AS src (READ_ONLY)] and the table [src.games]. *)
Definition attach_src (s : fs) (db : path) : result (list G.t) :=
  match fs_lookup db s with
  | Some (DbFile d) =>
      match games d with Some t => Ok t | None => Err ShellError end
  | _ => Err ShellError
  end.

(** [duckdb outDb -c attachAndSelect]. *)
Definition attachAndSelect (outDb : path) (item : string)
    (st : fs * bool) (db : path) : result (fs * bool) :=
  d ← open_or_create st.1 outDb;
  src_games ← attach_src st.1 db;
  e ← parse_dataSourceSelect item;
  d' ← create_or_insert st.2 (select e src_games) d;
  Ok (fs_write outDb (DbFile d') st.1, false).

(** The partition directory of a row and the file written in it, as DuckDB
    names them for a hive-partitioned write. *)
Definition hive_value (v : option string) : string :=
  default "__HIVE_DEFAULT_PARTITION__" v.

Definition partition_file (outDir : path) (r : C.t) : path :=
  outDir ++ [ "DataSource=" +:+ hive_value (C.DataSource r);
              "year=" +:+ hive_value (pretty <$> C.year r);
              "month=" +:+ hive_value (C.month r);
              "data_0.parquet" ].

Definition append_row (outDir : path) (s : fs) (r : C.t) : fs :=
  match fs_lookup (partition_file outDir r) s with
  | Some (ParquetFile rows) =>
      fs_write (partition_file outDir r) (ParquetFile (rows ++ [r])) s
  | _ => fs_write (partition_file outDir r) (ParquetFile [r]) s
  end.

(** [COPY combined TO outDir (FORMAT PARQUET, PARTITION_BY (DataSource, year,
    month))]: without an overwrite option the engine refuses a directory
    that is not empty. *)
Definition copy_combined (outDb outDir : path) (s : fs) : result fs :=
  match fs_lookup outDb s with
  | Some (DbFile d) =>
      match combined d with
      | Some rows =>
          if decide (filter (λ e, outDir `prefix_of` e.1) s = [])
          then Ok (foldl (append_row outDir) s rows)
          else Err ShellError
      | None => Err ShellError
      end
  | _ => Err ShellError
  end.

Section Sort.

(** [a.localeCompare(b)] on two paths: negative, zero or positive. *)
Variable localeCompare : path → path → Z.

(** [dbs.sort((a, b) => a.localeCompare(b))]; the sort is stable. *)
Fixpoint insert_sorted (x : path) (l : list path) : list path :=
  match l with
  | [] => [x]
  | y :: l' =>
      if (localeCompare x y <=? 0)%Z then x :: l else y :: insert_sorted x l'
  end.

Definition sort (l : list path) : list path := foldr insert_sorted [] l.

(** The script.  The row count that it prints between the loop and the
    [COPY] reads the table and changes nothing. *)
Definition main (args : Args) (s : fs) : result fs :=
  match inDir args, outDir args, outDb args with
  | Some i, Some o, Some d =>
      let dbs := sort (listFilesByExtensionRecursively s i ".duckdb") in
      if decide (dbs = []) then Err NoFilesFound
      else
        let s1 := rmSync_recursive o s in
        let s2 := rmSync d s1 in
        let item := dataSourceSelect (dataSource_or_key args) in
        st ← for_each (attachAndSelect d item) dbs (s2, true);
        copy_combined d o st.1
  | _, _, _ => Err UsageError
  end.

End Sort.

End ExportToParquet.

(** ** A row with another [clean_movetext] *)

Definition with_clean_movetext (v : option string) (g : G.t) : G.t :=
  G.Row (G.Event g) (G.Site g) (G.White g) (G.Black g) (G.Result g)
    (G.WhiteTitle g) (G.BlackTitle g) (G.WhiteElo g) (G.BlackElo g)
    (G.UTCDate g) (G.UTCTime g) (G.ECO g) (G.Opening g) (G.Termination g)
    (G.TimeControl g) (G.Source g) (G.movetext g) (G.parse_error g) v
    (G.DataSource g).

(** ** [outputStemFromRelativePath] and [escapeRegExp]
    ([src/lib/pipeline-utils.ts]) *)

(** The class [[.*+?^${}()|[\]\\]] of [escapeRegExp]; these are the syntax
    characters of a pattern. *)
Definition syntax_character (a : ascii) : bool :=
  existsb (Ascii.eqb a) (list_ascii_of_string ".*+?^${}()|[]\").

(** [s.replace(/[.*+?^${}()|[\]\\]/g, "\\$&")]: a backslash is put before
    every character of the class. *)
Fixpoint escapeRegExp (s : string) : string :=
  match s with
  | "" => ""
  | String a s' =>
      if syntax_character a then String "\" (String a (escapeRegExp s'))
      else String a (escapeRegExp s')
  end.

(** How [new RegExp] reads a pattern source that is made of pattern
    characters and escaped syntax characters only ([literal_pattern]): such
    a source matches one text ([pattern_text]), the source with the
    escaping backslashes taken away. *)
Fixpoint literal_pattern (src : string) : bool :=
  match src with
  | "" => true
  | String a src' =>
      if Ascii.eqb a "\" then
        match src' with
        | String b src'' => syntax_character b && literal_pattern src''
        | "" => false
        end
      else negb (syntax_character a) && literal_pattern src'
  end.

Fixpoint pattern_text (src : string) : string :=
  match src with
  | "" => ""
  | String a src' =>
      if Ascii.eqb a "\" then
        match src' with
        | String b src'' => String b (pattern_text src'')
        | "" => ""
        end
      else String a (pattern_text src')
  end.

(** The flag [i]: two characters match when they are the same letter in
    either case, a letter being compared as its capital. *)
Definition to_upper (a : ascii) : ascii :=
  let n := nat_of_ascii a in
  if Nat.leb 97 n && Nat.leb n 122 then ascii_of_nat (n - 32) else a.

(** The pattern [text$] with the flag [i] tried at the start of [s]: the
    text, then the end of the input. *)
Fixpoint matches_to_end (text s : string) : bool :=
  match text, s with
  | "", "" => true
  | String a text', String b s' =>
      Ascii.eqb (to_upper a) (to_upper b) && matches_to_end text' s'
  | _, _ => false
  end.

(** [s.replace(new RegExp(src + "$", "i"), "")] for a literal pattern with
    the text [text]: the match is tried at every index from the left, and
    the first one found is replaced by the empty string. *)
Fixpoint replace_at_end (text s : string) : string :=
  if matches_to_end text s then ""
  else match s with
       | "" => ""
       | String a s' => String a (replace_at_end text s')
       end.

(** [s.replace(/[\\/]/g, "__")]. *)
Fixpoint replace_separators (s : string) : string :=
  match s with
  | "" => ""
  | String a s' =>
      if Ascii.eqb a "\" || Ascii.eqb a "/"
      then "__" +:+ replace_separators s'
      else String a (replace_separators s')
  end.

(** The two flavours of [node:path].  A path is written with the separator
    of the platform; in a path that is read, [/] separates on both and [\]
    on Windows only. *)
Inductive platform := Posix | Win32.

Definition sep (pf : platform) : string :=
  match pf with Posix => "/" | Win32 => "\" end.

Definition is_sep (pf : platform) (a : ascii) : bool :=
  Ascii.eqb a "/" ||
  match pf with Posix => false | Win32 => Ascii.eqb a "\" end.

(** A path as the string that [relative] hands back. *)
Definition path_string (pf : platform) (p : path) : string :=
  String.concat (sep pf) p.

(** The segments of a path given as a string, as [join] takes it apart. *)
Fixpoint split_path (pf : platform) (s : string) : path :=
  match s with
  | "" => [""]
  | String a s' =>
      if is_sep pf a then "" :: split_path pf s'
      else match split_path pf s' with
           | seg :: segs => String a seg :: segs
           | [] => [String a ""]
           end
  end.

(** [outputStemFromRelativePath(rootDir, filePath, stripExtLower)]. *)
Definition outputStemFromRelativePath (pf : platform)
    (rootDir filePath : path) (stripExtLower : string) : string :=
  let rel := path_string pf (relative rootDir filePath) in
  replace_separators
    (replace_at_end (pattern_text (escapeRegExp stripExtLower)) rel).

(** ** [read-pgn.ts] *)

(** A row that the table function [read_pgn] of the chess extension yields:
    the columns that the later stages read. *)
Module R.
Record t := Row {
  Event : option string;
  Site : option string;
  White : option string;
  Black : option string;
  Result : option string;
  WhiteTitle : option string;
  BlackTitle : option string;
  WhiteElo : option N;
  BlackElo : option N;
  UTCDate : option date;
  UTCTime : option string;
  ECO : option string;
  Opening : option string;
  Termination : option string;
  TimeControl : option string;
  Source : option string;
  movetext : option string;
  parse_error : option string;
}.
End R.

Module ReadPgn.

Record Args := {
  inDir : option path;
  outDir : option path;
  key : option string;
}.

Section Extension.

(** The platform, and the two functions of the chess extension that the
    script calls: [read_pgn] on the file at a path, which may fail
    ([None]), and the scalar function [chess_moves_normalize]. *)
Variable pf : platform.
Variable read_pgn : path → option (list R.t).
Variable chess_moves_normalize : option string → option string.

(** [SELECT *, chess_moves_normalize(movetext) AS clean_movetext] on one
    row.  The column [DataSource] is not there yet; it is [NULL] when
    [find-openings.ts] adds it. *)
Definition select (r : R.t) : G.t :=
  G.Row (R.Event r) (R.Site r) (R.White r) (R.Black r) (R.Result r)
    (R.WhiteTitle r) (R.BlackTitle r) (R.WhiteElo r) (R.BlackElo r)
    (R.UTCDate r) (R.UTCTime r) (R.ECO r) (R.Opening r) (R.Termination r)
    (R.TimeControl r) (R.Source r) (R.movetext r) (R.parse_error r)
    (chess_moves_normalize (R.movetext r)) None.

(** [CREATE TABLE IF NOT EXISTS games AS SELECT ... FROM read_pgn('...')]:
    the query is planned whether the table is there or not, so the file
    has to be there and [read_pgn] has to accept it; its rows make the
    table only when there is no table [games] yet. *)
Definition create_games (s : fs) (pgnPath : path) (d : database)
  : result database :=
  match fs_lookup pgnPath s, read_pgn pgnPath with
  | Some _, Some rows =>
      match games d with
      | Some _ => Ok d
      | None =>
          Ok (Database (Some (select <$> rows)) (openings d) (combined d))
      end
  | _, _ => Err ShellError
  end.

(** [join(params.outDir, `${stem}.duckdb`)]. *)
Definition outDb (inDir outDir pgnPath : path) : path :=
  let stem := outputStemFromRelativePath pf inDir pgnPath ".pgn" in
  join outDir (split_path pf (stem +:+ ".duckdb")).

(** [readOnePgn]: [duckdb outDb -c sql].  The second [duckdb] run is
    read-only and counts the rows of the table that is there by then. *)
Definition readOnePgn (inDir outDir : path) (s : fs) (pgnPath : path)
  : result fs :=
  let db := outDb inDir outDir pgnPath in
  d ← ExportToParquet.open_or_create s db;
  d' ← create_games s pgnPath d;
  Ok (fs_write db (DbFile d') s).

(** The script. *)
Definition main (args : Args) (s : fs) : result fs :=
  match inDir args, outDir args with
  | Some i, Some o =>
      let pgns := listFilesByExtensionRecursively s i ".pgn" in
      if decide (pgns = []) then Err NoFilesFound
      else for_each (readOnePgn i o) pgns s
  | _, _ => Err UsageError
  end.

End Extension.

End ReadPgn.

(** ** [scrape-lumbras.ts]

    The scraper works on JavaScript strings, which are sequences of UTF-16
    code units; its patterns have no [u] flag, so they match code units. *)

Module Js.

Abbreviation str := (list N).

(** A string literal of the source; the ones used here are ASCII. *)
Definition lit (s : string) : str := N_of_ascii <$> list_ascii_of_string s.

(** [\s], which is also what [trim] removes: the white space and the line
    terminators (TAB, LF, VT, FF, CR, SP, NBSP, U+1680, U+2000 to U+200A,
    U+2028, U+2029, U+202F, U+205F, U+3000, U+FEFF). *)
Definition is_space (c : N) : bool :=
  bool_decide (c ∈ [9; 10; 11; 12; 13; 32; 160; 5760; 8232; 8233; 8239;
                    8287; 12288; 65279]%N)
  || ((8192 <=? c)%N && (c <=? 8202)%N).

(** [\d] and [[A-Za-z0-9_]], which is also [\w]. *)
Definition is_digit (c : N) : bool := (48 <=? c)%N && (c <=? 57)%N.

Definition is_word (c : N) : bool :=
  is_digit c || ((65 <=? c)%N && (c <=? 90)%N)
  || ((97 <=? c)%N && (c <=? 122)%N) || (c =? 95)%N.

(** [s.trim()]. *)
Fixpoint trimStart (s : str) : str :=
  match s with
  | c :: s' => if is_space c then trimStart s' else s
  | [] => []
  end.

Definition trimEnd (s : str) : str := reverse (trimStart (reverse s)).

Definition trim (s : str) : str := trimEnd (trimStart s).

(** The flag [i] on a pattern character that is ASCII: a code unit matches
    it when the two are the same up to the case of an ASCII letter (a code
    unit from 128 on is never made equal to an ASCII one). *)
Definition upper (c : N) : N :=
  if (97 <=? c)%N && (c <=? 122)%N then (c - 32)%N else c.

Definition same_letter (p c : N) : bool := (upper p =? upper c)%N.

(** The text [pat], ignoring case, at the start of [s]: what follows it. *)
Fixpoint strip_prefix_ci (pat s : str) : option str :=
  match pat, s with
  | [], _ => Some s
  | p :: pat', c :: s' =>
      if same_letter p c then strip_prefix_ci pat' s' else None
  | _ :: _, [] => None
  end.

(** [\b] after a word character: the end, or a character that is not a
    word character. *)
Definition word_ends (rest : str) : bool :=
  match rest with
  | [] => true
  | c :: _ => negb (is_word c)
  end.

(** [/^w\b/i] for a word [w]: what follows the match. *)
Definition match_leading_word (w s : str) : option str :=
  match strip_prefix_ci w s with
  | Some rest => if word_ends rest then Some rest else None
  | None => None
  end.

(** [s.replace(/^w\b/i, "")]. *)
Definition remove_leading_word (w s : str) : str :=
  default s (match_leading_word w s).

(** [/^pat$/i.test(s)] and [/pat/i.test(s)] for a text [pat]. *)
Definition equals_ci (pat s : str) : bool :=
  match strip_prefix_ci pat s with
  | Some [] => true
  | _ => false
  end.

Fixpoint includes_ci (pat s : str) : bool :=
  match strip_prefix_ci pat s with
  | Some _ => true
  | None => match s with
            | [] => false
            | _ :: s' => includes_ci pat s'
            end
  end.

(** [\d{n}] at the start of [s]: the digits and what follows them. *)
Definition digits (n : nat) (s : str) : option (str * str) :=
  if bool_decide (length (take n s) = n) && forallb is_digit (take n s)
  then Some (take n s, drop n s)
  else None.

(** [s.match(/\b(\d{4})\b/)]: the first four digits that stand alone as a
    word, trying every index from the left; [prev] tells whether the
    character before the index is a word character. *)
Fixpoint find_year (prev : bool) (s : str) : option str :=
  match s with
  | [] => None
  | c :: s' =>
      match (if prev then None else digits 4 s) with
      | Some (y, rest) =>
          if word_ends rest then Some y else find_year (is_word c) s'
      | None => find_year (is_word c) s'
      end
  end.

(** [s.match(/^(\d{4})\s*-\s*(\d{n})$/)]. *)
Definition match_range (n : nat) (s : str) : option (str * str) :=
  match digits 4 s with
  | Some (y1, r1) =>
      match trimStart r1 with
      | c :: r2 =>
          if (c =? 45)%N then
            match digits n (trimStart r2) with
            | Some (y2, []) => Some (y1, y2)
            | _ => None
            end
          else None
      | [] => None
      end
  | None => None
  end.

(** [s.match(/^(\d{4})$/)]. *)
Definition match_year (s : str) : option str :=
  match digits 4 s with
  | Some (y, []) => Some y
  | _ => None
  end.

(** [s.replaceAll(pat, rep)] for a pattern that is not empty: the
    occurrences are taken from the left and do not overlap; [skip] counts
    the characters of an occurrence that are still to be passed over. *)
Fixpoint replaceAll_go (pat rep : str) (skip : nat) (s : str) : str :=
  match s with
  | [] => []
  | c :: s' =>
      match skip with
      | S k => replaceAll_go pat rep k s'
      | O =>
          if bool_decide (pat `prefix_of` s)
          then rep ++ replaceAll_go pat rep (length pat - 1) s'
          else c :: replaceAll_go pat rep 0 s'
      end
  end.

Definition replaceAll (pat rep s : str) : str := replaceAll_go pat rep 0 s.

(** The digits at the start of [s] and what follows them. *)
Fixpoint digit_run (s : str) : str * str :=
  match s with
  | c :: s' =>
      if is_digit c then let r := digit_run s' in (c :: r.1, r.2)
      else ([], s)
  | [] => ([], [])
  end.

(** The number that a string of decimal digits stands for. *)
Definition decimal (ds : str) : N :=
  foldl (λ n c, (10 * n + (c - 48))%N) 0%N ds.

End Js.

Module ScrapeLumbras.

Import Js.

Inductive Category := Online | OTB.

#[global] Instance category_eq_dec : EqDecision Category.
Proof. solve_decision. Defined.

(** The category as the string that the source has for it, and
    [category.toLowerCase()]. *)
Definition category_name (c : Category) : str :=
  match c with Online => lit "Online" | OTB => lit "OTB" end.

Definition category_lower (c : Category) : str :=
  match c with Online => lit "online" | OTB => lit "otb" end.

Record Dataset := {
  title : str;
  category : Category;
  downloadUrl : str;
  key : str;
}.

Section Titles.

(** [String.fromCharCode(Number(n))] for a string of digits that stands for
    a number from [2^53] on, where the conversion to a Number rounds. *)
Variable fromCharCode_big : str → N.

(** [String.fromCharCode(Number(n))] for a string [n] of digits: below
    [2^53] the number is exact and the code unit is its rest modulo
    [2^16]. *)
Definition fromCharCode_Number (n : str) : N :=
  if (decimal n <? 2 ^ 53)%N then (decimal n mod 65536)%N
  else fromCharCode_big n.

(** [s.replace(/&#(\d+);/g, (_m, n) => String.fromCharCode(Number(n)))]. *)
Fixpoint decode_numeric (skip : nat) (s : str) : str :=
  match s with
  | [] => []
  | c :: s' =>
      match skip with
      | S k => decode_numeric k s'
      | O =>
          match s' with
          | c' :: s2 =>
              match digit_run s2 with
              | (d :: ds, semi :: _) =>
                  if (c =? 38)%N && (c' =? 35)%N && (semi =? 59)%N
                  then fromCharCode_Number (d :: ds)
                       :: decode_numeric (length (d :: ds) + 2) s'
                  else c :: decode_numeric 0 s'
              | _ => c :: decode_numeric 0 s'
              end
          | [] => c :: decode_numeric 0 s'
          end
      end
  end.

Definition decodeHtmlEntities (input : str) : str :=
  decode_numeric 0
    (replaceAll (lit "&gt;") (lit ">")
       (replaceAll (lit "&lt;") (lit "<")
          (replaceAll (lit "&#039;") (lit "'")
             (replaceAll (lit "&quot;") [34%N]
                (replaceAll (lit "&amp;") (lit "&") input))))).

(** [s.replace(/[\u2013\u2014]/g, "-")]: the en dash and the em dash. *)
Definition replace_dashes (s : str) : str :=
  (λ c, if (c =? 8211)%N || (c =? 8212)%N then 45%N else c) <$> s.

(** [s.replace(/\s+/g, " ")]; [in_run] tells whether the character before
    was white space. *)
Fixpoint collapse_spaces (in_run : bool) (s : str) : str :=
  match s with
  | [] => []
  | c :: s' =>
      if is_space c
      then if in_run then collapse_spaces true s'
           else 32%N :: collapse_spaces true s'
      else c :: collapse_spaces false s'
  end.

Definition normalizeTitle (input : str) : str :=
  trim (collapse_spaces false (replace_dashes (decodeHtmlEntities input))).

(** The suffix of the key, from what is left of the title after the
    category. *)
Definition suffix_of (remainder : str) : option str :=
  if equals_ci (lit "nodate") remainder then Some (lit "nodate")
  else if includes_ci (lit "partial release") remainder then
    match find_year false remainder with
    | Some y => Some (y ++ lit "_partial")
    | None => Some (lit "partial")
    end
  else
    match match_range 4 remainder with
    | Some (y1, y2) => Some (y1 ++ lit "_" ++ y2)
    | None =>
        match match_year remainder with
        | Some y => Some y
        | None =>
            match match_range 2 remainder with
            | Some (y, m) => Some (y ++ lit "_" ++ m)
            | None => None
            end
        end
    end.

Definition deriveKey (title : str) : option (str * Category) :=
  let t := normalizeTitle title in
  let otb := match_leading_word (lit "otb") t in
  let online := match_leading_word (lit "online") t in
  if negb (bool_decide (is_Some otb)) && negb (bool_decide (is_Some online))
  then None
  else
    let category := if bool_decide (is_Some otb) then OTB else Online in
    let remainder :=
      trim (remove_leading_word (lit "online")
              (remove_leading_word (lit "otb") t)) in
    match suffix_of remainder with
    | Some suffix =>
        Some (lit "lumbras_" ++ category_lower category ++ lit "_" ++ suffix,
              category)
    | None => None
    end.

End Titles.

(** The loop "de-dupe by key" that ends [extractDownloadLinks], on the
    datasets that the scan of the page has pushed: [seen] is the set of the
    keys met, in the order in which they were added. *)
Definition dedupe_step (st : list str * list Dataset) (d : Dataset)
  : list str * list Dataset :=
  if bool_decide (key d ∈ st.1) then st
  else (st.1 ++ [key d], st.2 ++ [d]).

Definition dedupe (datasets : list Dataset) : list Dataset :=
  (foldl dedupe_step ([], []) datasets).2.

(** [txt.split(/\r?\n/)]. *)
Fixpoint split_lines (txt : str) : list str :=
  match txt with
  | [] => [[]]
  | c :: txt' =>
      if (c =? 10)%N then [] :: split_lines txt'
      else
        match txt' with
        | c' :: txt'' =>
            if (c =? 13)%N && (c' =? 10)%N then [] :: split_lines txt''
            else match split_lines txt' with
                 | line :: lines => (c :: line) :: lines
                 | [] => [[c]]
                 end
        | [] => [[c]]
        end
  end.

(** The word characters at the start of [s] and what follows them. *)
Fixpoint word_run (s : str) : str * str :=
  match s with
  | c :: s' =>
      if is_word c then let r := word_run s' in (c :: r.1, r.2)
      else ([], s)
  | [] => ([], [])
  end.

(** [line.match(/^\s{2}([A-Za-z0-9_]+):\s*$/)?.[1]]. *)
Definition key_of_line (line : str) : option str :=
  match line with
  | a :: b :: rest =>
      if is_space a && is_space b then
        match word_run rest with
        | (w :: ws, colon :: tail) =>
            if (colon =? 58)%N && forallb is_space tail
            then Some (w :: ws) else None
        | _ => None
        end
      else None
  | _ => None
  end.

(** [keys.add(k)] on a set, kept in the order of insertion. *)
Definition set_add (k : str) (keys : list str) : list str :=
  if bool_decide (k ∈ keys) then keys else keys ++ [k].

(** [existingSourceKeys]: on the text of the file, or [None] when the file
    cannot be read. *)
Definition existingSourceKeys (txt : option str) : list str :=
  match txt with
  | Some t =>
      foldl (λ keys line,
               match key_of_line line with
               | Some k => set_add k keys
               | None => keys
               end) [] (split_lines t)
  | None => []
  end.

Record Entry := {
  e_key : str;
  e_category : Category;
  e_mega : str;
}.

(** [printYamlEntries]: the strings that it hands to [console.log]. *)
Definition printYamlEntries (entries : list Entry) : list str :=
  e ← entries;
  [ lit "  " ++ e_key e ++ lit ":";
    lit "    mega: " ++ [34%N] ++ e_mega e ++ [34%N];
    lit "    category: " ++ [34%N] ++ category_name (e_category e) ++ [34%N];
    [] ].

(** What [console.log] writes for these strings. *)
Definition console_text (logged : list str) : str :=
  l ← logged; l ++ [10%N].

(** The script from the datasets on: [found] is what
    [extractDownloadLinks] has found on the page, [params] the text of the
    file [paramsPath], if it can be read.  What the script does before,
    the header that it prints and the request for the page, is not part of
    this. *)
Section Report.

(** [resolveMegaKey(d.downloadUrl, timeoutMs)]: the request can throw
    ([None]); otherwise the result is the MEGA key, or [null]. *)
Variable resolveMegaKey : str → option (option str).

(** [a.localeCompare(b)]: negative, zero or positive. *)
Variable localeCompare : str → str → Z.

(** [Boolean(values.all)], [!values.noResolve] and [paramsPath]. *)
Variable includeExisting resolve : bool.
Variable paramsPath : str.

(** [datasets.sort((a, b) => a.key.localeCompare(b.key))]; the sort is
    stable. *)
Fixpoint insert_by_key (x : Dataset) (l : list Dataset) : list Dataset :=
  match l with
  | [] => [x]
  | y :: l' =>
      if (localeCompare (key x) (key y) <=? 0)%Z then x :: l
      else y :: insert_by_key x l'
  end.

Definition sort_by_key (l : list Dataset) : list Dataset :=
  foldr insert_by_key [] l.

(** The two comment lines for a dataset that is not printed as YAML. *)
Definition comment_lines (d : Dataset) : list str :=
  [ lit "# " ++ title d; lit "# download: " ++ downloadUrl d ].

Definition warning : str :=
  lit "# WARNING: could not resolve mega key (no Location header or non-MEGA target)".

(** The loop over the datasets: the strings logged and the entries pushed
    to [toPrint], or [None] in their place when a request has thrown. *)
Fixpoint select (existing : list str) (datasets : list Dataset)
  : list str * option (list Entry) :=
  match datasets with
  | [] => ([], Some [])
  | d :: ds =>
      if negb includeExisting && bool_decide (key d ∈ existing)
      then select existing ds
      else if negb resolve
      then (comment_lines d ++ [[]] ++ (select existing ds).1,
            (select existing ds).2)
      else
        match resolveMegaKey (downloadUrl d) with
        | None => ([], None)
        | Some (Some (c :: mega)) =>
            ((select existing ds).1,
             cons (Build_Entry (key d) (category d) (c :: mega))
               <$> (select existing ds).2)
        | Some _ =>
            (comment_lines d ++ [warning; []] ++ (select existing ds).1,
             (select existing ds).2)
        end
  end.

Definition no_new_datasets : str :=
  lit "# No new datasets found relative to " ++ paramsPath.

(** What is printed after the loop. *)
Definition yaml_section (heading : str) (entries : list Entry) : list str :=
  match entries with
  | [] => []
  | _ :: _ => heading :: printYamlEntries entries
  end.

Definition print_selected (toPrint : list Entry) : list str :=
  yaml_section (lit "  # Online datasets")
    (filter (λ e, e_category e = Online) toPrint)
  ++ yaml_section (lit "  # OTB datasets")
       (filter (λ e, e_category e = OTB) toPrint)
  ++ (if negb includeExisting && resolve && bool_decide (length toPrint = 0)
      then [no_new_datasets] else [])
  ++ (if negb resolve && bool_decide (length toPrint = 0)
         && negb includeExisting
      then [no_new_datasets] else []).

(** The strings logged, and whether the script has come to its end. *)
Definition report (found : list Dataset) (params : option str)
  : list str * bool :=
  let datasets := sort_by_key found in
  let existing := existingSourceKeys params in
  match select existing datasets with
  | (logged, Some toPrint) => (logged ++ print_selected toPrint, true)
  | (logged, None) => (logged, false)
  end.

End Report.

End ScrapeLumbras.

(** ** The arguments of the DuckDB command line
    ([src/lib/pipeline-utils.ts])

    The values of environment variables are JavaScript strings; a variable
    that is not set is [None]. *)

Section CliArgs.

(** [s.toLowerCase()] of the engine. *)
Variable toLowerCase : Js.str → Js.str.

(** [isTruthyEnvValue(v)]. *)
Definition isTruthyEnvValue (v : option Js.str) : bool :=
  match v with
  | None | Some [] => false
  | Some v =>
      bool_decide (toLowerCase (Js.trim v)
                   ∈ [Js.lit "1"; Js.lit "true"; Js.lit "yes"; Js.lit "y";
                      Js.lit "on"])
  end.

(** The pattern of [shouldForceDuckdbUnsignedFromParamsYaml], with the
    flag [m]: at the start of a line, white space, [chess_ext_version],
    white space, a colon, white space, a single or double quote or none,
    the group, and again a quote or none.  The group is one or more
    characters other than the two quotes, the line feed and [#]. *)

(** The line terminators, after which [^] matches with the flag [m], the
    two quotes, and the class of the group. *)
Definition is_line_terminator (c : N) : bool :=
  bool_decide (c ∈ [10; 13; 8232; 8233]%N).

Definition is_quote (c : N) : bool := (c =? 39)%N || (c =? 34)%N.

Definition in_value_class (c : N) : bool :=
  negb (bool_decide (c ∈ [39; 34; 10; 35]%N)).

(** The characters of a kind at the start of [s], and what follows. *)
Fixpoint run (kind : N → bool) (s : Js.str) : Js.str * Js.str :=
  match s with
  | c :: s' =>
      if kind c then let r := run kind s' in (c :: r.1, r.2) else ([], s)
  | [] => ([], [])
  end.

(** The group, when the characters at the start of [s] can make it. *)
Definition value_at (s : Js.str) : option Js.str :=
  match run in_value_class s with
  | (c :: value, _) => Some (c :: value)
  | ([], _) => None
  end.

(** The pattern from after the colon on, at [s]: the group.  The white
    space is taken as far as it goes, and then a quote if there is one;
    when no value follows there, the match gives white space back, one
    character after the other, until the group can start in it: the group
    is then the last character of the white space that is not a line
    feed. *)
Definition value_after_colon (s : Js.str) : option Js.str :=
  let (spaces, rest) := run Js.is_space s in
  let value :=
    match rest with
    | c :: rest' => if is_quote c then value_at rest' else value_at rest
    | [] => None
    end in
  match value with
  | Some v => Some v
  | None => (λ c, [c]) <$> last (filter (λ c, c ≠ 10%N) spaces)
  end.

(** The text [pat] at the start of [s]: what follows it. *)
Fixpoint strip_prefix (pat s : Js.str) : option Js.str :=
  match pat, s with
  | [], _ => Some s
  | p :: pat', c :: s' => if (p =? c)%N then strip_prefix pat' s' else None
  | _ :: _, [] => None
  end.

(** The pattern tried at the start of a line, at [s]. *)
Definition match_version_at (s : Js.str) : option Js.str :=
  match strip_prefix (Js.lit "chess_ext_version") (Js.trimStart s) with
  | Some after_key =>
      match Js.trimStart after_key with
      | c :: after_colon =>
          if (c =? 58)%N then value_after_colon after_colon else None
      | [] => None
      end
  | None => None
  end.

(** [raw.match(...)?.[1]]: the pattern is tried at every index from the
    left; [line_start] tells whether [^] matches at the index. *)
Fixpoint search_version (line_start : bool) (s : Js.str) : option Js.str :=
  match (if line_start then match_version_at s else None) with
  | Some group => Some group
  | None =>
      match s with
      | [] => None
      | c :: s' => search_version (is_line_terminator c) s'
      end
  end.

(** [s.includes(pat)]. *)
Fixpoint includes (pat s : Js.str) : bool :=
  bool_decide (pat `prefix_of` s)
  || match s with
     | [] => false
     | _ :: s' => includes pat s'
     end.

(** The [try] block on the text of [params.yaml], or on [None] when the
    file cannot be read. *)
Definition force_from_params (raw : option Js.str) : bool :=
  match raw with
  | Some r =>
      match search_version true r with
      | Some group =>
          let v := Js.trim group in
          negb (bool_decide (v = []))
          && includes (Js.lit "local") (toLowerCase v)
      | None => false
      end
  | None => false
  end.

(** [shouldForceDuckdbUnsignedFromParamsYaml()]: [cached] is the module
    variable [cachedForceUnsigned], and [raw] the text of [params.yaml] at
    the time of the call.  The result is the value returned and the new
    value of the module variable. *)
Definition shouldForceDuckdbUnsignedFromParamsYaml (cached : option bool)
    (raw : option Js.str) : bool * option bool :=
  match cached with
  | Some b => (b, Some b)
  | None => (force_from_params raw, Some (force_from_params raw))
  end.

(** [s.split(/\s+/g)]; [in_run] tells whether the character before was
    white space. *)
Fixpoint split_spaces (in_run : bool) (s : Js.str) : list Js.str :=
  match s with
  | [] => [[]]
  | c :: s' =>
      if Js.is_space c
      then if in_run then split_spaces true s'
           else [] :: split_spaces true s'
      else match split_spaces false s' with
           | piece :: pieces => (c :: piece) :: pieces
           | [] => [[c]]
           end
  end.

(** [duckdbCliArgs(extra)]: [env_unsigned] and [env_args] are
    [process.env.DUCKDB_UNSIGNED] and [process.env.DUCKDB_CLI_ARGS], and
    [cached] and [raw] are as above. *)
Definition duckdbCliArgs (cached : option bool) (raw : option Js.str)
    (env_unsigned env_args : option Js.str) (extra : option (list Js.str))
  : list Js.str * option bool :=
  let (force, cached') :=
    shouldForceDuckdbUnsignedFromParamsYaml cached raw in
  let unsigned :=
    if force then [Js.lit "-unsigned"]
    else if isTruthyEnvValue env_unsigned then [Js.lit "-unsigned"]
    else [] in
  let from_env :=
    match Js.trim <$> env_args with
    | Some (c :: extra_env) =>
        filter (λ a, a ≠ []) (split_spaces false (c :: extra_env))
    | _ => []
    end in
  (unsigned ++ from_env ++ default [] extra, cached').

End CliArgs.

(** ** Notions used to state the lemmas *)

(** *** The classification query *)

(** [x] is at least every row of [l] in the sort order. *)
Definition ply_top (x : option nat * O.t) (l : list (option nat * O.t)) : Prop :=
  ∀ y, y ∈ l → ply_ge x.1 y.1 = true.

(** The join over the rows [l] of a table whose first row has rowid [k]. *)
Definition join_from (openings : list O.t) (k : nat) (l : list G.t)
  : list (nat * (option nat * O.t)) :=
  t ← filter (λ t, G.Opening t.2 = None) (imap (λ i, pair (k + i)) l);
  (λ o, (t.1, o)) <$> lateral openings t.2.

(** *** The enrichment run *)

(** A segment that [path.normalize] keeps. *)
Definition plain_segment (seg : string) : Prop :=
  seg ≠ ".." ∧ seg ≠ "." ∧ seg ≠ "".

(** A path that is already normal. *)
Definition resolved (p : path) : Prop := Forall plain_segment p.

(** The store that the script leaves at the destination of a source store
    with tables [d], for the label and the catalogue of the run. *)
Definition enriched (label : string) (catalogue : list O.t) (d : database)
  : file :=
  DbFile (Database
            ((λ games0, update_openings catalogue
                          (G.set_DataSource (Some label) <$> games0))
               <$> games d)
            (openings d) (combined d)).

(** *** The export *)




(** The file system after the two [rmSync]. *)
Definition clean (o d : path) (s : fs) : fs :=
  rmSync d (rmSync_recursive o s).






(** *** Sample data *)

Definition sample_game (clean : option string) (opening : option string)
    (utc : option date) (err : option string) (ds : option string) : G.t :=
  G.Row (Some "Rated Blitz game") (Some "https://lichess.org/abcd1234")
    (Some "alice") (Some "bob") (Some "1-0") None None (Some 1500%N)
    (Some 1480%N) utc (Some "12:00:00") None opening (Some "Normal")
    (Some "300+0") None clean err clean ds.

Definition open_game : O.t :=
  O.Row (Some "C20") (Some "King's Pawn Game") (Some "e2e4 e7e5")
    (Some "1. e4 e5").

Definition kings_knight : O.t :=
  O.Row (Some "C40") (Some "King's Knight Opening") (Some "e2e4 e7e5 g1f3")
    (Some "1. e4 e5 2. Nf3").

Definition italian_game : O.t :=
  O.Row (Some "C50") (Some "Italian Game")
    (Some "e2e4 e7e5 g1f3 b8c6 f1c4") (Some "1. e4 e5 2. Nf3 Nc6 3. Bc4").

Definition sample_catalogue : list O.t :=
  [open_game; italian_game; kings_knight].

(** A store under [in/], the catalogue under [ref/]. *)
Definition sample_fs : fs :=
  [ (["in"; "lichess"; "2020.duckdb"],
     DbFile (Database
               (Some [sample_game (Some "1. d4 d5") None
                        (Some (Date 2020 5 17)) None None;
                      sample_game (Some "1. e4 e5 2. Nf3 Nc6") None
                        (Some (Date 1400 1 1)) None None])
               None None));
    (["ref"; "openings.duckdb"],
     DbFile (Database None (Some sample_catalogue) None)) ].

Definition sample_find_openings_args : FindOpenings.Args :=
  FindOpenings.Build_Args (Some ["in"]) (Some ["out"])
    (Some ["ref"; "openings.duckdb"]) (Some "lichess") None.





(** *** Further notions *)




(** *** A run of [read-pgn.ts] *)

(** A row as [read_pgn] yields it, with the given movetext and opening. *)
Definition sample_row (movetext opening : option string) : R.t :=
  R.Row (Some "Rated game") None (Some "white") (Some "black") (Some "1-0")
    None None None None (Some (Date 2020 5 17)) None None opening None None
    None movetext None.

(** Two PGN files below [pgn], one of them in a directory of its own and
    with its extension in capitals. *)
Definition sample_pgn_fs : fs :=
  [ (["pgn"; "twic"; "1999.PGN"], OtherFile);
    (["pgn"; "club.pgn"], OtherFile);
    (["pgn"; "notes.txt"], OtherFile);
    (["ref"; "openings.duckdb"],
     DbFile (Database None (Some sample_catalogue) None)) ].

Definition sample_read_pgn (p : path) : option (list R.t) :=
  if decide (p = ["pgn"; "club.pgn"])
  then Some [sample_row (Some "1. e4 e5 2. Nf3 Nc6 1-0") None]
  else Some [sample_row (Some "1. d4 d5 1/2-1/2") (Some "Queen's Pawn");
             sample_row None None].

(** A stand-in for [chess_moves_normalize]: the movetext as it is. *)
Definition sample_normalize (m : option string) : option string := m.

Definition sample_read_pgn_args : ReadPgn.Args :=
  {| ReadPgn.inDir := Some ["pgn"];
     ReadPgn.outDir := Some ["stores"];
     ReadPgn.key := None |}.



(** *** The scraper *)

(** The datasets that the loop keeps, when the keys in [seen] have been
    met before. *)
Fixpoint dedupe_from (seen : list Js.str) (ds : list ScrapeLumbras.Dataset)
  : list ScrapeLumbras.Dataset :=
  match ds with
  | [] => []
  | d :: ds' =>
      if bool_decide (ScrapeLumbras.key d ∈ seen) then dedupe_from seen ds'
      else d :: dedupe_from (seen ++ [ScrapeLumbras.key d]) ds'
  end.

(** A line that [console.log] can write as one line of a text: it has no
    line feed, and no carriage return at its end that would join the line
    feed after it. *)
Definition plain_line (l : Js.str) : Prop :=
  (10%N ∉ l) ∧ last l ≠ Some 13%N.

(** An entry that [printYamlEntries] can print as YAML: the key is a word
    of [[A-Za-z0-9_]], and the MEGA key has no line feed. *)
Definition printable (e : ScrapeLumbras.Entry) : Prop :=
  ScrapeLumbras.e_key e ≠ [] ∧
  Forall (λ c, Js.is_word c = true) (ScrapeLumbras.e_key e) ∧
  (10%N ∉ ScrapeLumbras.e_mega e).

(** A string of [n] decimal digits. *)
Definition n_digits (n : nat) (y : Js.str) : Prop :=
  length y = n ∧ Forall (λ c, Js.is_digit c = true) y.

(** The suffixes that a key can have. *)
Definition key_suffix (suffix : Js.str) : Prop :=
  suffix = Js.lit "nodate" ∨ suffix = Js.lit "partial" ∨
  (∃ y, n_digits 4 y ∧ suffix = y ++ Js.lit "_partial") ∨
  (∃ y1 y2, n_digits 4 y1 ∧ n_digits 4 y2 ∧ suffix = y1 ++ Js.lit "_" ++ y2) ∨
  (∃ y, n_digits 4 y ∧ suffix = y) ∨
  (∃ y m, n_digits 4 y ∧ n_digits 2 m ∧ suffix = y ++ Js.lit "_" ++ m).

(** A dataset that the script can print: the key is a word of
    [[A-Za-z0-9_]], and the title and the address can each be written as
    one line. *)
Definition printable_dataset (d : ScrapeLumbras.Dataset) : Prop :=
  ScrapeLumbras.key d ≠ [] ∧
  Forall (λ c, Js.is_word c = true) (ScrapeLumbras.key d) ∧
  plain_line (ScrapeLumbras.title d) ∧
  plain_line (ScrapeLumbras.downloadUrl d).

(** Three datasets, one of them with a key that [params.yaml] has. *)
Definition sample_datasets : list ScrapeLumbras.Dataset :=
  [ ScrapeLumbras.Build_Dataset (Js.lit "OTB 2025") ScrapeLumbras.OTB
      (Js.lit "https://example.org/download/3") (Js.lit "lumbras_otb_2025");
    ScrapeLumbras.Build_Dataset (Js.lit "Online 2020-2024")
      ScrapeLumbras.Online (Js.lit "https://example.org/download/1")
      (Js.lit "lumbras_online_2020_2024");
    ScrapeLumbras.Build_Dataset (Js.lit "OTB nodate") ScrapeLumbras.OTB
      (Js.lit "https://example.org/download/2") (Js.lit "lumbras_otb_nodate") ].

Definition sample_params : Js.str :=
  Js.lit "sources:" ++ [10%N] ++ Js.lit "  lumbras_otb_nodate:" ++ [10%N]
  ++ Js.lit "    category: OTB" ++ [10%N].

(** A stand-in for the requests: every address but the first resolves. *)
Definition sample_resolve (url : Js.str) : option (option Js.str) :=
  if bool_decide (url = Js.lit "https://example.org/download/1")
  then Some None
  else Some (Some (Js.lit "AbCdEfGh#0123456789")).

Definition sample_compare (a b : Js.str) : Z :=
  if bool_decide (a = b) then 0%Z
  else if bool_decide (lexico a b) then (-1)%Z else 1%Z.

(** A dataset that the loop of the script pushes to [toPrint], with its
    MEGA key: its key is not in [params.yaml], or [--all] is given; the
    keys are to be resolved; and the request gives a key that is not
    empty. *)
Definition selected_dataset (resolveMegaKey : Js.str → option (option Js.str))
    (includeExisting resolve : bool) (existing : list Js.str)
    (d : ScrapeLumbras.Dataset) (mega : Js.str) : Prop :=
  (includeExisting = true ∨ ScrapeLumbras.key d ∉ existing) ∧
  resolve = true ∧ mega ≠ [] ∧
  resolveMegaKey (ScrapeLumbras.downloadUrl d) = Some (Some mega).

(** The key of [params.yaml] that [duckdbCliArgs] looks for. *)
Definition version_key : Js.str := Js.lit "chess_ext_version".

(** What follows [before] in a text starts a line: [before] is empty or
    ends with a line terminator. *)
Definition ends_line (before : Js.str) : Prop :=
  match last before with
  | Some c => is_line_terminator c = true
  | None => True
  end.

(** A stand-in for [toLowerCase] of the engine, on ASCII letters. *)
Definition sample_toLowerCase (s : Js.str) : Js.str :=
  (λ c, if (65 <=? c)%N && (c <=? 90)%N then (c + 32)%N else c) <$> s.

(** The characters that [decodeHtmlEntities] knows an entity for, the
    escaping of a character with a table of entities, and the escaping of
    a text with the entities that have a name. *)
Definition named_entities : list (N * Js.str) :=
  [ (38%N, Js.lit "&amp;"); (34%N, Js.lit "&quot;"); (39%N, Js.lit "&#039;");
    (60%N, Js.lit "&lt;"); (62%N, Js.lit "&gt;") ].

Fixpoint escape_with (table : list (N * Js.str)) (c : N) : Js.str :=
  match table with
  | (ch, entity) :: table' =>
      if (c =? ch)%N then entity else escape_with table' c
  | [] => [c]
  end.

Definition escape_html (s : Js.str) : Js.str :=
  s ≫= escape_with named_entities.

(** * Properties *)

(** ** Strings and the SQL literal *)

Lemma prefix_spec (p s : string) :
  String.prefix p s = true ↔ ∃ r, s = p +:+ r.
Proof.
  revert s. induction p as [|a p IH]; intros s; simpl.
  - split; [intros _; by exists s | by destruct s].
  - destruct s as [|b s]; simpl.
    + split; [done | intros [r Hr]; discriminate].
    + destruct (Ascii.ascii_dec a b) as [->|Hne].
      * rewrite IH. split; intros [r Hr]; exists r; simpl in *; congruence.
      * split; [done | intros [r Hr]; simpl in Hr; congruence].
Qed.

Lemma contains_nil (needle : string) :
  Str.contains "" needle = String.prefix needle "".
Proof. simpl. apply orb_false_r. Qed.

Lemma contains_cons (a : ascii) (h needle : string) :
  Str.contains (String a h) needle
  = String.prefix needle (String a h) || Str.contains h needle.
Proof. reflexivity. Qed.

Lemma contains_spec (haystack needle : string) :
  Str.contains haystack needle = true ↔ Str.occurs_in needle haystack.
Proof.
  unfold Str.occurs_in. induction haystack as [|a h IH].
  - rewrite contains_nil, prefix_spec. split.
    + intros [r Hr]. by exists "", r.
    + intros (b & r & Hr). destruct b; [by exists r | discriminate].
  - rewrite contains_cons, orb_true_iff, IH, prefix_spec. split.
    + intros [[r Hr] | (b & r & Hr)].
      * by exists "", r.
      * exists (String a b), r. simpl. by rewrite Hr.
    + intros (b & r & Hr). destruct b as [|x b]; simpl in Hr.
      * left. by exists r.
      * right. exists b, r. congruence.
Qed.

Lemma sql_literal_body_escape (s rest : string) :
  starts_with_quote rest = false →
  sql_literal_body (sqlStringLiteral s +:+ String quote rest) = Some (s, rest).
Proof.
  intros Hrest. unfold sqlStringLiteral.
  induction s as [|a s IH]; simpl.
  - destruct rest as [|b rest]; [done |]. simpl in Hrest. by rewrite Hrest.
  - destruct (Ascii.eqb a quote) eqn:Ha; simpl.
    + apply Ascii.eqb_eq in Ha as ->. by rewrite IH.
    + rewrite Ha, IH. done.
Qed.

Lemma sql_literal_escape (s rest : string) :
  starts_with_quote rest = false →
  sql_literal (String quote (sqlStringLiteral s +:+ String quote rest))
  = Some (s, rest).
Proof. intros H. simpl. by apply sql_literal_body_escape. Qed.

Lemma string_split_length (sep : ascii) (s : string) :
  length (Str.string_split sep s) = S (Str.count_char sep s).
Proof.
  induction s as [|a s IH]; simpl; [done |].
  destruct (Ascii.eqb a sep); simpl; [by rewrite IH |].
  destruct (Str.string_split sep s); simpl in *; [done | lia].
Qed.

(** ** The sort of the lateral subquery *)

Lemma ply_ge_total (a b : option nat) : ply_ge a b = false → ply_ge b a = true.
Proof.
  destruct a, b; simpl; try done.
  rewrite Nat.leb_gt, Nat.leb_le. lia.
Qed.

Lemma ply_ge_trans (a b c : option nat) :
  ply_ge a b = true → ply_ge b c = true → ply_ge a c = true.
Proof.
  destruct a, b, c; simpl; try done.
  rewrite !Nat.leb_le. lia.
Qed.

Lemma ply_ge_refl (a : option nat) : ply_ge a a = true.
Proof. destruct a; simpl; [by apply Nat.leb_le | done]. Qed.

Lemma insert_desc_perm x l : insert_desc x l ≡ₚ x :: l.
Proof.
  induction l as [|y l IH]; simpl; [done |].
  destruct (ply_ge x.1 y.1); [done |].
  rewrite IH. apply Permutation_swap.
Qed.

Lemma order_by_ply_desc_perm l : order_by_ply_desc l ≡ₚ l.
Proof.
  induction l as [|x l IH]; simpl; [done |].
  by rewrite insert_desc_perm, IH.
Qed.

Lemma insert_desc_head x l z zs :
  match l with [] => True | y :: l' => ply_top y l' end →
  insert_desc x l = z :: zs → ply_top z zs.
Proof.
  destruct l as [|y l']; simpl.
  - intros _ [= <- <-]. by intros ? ?%elem_of_nil.
  - intros Hy. destruct (ply_ge x.1 y.1) eqn:Hxy.
    + intros [= <- <-]. intros w [->|Hw]%elem_of_cons; [done |].
      eapply ply_ge_trans; [done | by apply Hy].
    + intros [= <- <-]. intros w Hw.
      rewrite insert_desc_perm in Hw. apply elem_of_cons in Hw as [->|Hw].
      * by apply ply_ge_total.
      * by apply Hy.
Qed.

Lemma order_by_ply_desc_head l :
  match order_by_ply_desc l with [] => True | y :: l' => ply_top y l' end.
Proof.
  induction l as [|x l IH]; simpl; [done |].
  destruct (insert_desc x (order_by_ply_desc l)) as [|z zs] eqn:Hz; [done |].
  by eapply insert_desc_head.
Qed.

(** [ORDER BY ... DESC LIMIT 1]: empty exactly on an empty input, and
    otherwise one row of the input that is at least every row of it. *)
Lemma take1_order_by_ply_desc l :
  match take 1 (order_by_ply_desc l) with
  | [] => l = []
  | [x] => x ∈ l ∧ ply_top x l
  | _ => False
  end.
Proof.
  pose proof (order_by_ply_desc_head l) as Hh.
  pose proof (order_by_ply_desc_perm l) as Hp.
  destruct (order_by_ply_desc l) as [|x xs]; simpl.
  - by apply Permutation_nil in Hp.
  - destruct xs; simpl; (split; [rewrite <- Hp; by left |]);
      intros y Hy; rewrite <- Hp in Hy;
      (apply elem_of_cons in Hy as [->|Hy]; [apply ply_ge_refl | by apply Hh]).
Qed.

Lemma elem_of_openings_with_ply openings n o :
  (n, o) ∈ openings_with_ply openings ↔ n = opening_ply o ∧ o ∈ openings.
Proof.
  unfold openings_with_ply. rewrite list_elem_of_fmap. split.
  - intros (o' & [= -> ->] & Ho'). done.
  - intros [-> Ho]. by exists o.
Qed.

(** The subquery yields no row when no entry matches, and otherwise exactly
    one row: a matching entry whose ply no matching entry exceeds. *)
Lemma lateral_spec openings t :
  match lateral openings t with
  | [] => ∀ o, o ∈ openings → matches t o = false
  | [(n, o)] =>
      n = opening_ply o ∧ o ∈ openings ∧ matches t o = true ∧
      ∀ o', o' ∈ openings → matches t o' = true →
            ply_ge (opening_ply o) (opening_ply o') = true
  | _ => False
  end.
Proof.
  unfold lateral.
  pose proof (take1_order_by_ply_desc
    (filter (λ o, matches t o.2) (openings_with_ply openings))) as H.
  destruct (take 1 _) as [|[n o] [|? ?]]; [| |done].
  - intros o Ho. destruct (matches t o) eqn:Hm; [|done].
    assert ((opening_ply o, o) ∈
            filter (λ o, matches t o.2) (openings_with_ply openings)) as Hin.
    { apply list_elem_of_filter. split; [simpl; by rewrite Hm |].
      by apply elem_of_openings_with_ply. }
    rewrite H in Hin. by apply elem_of_nil in Hin.
  - destruct H as [Hin Htop].
    apply list_elem_of_filter in Hin as [Hm Hin]. simpl in Hm.
    apply elem_of_openings_with_ply in Hin as [-> Hin].
    split_and!; [done | done | by apply Is_true_true |].
    intros o' Ho' Hm'.
    apply (Htop (opening_ply o', o')).
    apply list_elem_of_filter. split; [simpl; by rewrite Hm' |].
    by apply elem_of_openings_with_ply.
Qed.

Lemma find_app {A} (f : A → bool) (l1 l2 : list A) :
  List.find f (l1 ++ l2)
  = match List.find f l1 with Some x => Some x | None => List.find f l2 end.
Proof.
  induction l1 as [|x l1 IH]; simpl; [done |]. by destruct (f x).
Qed.

Lemma find_none_forall {A} (f : A → bool) (l : list A) :
  (∀ x, x ∈ l → f x = false) → List.find f l = None.
Proof.
  induction l as [|x l IH]; simpl; [done |]. intros H.
  rewrite (H x) by left. apply IH. intros y Hy. apply H. by right.
Qed.

Lemma join_from_cons openings k g l :
  join_from openings k (g :: l)
  = (if decide (G.Opening g = None)
     then (λ o, (k, o)) <$> lateral openings g else [])
    ++ join_from openings (S k) l.
Proof.
  unfold join_from. rewrite imap_cons. rewrite Nat.add_0_r.
  assert (imap ((λ i, pair (k + i)) ∘ S) l = imap (λ i, pair (S k + i)) l) as ->.
  { apply imap_ext. intros i x _. simpl. f_equal. lia. }
  rewrite filter_cons. simpl. destruct (decide (G.Opening g = None)); [|done].
  by rewrite bind_cons.
Qed.

Lemma join_from_rowid_ge openings k l j :
  j ∈ join_from openings k l → k ≤ j.1.
Proof.
  revert k. induction l as [|g l IH]; intros k.
  - intros H. by apply elem_of_nil in H.
  - rewrite join_from_cons, elem_of_app. intros [H|H].
    + destruct (decide _); [|by apply elem_of_nil in H].
      apply list_elem_of_fmap in H as (o & -> & _). done.
    + apply IH in H. lia.
Qed.

Lemma find_join_from openings l : ∀ k i,
  List.find (λ j, Nat.eqb j.1 (k + i)) (join_from openings k l)
  = g ← l !! i;
    if decide (G.Opening g = None)
    then (λ o, (k + i, o)) <$> head (lateral openings g) else None.
Proof.
  induction l as [|g l IH]; intros k i; [by destruct i |].
  rewrite join_from_cons, find_app. destruct i as [|i]; simpl.
  - rewrite Nat.add_0_r.
    assert (List.find (λ j, Nat.eqb j.1 k) (join_from openings (S k) l) = None)
      as Hrest.
    { apply find_none_forall. intros j Hj%join_from_rowid_ge.
      apply Nat.eqb_neq. lia. }
    destruct (decide (G.Opening g = None)); simpl; [|done].
    destruct (lateral openings g) as [|o os]; simpl; [done |].
    by rewrite Nat.eqb_refl.
  - replace (k + S i) with (S k + i) by lia. rewrite <- IH.
    rewrite find_none_forall; [done |].
    intros j Hj. destruct (decide _); [|by apply elem_of_nil in Hj].
    apply list_elem_of_fmap in Hj as (o & -> & _). simpl.
    apply Nat.eqb_neq. lia.
Qed.

(** The statement changes each row on its own, by [classify]. *)
Lemma update_openings_classify openings games :
  update_openings openings games = classify openings <$> games.
Proof.
  apply list_eq. intros i. unfold update_openings.
  rewrite list_lookup_imap, list_lookup_fmap.
  destruct (games !! i) as [g|] eqn:Hg; simpl; [|done]. f_equal.
  change (target_join_lateral openings games) with (join_from openings 0 games).
  pose proof (find_join_from openings games 0 i) as Hf. simpl in Hf.
  rewrite Hf, Hg. simpl. unfold classify, applied_entry.
  destruct (decide (G.Opening g = None)); [|done].
  destruct (lateral openings g) as [|[n o] os]; done.
Qed.

(** ** The classifier *)

Lemma matches_spec (g : G.t) (o : O.t) :
  matches g o = true ↔
  ∃ m p, G.clean_movetext g = Some m ∧ O.pgn o = Some p ∧ Str.occurs_in p m.
Proof.
  unfold matches.
  destruct (G.clean_movetext g) as [m|], (O.pgn o) as [p|].
  - rewrite contains_spec. split.
    + intros H. by exists m, p.
    + by intros (? & ? & [= <-] & [= <-] & H).
  - split; [done | by intros (? & ? & _ & ? & _)].
  - split; [done | by intros (? & ? & ? & _)].
  - split; [done | by intros (? & ? & ? & _)].
Qed.

(** C1.  The classifier takes a catalogue entry as a match for a game exactly
    when the entry's [pgn] occurs inside the game's [clean_movetext] (both
    being strings, not [NULL]); a game with clean movetext
    ["1. e4 e5 2. Nf3 Nc6"] is matched by an entry with pgn ["1. e4 e5"]. *)
Theorem match_iff_pgn_contained (g : G.t) (o : O.t) :
  (matches g o = true ↔
   ∃ m p, G.clean_movetext g = Some m ∧ O.pgn o = Some p ∧ Str.occurs_in p m)
  ∧ (G.clean_movetext g = Some "1. e4 e5 2. Nf3 Nc6" →
     O.pgn o = Some "1. e4 e5" → matches g o = true).
Proof.
  split; [apply matches_spec |].
  intros Hm Hp. unfold matches. rewrite Hm, Hp. reflexivity.
Qed.

Lemma match_iff_pgn_contained_witness :
  matches (sample_game (Some "1. e4 e5 2. Nf3 Nc6") None None None None)
          open_game = true.
Proof.
  apply (match_iff_pgn_contained
           (sample_game (Some "1. e4 e5 2. Nf3 Nc6") None None None None)
           open_game); reflexivity.
Defined.

Lemma exec_update_DataSource_stmt (label : string) (games : list G.t) :
  FindOpenings.exec_update_DataSource
    (FindOpenings.update_DataSource_stmt label) games
  = Ok (G.set_DataSource (Some label) <$> games).
Proof.
  unfold FindOpenings.exec_update_DataSource, FindOpenings.update_DataSource_stmt.
  simpl Str.strip_prefix. cbv iota.
  change (sql_literal (String "'" (sqlStringLiteral label +:+ "';")))
    with (sql_literal (String quote (sqlStringLiteral label +:+ String quote ";"))).
  rewrite sql_literal_escape by done. by rewrite decide_True.
Qed.

Lemma run_sql_ok (label : string) (openings : list O.t) (games : list G.t) :
  FindOpenings.run_sql label (Ok openings) games
  = Ok (classify openings <$> (G.set_DataSource (Some label) <$> games)).
Proof.
  unfold FindOpenings.run_sql. rewrite exec_update_DataSource_stmt. simpl.
  by rewrite update_openings_classify.
Qed.

Lemma run_sql_err (label : string) (e : error) (games : list G.t) :
  FindOpenings.run_sql label (Err e) games = Err e.
Proof.
  unfold FindOpenings.run_sql. by rewrite exec_update_DataSource_stmt.
Qed.

Lemma classify_set_DataSource openings v g :
  classify openings (G.set_DataSource v g)
  = G.set_DataSource v (classify openings g).
Proof.
  unfold classify, applied_entry.
  change (G.Opening (G.set_DataSource v g)) with (G.Opening g).
  change (lateral openings (G.set_DataSource v g)) with (lateral openings g).
  destruct (decide (G.Opening g = None)); [|done].
  by destruct (head (lateral openings g)) as [[n o]|].
Qed.

Lemma applied_entry_spec openings g :
  G.Opening g = None →
  match applied_entry openings g with
  | None => lateral openings g = [] ∧ ∀ o, o ∈ openings → matches g o = false
  | Some o =>
      lateral openings g = [(opening_ply o, o)] ∧
      o ∈ openings ∧ matches g o = true ∧
      ∀ o', o' ∈ openings → matches g o' = true →
            ply_ge (opening_ply o) (opening_ply o') = true
  end.
Proof.
  intros Hnull. unfold applied_entry. rewrite decide_True by done.
  pose proof (lateral_spec openings g) as H.
  destruct (lateral openings g) as [|[n o] [|? ?]]; simpl; [done | | done].
  destruct H as (-> & ? & ? & ?). done.
Qed.

Lemma ply_ge_tokens (o o' : O.t) (u' : string) :
  ply_ge (opening_ply o) (opening_ply o') = true →
  O.uci o' = Some u' →
  ∃ u, O.uci o = Some u ∧
       length (Str.string_split " " u') ≤ length (Str.string_split " " u).
Proof.
  unfold opening_ply. intros H Hu'. rewrite Hu' in H.
  destruct (O.uci o) as [u|]; simpl in H; [|done].
  exists u. split; [done |]. by apply Nat.leb_le.
Qed.

(** C2.  For an unclassified game (its [Opening] is [NULL]) with at least one
    matching catalogue entry, the subquery yields exactly one entry [o]; it
    matches, and no matching entry has a greater ply, the ply of an entry
    being the number of pieces of its [uci] between spaces; the script sets
    the game's [ECO] and [Opening] to the [eco] and [name] of [o]. *)
Theorem longest_match_is_applied
    (label : string) (openings : list O.t) (games : list G.t)
    (i : nat) (g : G.t) :
  games !! i = Some g →
  G.Opening g = None →
  (∃ o, o ∈ openings ∧ matches g o = true) →
  ∃ o games' g',
    lateral openings g = [(opening_ply o, o)] ∧
    o ∈ openings ∧ matches g o = true ∧
    (∀ o', o' ∈ openings → matches g o' = true →
       ply_ge (opening_ply o) (opening_ply o') = true) ∧
    (∀ o' u', o' ∈ openings → matches g o' = true → O.uci o' = Some u' →
       ∃ u, O.uci o = Some u ∧
            length (Str.string_split " " u') ≤ length (Str.string_split " " u)) ∧
    (∀ o' u', O.uci o' = Some u' →
       opening_ply o' = Some (S (Str.count_char " " u'))) ∧
    update_openings openings games !! i
      = Some (G.set_opening (O.eco o) (O.name o) g) ∧
    FindOpenings.run_sql label (Ok openings) games = Ok games' ∧
    games' !! i = Some g' ∧
    G.ECO g' = O.eco o ∧ G.Opening g' = O.name o.
Proof.
  intros Hi Hnull (o0 & Ho0 & Hm0).
  pose proof (applied_entry_spec openings g Hnull) as H.
  destruct (applied_entry openings g) as [o|] eqn:Ha.
  - destruct H as (Hl & Ho & Hm & Hmax).
    exists o, (classify openings <$> (G.set_DataSource (Some label) <$> games)),
      (G.set_DataSource (Some label) (G.set_opening (O.eco o) (O.name o) g)).
    split_and!; try done.
    + intros o' u' Ho' Hm' Hu'. eapply ply_ge_tokens; [by apply Hmax | done].
    + intros o' u' Hu'. unfold opening_ply. rewrite Hu'. simpl.
      by rewrite string_split_length.
    + rewrite update_openings_classify, list_lookup_fmap, Hi. simpl.
      unfold classify. by rewrite Ha.
    + apply run_sql_ok.
    + rewrite !list_lookup_fmap, Hi. simpl.
      rewrite classify_set_DataSource. unfold classify. by rewrite Ha.
  - destruct H as [_ Hno]. rewrite (Hno o0 Ho0) in Hm0. done.
Qed.

Lemma longest_match_is_applied_witness :
  ∃ o games' g',
    lateral [open_game; italian_game; kings_knight]
      (sample_game (Some "1. e4 e5 2. Nf3 Nc6") None None None None)
      = [(opening_ply o, o)] ∧
    o = kings_knight ∧
    FindOpenings.run_sql "lichess" (Ok [open_game; italian_game; kings_knight])
      [sample_game (Some "1. e4 e5 2. Nf3 Nc6") None None None None]
      = Ok games' ∧
    games' !! 0 = Some g' ∧
    G.ECO g' = Some "C40" ∧ G.Opening g' = Some "King's Knight Opening".
Proof.
  destruct (longest_match_is_applied "lichess"
              [open_game; italian_game; kings_knight]
              [sample_game (Some "1. e4 e5 2. Nf3 Nc6") None None None None]
              0 (sample_game (Some "1. e4 e5 2. Nf3 Nc6") None None None None))
    as (o & games' & g' & Hl & _ & _ & _ & _ & _ & _ & Hrun & Hg' & He & Hn).
  - reflexivity.
  - reflexivity.
  - exists open_game. split; [by left | reflexivity].
  - assert (o = kings_knight) as Ho.
    { vm_compute in Hl. by injection Hl as _ <-. }
    exists o, games', g'. rewrite He, Hn, Ho. done.
Defined.

Lemma classify_classified openings g :
  G.Opening g ≠ None → classify openings g = g.
Proof.
  intros H. unfold classify, applied_entry. by rewrite decide_False.
Qed.

Lemma classify_idemp openings g :
  classify openings (classify openings g) = classify openings g.
Proof.
  unfold classify at 2. destruct (applied_entry openings g) as [o|] eqn:Ha.
  - unfold classify, applied_entry in *.
    change (lateral openings (G.set_opening (O.eco o) (O.name o) g))
      with (lateral openings g).
    change (G.Opening (G.set_opening (O.eco o) (O.name o) g)) with (O.name o).
    destruct (decide (G.Opening g = None)); [|done].
    rewrite Ha. by destruct (decide (O.name o = None)).
  - unfold classify. by rewrite Ha.
Qed.

Lemma set_DataSource_idemp v g :
  G.set_DataSource v (G.set_DataSource v g) = G.set_DataSource v g.
Proof. done. Qed.



(** ** The export query *)




(** ** Rows with a parse error *)

(** C3, as the code has it.  Neither query reads [parse_error]: a row is
    classified and exported exactly as the same row with any other
    [parse_error] is. *)
Theorem parse_error_is_not_consulted
    (openings : list O.t) (e : ExportToParquet.dataSource_expr)
    (v : option string) (g : G.t) :
  applied_entry openings (G.with_parse_error v g) = applied_entry openings g ∧
  classify openings (G.with_parse_error v g)
  = G.with_parse_error v (classify openings g) ∧
  ExportToParquet.where_clause (G.with_parse_error v g)
  = ExportToParquet.where_clause g ∧
  ExportToParquet.project e (G.with_parse_error v g)
  = ExportToParquet.project e g ∧
  ExportToParquet.select e [G.with_parse_error v g]
  = ExportToParquet.select e [g].
Proof.
  assert (applied_entry openings (G.with_parse_error v g)
          = applied_entry openings g) as Ha by done.
  assert (ExportToParquet.project e (G.with_parse_error v g)
          = ExportToParquet.project e g) as Hp by (by destruct e).
  split_and!.
  - done.
  - unfold classify. rewrite Ha. by destruct (applied_entry openings g).
  - done.
  - done.
  - unfold ExportToParquet.select. rewrite !filter_cons, !filter_nil.
    change (ExportToParquet.where_clause (G.with_parse_error v g))
      with (ExportToParquet.where_clause g).
    destruct (decide _); [|done]. by rewrite !fmap_cons, Hp.
Qed.

(** C3 as stated fails: a row with a parse error is classified and
    exported. *)
Lemma parse_error_row_is_classified_and_exported :
  let g := sample_game (Some "1. e4 e5 2. Nf3 Nc6") None
             (Some (Date 2020 5 17)) (Some "illegal move at ply 5") None in
  G.parse_error g ≠ None ∧
  (∃ games',
     FindOpenings.run_sql "lichess" (Ok sample_catalogue) [g] = Ok games' ∧
     G.Opening <$> games' = [Some "King's Knight Opening"] ∧
     G.ECO <$> games' = [Some "C40"]) ∧
  length (ExportToParquet.select ExportToParquet.Column [g]) = 1.
Proof.
  simpl. split; [done |]. split; [|done].
  eexists. split; [apply run_sql_ok |]. by vm_compute.
Qed.

(** ** Files and paths *)

Lemma fs_lookup_write_eq (p : path) (f : file) (s : fs) :
  fs_lookup p (fs_write p f s) = Some f.
Proof.
  induction s as [|[q g] s IH]; simpl.
  - by rewrite decide_True.
  - destruct (decide (q = p)) as [->|Hne]; simpl.
    + by rewrite decide_True.
    + by rewrite decide_False.
Qed.

Lemma fs_lookup_write_ne (p q : path) (f : file) (s : fs) :
  p ≠ q → fs_lookup q (fs_write p f s) = fs_lookup q s.
Proof.
  intros Hpq. induction s as [|[r g] s IH]; simpl.
  - by rewrite decide_False.
  - destruct (decide (r = p)) as [->|Hne]; simpl.
    + by rewrite !decide_False.
    + destruct (decide (r = q)); done.
Qed.

Lemma fs_write_write (p : path) (f f' : file) (s : fs) :
  fs_write p f' (fs_write p f s) = fs_write p f' s.
Proof.
  induction s as [|[q g] s IH]; simpl.
  - by rewrite decide_True.
  - destruct (decide (q = p)) as [->|Hne]; simpl.
    + by rewrite decide_True.
    + rewrite decide_False by done. by rewrite IH.
Qed.



Lemma fs_lookup_None_not_elem_of (p : path) (s : fs) :
  fs_lookup p s = None ↔ ∀ f, (p, f) ∉ s.
Proof.
  induction s as [|[q g] s IH]; simpl.
  - split; [intros _ f Hf; by apply elem_of_nil in Hf | done].
  - destruct (decide (q = p)) as [->|Hne].
    + split; [done |]. intros H. exfalso. apply (H g). by left.
    + rewrite IH. split.
      * intros H f [[= ? ?]|Hf]%elem_of_cons; [done | by apply (H f)].
      * intros H f Hf. apply (H f). by right.
Qed.

Section EntryFilter.
Context (P : path * file → Prop) `{!∀ e, Decision (P e)}.

Lemma filter_fs_write_out (p : path) (f : file) (s : fs) :
  (∀ g, ¬ P (p, g)) → filter P (fs_write p f s) = filter P s.
Proof.
  intros Hp. induction s as [|[q g] s IH]; simpl.
  - by rewrite filter_cons_False.
  - destruct (decide (q = p)) as [->|Hne].
    + by rewrite !filter_cons_False.
    + rewrite !filter_cons. by rewrite IH.
Qed.



End EntryFilter.

Lemma normalize_go_resolved (acc p : path) :
  resolved p → normalize_go acc p = reverse acc ++ p.
Proof.
  intros Hp. revert acc. induction Hp as [|seg p (H1 & H2 & H3) Hp IH];
    intros acc; simpl.
  - by rewrite app_nil_r.
  - rewrite decide_False by done.
    rewrite decide_False by (intros [?|?]; done).
    rewrite IH, reverse_cons, <- app_assoc. done.
Qed.

Lemma join_resolved (a b : path) :
  resolved a → resolved b → join a b = a ++ b.
Proof.
  intros Ha Hb. unfold join. rewrite normalize_go_resolved; [done |].
  by apply Forall_app.
Qed.

Lemma relative_app (from rel : path) : relative from (from ++ rel) = rel.
Proof.
  induction from as [|a from IH]; simpl.
  - by destruct rel.
  - by rewrite decide_True.
Qed.

Lemma dstDb_mirror (i o rel : path) :
  resolved o → resolved rel → FindOpenings.dstDb i o (i ++ rel) = o ++ rel.
Proof.
  intros Ho Hrel. unfold FindOpenings.dstDb.
  by rewrite relative_app, join_resolved.
Qed.

Lemma elem_of_listFiles (s : fs) (dir : path) (ext : string) (p : path) :
  p ∈ listFilesByExtensionRecursively s dir ext ↔
  ∃ f, (p, f) ∈ s ∧ dir `prefix_of` p ∧ p ≠ dir ∧
       Str.endsWith (Str.toLowerCase (default "" (last p))) ext = true.
Proof.
  unfold listFilesByExtensionRecursively. rewrite list_elem_of_fmap. split.
  - intros ([q f] & -> & [(H1 & H2 & H3) Hin]%list_elem_of_filter).
    exists f. simpl in *. split_and!; try done. by apply Is_true_true.
  - intros (f & Hin & H1 & H2 & H3). exists (p, f). split; [done |].
    apply list_elem_of_filter. split; [|done]. simpl.
    split_and!; try done. by apply Is_true_true.
Qed.

Lemma disjoint_dirs_no_common (i o p : path) :
  ¬ i `prefix_of` o → ¬ o `prefix_of` i →
  i `prefix_of` p → o `prefix_of` p → False.
Proof.
  intros H1 H2 Hi Ho. destruct (prefix_weak_total i o p Hi Ho); done.
Qed.

(** ** The loop of [find-openings.ts] *)

Lemma attach_openings_ext (s1 s2 : fs) (c : path) :
  fs_lookup c s1 = fs_lookup c s2 →
  FindOpenings.attach_openings s1 c = FindOpenings.attach_openings s2 c.
Proof. unfold FindOpenings.attach_openings. by intros ->. Qed.

Lemma enrich_store_inv i o c label (s : fs) (src : path) (s1 : fs) :
  FindOpenings.enrich_store i o c label s src = Ok s1 →
  ∃ d games0 cat,
    fs_lookup src s = Some (DbFile d) ∧ games d = Some games0 ∧
    FindOpenings.attach_openings
      (fs_write (FindOpenings.dstDb i o src) (DbFile d) s) c = Ok cat ∧
    s1 = fs_write (FindOpenings.dstDb i o src) (enriched label cat d) s.
Proof.
  unfold FindOpenings.enrich_store, copyFileSync.
  destruct (fs_lookup src s) as [f|] eqn:Hsrc; [|done].
  change (mbind ?k (Ok ?x)) with (k x). cbv beta.
  unfold FindOpenings.duckdb. rewrite fs_lookup_write_eq.
  destruct f as [d| |]; [|done..].
  destruct (games d) as [games0|] eqn:Hg; [|done].
  destruct (FindOpenings.attach_openings _ c) as [cat|e] eqn:Hc.
  - rewrite run_sql_ok. intros [= <-]. exists d, games0, cat.
    split_and!; try done. rewrite fs_write_write. unfold enriched.
    rewrite Hg. simpl. by rewrite update_openings_classify.
  - by rewrite run_sql_err.
Qed.

Lemma enrich_loop_frame i o c label (dbs : list path) : ∀ (s s' : fs),
  for_each (FindOpenings.enrich_store i o c label) dbs s = Ok s' →
  ∀ p, (∀ db, db ∈ dbs → p ≠ FindOpenings.dstDb i o db) →
       fs_lookup p s' = fs_lookup p s.
Proof.
  induction dbs as [|db dbs IH]; intros s s'; simpl.
  - by intros [= <-].
  - destruct (FindOpenings.enrich_store i o c label s db) as [s1|e] eqn:H1;
      [|done].
    change (mbind ?k (Ok ?x)) with (k x). intros Hrest p Hp.
    rewrite (IH _ _ Hrest) by (intros db' Hdb'; apply Hp; by right).
    apply enrich_store_inv in H1 as (d & games0 & cat & _ & _ & _ & ->).
    apply fs_lookup_write_ne. intros Heq. by apply (Hp db); [left |].
Qed.

Lemma enrich_loop_content i o c label (dbs : list path) : ∀ (s s' : fs),
  (∀ db, db ∈ dbs → ¬ o `prefix_of` db) →
  (∀ db, db ∈ dbs → o `prefix_of` FindOpenings.dstDb i o db) →
  (∀ db db', db ∈ dbs → db' ∈ dbs →
     FindOpenings.dstDb i o db = FindOpenings.dstDb i o db' → db = db') →
  for_each (FindOpenings.enrich_store i o c label) dbs s = Ok s' →
  ∀ src, src ∈ dbs →
    ∃ d cat,
      fs_lookup src s = Some (DbFile d) ∧ is_Some (games d) ∧
      (¬ o `prefix_of` c → FindOpenings.attach_openings s c = Ok cat) ∧
      fs_lookup (FindOpenings.dstDb i o src) s' = Some (enriched label cat d).
Proof.
  induction dbs as [|db dbs IH]; intros s s' Hsrc Hdst Hinj; simpl.
  - intros _ src Hsrc'. by apply elem_of_nil in Hsrc'.
  - destruct (FindOpenings.enrich_store i o c label s db) as [s1|e] eqn:H1;
      [|done].
    change (mbind ?k (Ok ?x)) with (k x). intros Hrest src Hin.
    pose proof H1 as (d & games0 & cat & Hd & Hg & Hcat & Hs1)%enrich_store_inv.
    assert (∀ p, ¬ o `prefix_of` p → fs_lookup p s1 = fs_lookup p s) as Hframe.
    { intros p Hp. rewrite Hs1. apply fs_lookup_write_ne.
      intros <-. apply Hp, Hdst. by left. }
    destruct (decide (src ∈ dbs)) as [Hin'|Hnin].
    + destruct (IH s1 s') with (src := src)
        as (d' & cat' & Hd' & Hg' & Hcat' & Hl'); try done.
      * intros db' Hdb'. apply Hsrc. by right.
      * intros db' Hdb'. apply Hdst. by right.
      * intros db1 db2 H1' H2'. apply Hinj; by right.
      * exists d', cat'. split_and!; try done.
        -- rewrite <- Hd'. symmetry. apply Hframe, Hsrc. by right.
        -- intros Hc. rewrite <- (Hcat' Hc). apply attach_openings_ext.
           symmetry. by apply Hframe.
    + apply elem_of_cons in Hin as [->|Hin]; [|done].
      exists d, cat. split_and!; try done.
      * intros Hc. rewrite <- Hcat. apply attach_openings_ext. symmetry.
        apply fs_lookup_write_ne. intros <-. apply Hc, Hdst. by left.
      * rewrite (enrich_loop_frame _ _ _ _ _ _ _ Hrest).
        -- rewrite Hs1. apply fs_lookup_write_eq.
        -- intros db' Hdb' Heq. apply Hnin.
           rewrite (Hinj db db'); [done | by left | by right | done].
Qed.

Lemma find_openings_main_inv (args : FindOpenings.Args) (s s' : fs) :
  FindOpenings.main args s = Ok s' →
  ∃ i o c label,
    FindOpenings.inDir args = Some i ∧ FindOpenings.outDir args = Some o ∧
    FindOpenings.openingsDb args = Some c ∧
    FindOpenings.dataSource args = Some label ∧ label ≠ "" ∧
    listFilesByExtensionRecursively s i ".duckdb" ≠ [] ∧
    for_each (FindOpenings.enrich_store i o c label)
      (listFilesByExtensionRecursively s i ".duckdb") s = Ok s'.
Proof.
  unfold FindOpenings.main.
  destruct (FindOpenings.inDir args) as [i|]; [|done].
  destruct (FindOpenings.outDir args) as [o|]; [|done].
  destruct (FindOpenings.openingsDb args) as [c|]; [|done].
  destruct (FindOpenings.dataSource args) as [[|a label]|]; [done | | done].
  destruct (decide _); [done |]. intros H.
  exists i, o, c, (String a label). done.
Qed.

Lemma listed_store_mirror (s : fs) (i o src : path) :
  resolved o → Forall (λ e, resolved e.1) s →
  src ∈ listFilesByExtensionRecursively s i ".duckdb" →
  ∃ rel, src = i ++ rel ∧ FindOpenings.dstDb i o src = o ++ rel.
Proof.
  intros Ho Hs (f & Hin & [rel ->] & _ & _)%elem_of_listFiles.
  exists rel. split; [done |]. apply dstDb_mirror; [done |].
  rewrite Forall_forall in Hs. apply Hs in Hin. simpl in Hin.
  by apply Forall_app in Hin as [_ ?].
Qed.




(** ** The loop of [export-to-parquet.ts] *)

Lemma result_bind_Ok {A B} (k : A → result B) (x : A) : (Ok x ≫= k) = k x.
Proof. done. Qed.



Lemma for_each_cons {A S} (body : S → A → result S) x l (s : S) :
  for_each body (x :: l) s = body s x ≫= for_each body l.
Proof. done. Qed.












Section AppendRow.
Context (P : path * file → Prop) `{!∀ e, Decision (P e)}.
Context (o : path).




End AppendRow.








Lemma listFiles_inputs_only (s : fs) (i : path) (ext : string) :
  listFilesByExtensionRecursively (filter (λ e, i `prefix_of` e.1) s) i ext
  = listFilesByExtensionRecursively s i ext.
Proof.
  unfold listFilesByExtensionRecursively. f_equal.
  apply list_filter_filter_l. by intros e (? & _).
Qed.

Lemma same_inputs_listing (s1 s2 : fs) (i : path) (ext : string) :
  filter (λ e, i `prefix_of` e.1) s1 = filter (λ e, i `prefix_of` e.1) s2 →
  listFilesByExtensionRecursively s1 i ext
  = listFilesByExtensionRecursively s2 i ext.
Proof.
  intros H. rewrite <- (listFiles_inputs_only s1), <- (listFiles_inputs_only s2).
  by rewrite H.
Qed.






(** ** The partition files *)




Lemma filter_none {A} (P : A → Prop) `{!∀ x, Decision (P x)} (l : list A) :
  (∀ x, x ∈ l → ¬ P x) → filter P l = [].
Proof.
  induction l as [|x l IH]; intros Hl; [done |].
  rewrite filter_cons_False by (apply Hl; by left).
  apply IH. intros y Hy. apply Hl. by right.
Qed.






(** ** Clean-slate export *)




(** ** The rows of the consolidated output *)









(** ** Success of the enrichment run *)

Lemma enrich_loop_ok i o c label (dbs : list path) : ∀ (s : fs) cat,
  ¬ o `prefix_of` c →
  (∀ db, db ∈ dbs → ¬ o `prefix_of` db) →
  (∀ db, db ∈ dbs → o `prefix_of` FindOpenings.dstDb i o db) →
  FindOpenings.attach_openings s c = Ok cat →
  (∀ db, db ∈ dbs → ∃ d, fs_lookup db s = Some (DbFile d) ∧ is_Some (games d)) →
  ∃ s', for_each (FindOpenings.enrich_store i o c label) dbs s = Ok s'.
Proof.
  induction dbs as [|db dbs IH]; intros s cat Hc Hsrc Hdst Hcat Hdbs.
  - by exists s.
  - destruct (Hdbs db) as (d & Hd & [games0 Hg]); [by left |].
    assert (FindOpenings.enrich_store i o c label s db
            = Ok (fs_write (FindOpenings.dstDb i o db) (enriched label cat d) s))
      as Hstep.
    { unfold FindOpenings.enrich_store, copyFileSync. rewrite Hd.
      rewrite result_bind_Ok. unfold FindOpenings.duckdb.
      rewrite fs_lookup_write_eq, Hg.
      rewrite (attach_openings_ext _ s c), Hcat.
      2:{ apply fs_lookup_write_ne. intros <-. apply Hc, Hdst. by left. }
      rewrite run_sql_ok, result_bind_Ok, fs_write_write.
      unfold enriched. rewrite Hg. simpl. by rewrite update_openings_classify. }
    rewrite for_each_cons, Hstep, result_bind_Ok.
    apply (IH _ cat).
    + done.
    + intros db' Hdb'. apply Hsrc. by right.
    + intros db' Hdb'. apply Hdst. by right.
    + rewrite <- Hcat. apply attach_openings_ext, fs_lookup_write_ne.
      intros <-. apply Hc, Hdst. by left.
    + intros db' Hdb'. destruct (Hdbs db') as (d' & Hd' & Hg'); [by right |].
      exists d'. split; [|done]. rewrite <- Hd'. apply fs_lookup_write_ne.
      intros Heq. apply (Hsrc db'); [by right |].
      rewrite <- Heq. apply Hdst. by left.
Qed.




(** ** Running the enrichment twice *)

Lemma enrich_loop_inputs_kept i o c label (dbs : list path) : ∀ (s s' : fs),
  (∀ db, db ∈ dbs → ¬ i `prefix_of` FindOpenings.dstDb i o db) →
  for_each (FindOpenings.enrich_store i o c label) dbs s = Ok s' →
  filter (λ e, i `prefix_of` e.1) s' = filter (λ e, i `prefix_of` e.1) s.
Proof.
  induction dbs as [|db dbs IH]; intros s s' Hdst.
  - by intros [= <-].
  - rewrite for_each_cons.
    destruct (FindOpenings.enrich_store i o c label s db) as [s1|e] eqn:H1;
      [|done].
    rewrite result_bind_Ok. intros Hrest.
    rewrite (IH s1 s') by (try done; intros db' Hdb'; apply Hdst; by right).
    apply enrich_store_inv in H1 as (d & games0 & cat & _ & _ & _ & ->).
    apply filter_fs_write_out. intros g. apply Hdst. by left.
Qed.

(** A second run of the script after a successful one succeeds and leaves
    at every destination the store that the first run left there. *)
Lemma find_openings_twice
    (args : FindOpenings.Args) (i o c : path) (s s' : fs) :
  FindOpenings.inDir args = Some i →
  FindOpenings.outDir args = Some o →
  FindOpenings.openingsDb args = Some c →
  resolved o →
  Forall (λ e, resolved e.1) s →
  ¬ i `prefix_of` o → ¬ o `prefix_of` i → ¬ o `prefix_of` c →
  FindOpenings.main args s = Ok s' →
  ∃ s'',
    FindOpenings.main args s' = Ok s'' ∧
    ∀ db, db ∈ listFilesByExtensionRecursively s i ".duckdb" →
          fs_lookup (FindOpenings.dstDb i o db) s''
          = fs_lookup (FindOpenings.dstDb i o db) s'.
Proof.
  intros Hi Ho Hc Hro Hrs Hio Hoi Hoc Hmain.
  apply find_openings_main_inv in Hmain
    as (i' & o' & c' & label & Hi' & Ho' & Hc' & Hl & Hne & Hdbs & Hloop).
  rewrite Hi in Hi'. rewrite Ho in Ho'. rewrite Hc in Hc'.
  injection Hi' as <-. injection Ho' as <-. injection Hc' as <-.
  set (dbs := listFilesByExtensionRecursively s i ".duckdb") in *.
  assert (∀ db, db ∈ dbs → o `prefix_of` FindOpenings.dstDb i o db) as Hdst.
  { intros db (rel & -> & ->)%(listed_store_mirror s i o); [|done..].
    by apply prefix_app_r. }
  assert (∀ db, db ∈ dbs → ¬ o `prefix_of` db) as Hsrc.
  { intros db (rel & -> & _)%(listed_store_mirror s i o) Hp; [|done..].
    eapply (disjoint_dirs_no_common i o); [done.. | by apply prefix_app_r | done]. }
  assert (∀ db db', db ∈ dbs → db' ∈ dbs →
            FindOpenings.dstDb i o db = FindOpenings.dstDb i o db' → db = db')
    as Hinj.
  { intros db1 db2 (r & -> & Hr)%(listed_store_mirror s i o)
      (r' & -> & Hr')%(listed_store_mirror s i o); [|done..].
    rewrite Hr, Hr'. by intros ->%app_inv_head. }
  assert (∀ p, ¬ o `prefix_of` p → fs_lookup p s' = fs_lookup p s) as Hframe.
  { intros p Hp. apply (enrich_loop_frame _ _ _ _ _ _ _ Hloop).
    intros db Hdb ->. by apply Hp, Hdst. }
  assert (listFilesByExtensionRecursively s' i ".duckdb" = dbs) as Hlist.
  { apply same_inputs_listing.
    apply (enrich_loop_inputs_kept i o c label dbs s s'); [|done].
    intros db Hdb Hp.
    by apply (disjoint_dirs_no_common i o (FindOpenings.dstDb i o db));
      [..| apply Hdst]. }
  pose proof (enrich_loop_content i o c label dbs s s' Hsrc Hdst Hinj Hloop)
    as Hfirst.
  assert (∃ cat, FindOpenings.attach_openings s c = Ok cat) as [cat Hcat].
  { destruct dbs as [|db dbs'] eqn:Hd; [done |].
    destruct (Hfirst db) as (d & cat & _ & _ & Hcat & _); [by left |].
    exists cat. by apply Hcat. }
  destruct (enrich_loop_ok i o c label dbs s' cat) as [s'' Hloop'];
    try done.
  { rewrite <- Hcat. apply attach_openings_ext. by apply Hframe. }
  { intros db Hdb. destruct (Hfirst db Hdb) as (d & _ & Hd & Hg & _).
    exists d. split; [|done]. rewrite <- Hd. by apply Hframe, Hsrc. }
  exists s''. split.
  - unfold FindOpenings.main. rewrite Hi, Ho, Hc, Hl.
    destruct label as [|a label]; [done |]. rewrite Hlist.
    by rewrite decide_False.
  - intros db Hdb.
    destruct (Hfirst db Hdb) as (d & cat1 & Hd & _ & Hcat1 & ->).
    destruct (enrich_loop_content i o c label dbs s' s'' Hsrc Hdst Hinj Hloop'
                db Hdb) as (d2 & cat2 & Hd2 & _ & Hcat2 & ->).
    rewrite (Hframe db) in Hd2 by (by apply Hsrc).
    rewrite Hd in Hd2. injection Hd2 as <-.
    specialize (Hcat1 Hoc). specialize (Hcat2 Hoc).
    rewrite (attach_openings_ext s' s c) in Hcat2 by (by apply Hframe).
    rewrite Hcat1 in Hcat2. by injection Hcat2 as <-.
Qed.

(** C4.  The classification touches a row only when its [Opening] is
    [NULL]: a row that has an [Opening] is left as it is; running the
    script a second time on its own result, with the same catalogue and
    label, gives that result again; and a second run of the whole
    enrichment, for input and output directories that do not overlap,
    leaves every enriched store as the first run left it. *)
Theorem classification_is_idempotent
    (label : string) (catalogue : result (list O.t)) (games : list G.t) :
  (∀ openings g, G.Opening g ≠ None →
     applied_entry openings g = None ∧ classify openings g = g) ∧
  (∀ openings i g, games !! i = Some g → G.Opening g ≠ None →
     update_openings openings games !! i = Some g) ∧
  (FindOpenings.run_sql label catalogue games
     ≫= FindOpenings.run_sql label catalogue)
  = FindOpenings.run_sql label catalogue games ∧
  (∀ (args : FindOpenings.Args) (i o c : path) (s s' : fs),
     FindOpenings.inDir args = Some i →
     FindOpenings.outDir args = Some o →
     FindOpenings.openingsDb args = Some c →
     resolved o →
     Forall (λ e, resolved e.1) s →
     ¬ i `prefix_of` o → ¬ o `prefix_of` i → ¬ o `prefix_of` c →
     FindOpenings.main args s = Ok s' →
     ∃ s'',
       FindOpenings.main args s' = Ok s'' ∧
       ∀ db, db ∈ listFilesByExtensionRecursively s i ".duckdb" →
             fs_lookup (FindOpenings.dstDb i o db) s''
             = fs_lookup (FindOpenings.dstDb i o db) s').
Proof.
  split_and!.
  - intros openings g H. split; [|by apply classify_classified].
    unfold applied_entry. by rewrite decide_False.
  - intros openings i g Hi H.
    rewrite update_openings_classify, list_lookup_fmap, Hi. simpl.
    by rewrite classify_classified.
  - destruct catalogue as [openings|e].
    + rewrite run_sql_ok, result_bind_Ok, run_sql_ok. f_equal.
      rewrite <- !list_fmap_compose.
      apply list_fmap_ext. intros _ g _. unfold compose.
      by rewrite !classify_set_DataSource, set_DataSource_idemp, classify_idemp.
    + by rewrite run_sql_err.
  - apply find_openings_twice.
Qed.

Lemma classification_is_idempotent_witness :
  (classify [open_game]
     (sample_game (Some "1. e4 e5") (Some "Sicilian Defense") None None None)
   = sample_game (Some "1. e4 e5") (Some "Sicilian Defense") None None None) ∧
  ∃ s' s'',
    FindOpenings.main sample_find_openings_args sample_fs = Ok s' ∧
    FindOpenings.main sample_find_openings_args s' = Ok s'' ∧
    fs_lookup ["out"; "lichess"; "2020.duckdb"] s''
    = fs_lookup ["out"; "lichess"; "2020.duckdb"] s'.
Proof.
  destruct (classification_is_idempotent "lichess" (Ok [open_game]) [])
    as (Hrow & _ & _ & Hrun).
  split; [by apply Hrow |].
  eexists. 
  edestruct (Hrun sample_find_openings_args ["in"] ["out"]
               ["ref"; "openings.duckdb"] sample_fs) as (s'' & Hsecond & Hsame);
    [ reflexivity | reflexivity | reflexivity
    | repeat constructor; discriminate
    | repeat constructor; discriminate
    | compute_done | compute_done | compute_done
    | vm_compute; reflexivity
    | ].
  exists s''. split_and!; [reflexivity | exact Hsecond |].
  apply (Hsame ["in"; "lichess"; "2020.duckdb"]). compute_done.
Defined.

(** * Further properties of the scripts *)

(** ** When the enrichment run succeeds *)





(** ** When the export succeeds *)










(** ** What the enrichment leaves alone *)

Lemma classify_shape (catalogue : list O.t) (g : G.t) :
  ∃ e n, classify catalogue g = G.set_opening e n g ∧
         (G.Opening g ≠ None → e = G.ECO g ∧ n = G.Opening g).
Proof.
  unfold classify, applied_entry.
  destruct (decide (G.Opening g = None)) as [Hnull|Hset].
  - destruct (head (lateral catalogue g)) as [[k o]|]; simpl.
    + by exists (O.eco o), (O.name o).
    + exists (G.ECO g), (G.Opening g). split; [by destruct g | done].
  - exists (G.ECO g), (G.Opening g). split; [by destruct g | done].
Qed.

(** X3.  The script on a store always succeeds once the catalogue is
    attached, and it neither adds, drops nor reorders rows: row [k] of the
    result is row [k] of the input with [DataSource] set to the label and
    possibly other [ECO] and [Opening], every other column as it was; and
    [ECO] and [Opening] are as they were when the row had an [Opening]. *)
Theorem enrichment_keeps_rows
    (label : string) (catalogue : list O.t) (games0 : list G.t) :
  ∃ games',
    FindOpenings.run_sql label (Ok catalogue) games0 = Ok games' ∧
    length games' = length games0 ∧
    ∀ k g, games0 !! k = Some g →
      ∃ e n,
        games' !! k
        = Some (G.set_opening e n (G.set_DataSource (Some label) g)) ∧
        (G.Opening g ≠ None → e = G.ECO g ∧ n = G.Opening g).
Proof.
  eexists. split; [apply run_sql_ok |]. split.
  - by rewrite !length_fmap.
  - intros k g Hk. destruct (classify_shape catalogue g) as (e & n & He & Hset).
    exists e, n. split; [|done].
    rewrite !list_lookup_fmap, Hk. simpl.
    by rewrite classify_set_DataSource, He.
Qed.

(** ** Longer games and reordered catalogues *)

Lemma string_app_assoc (a b c : string) : (a +:+ b) +:+ c = a +:+ (b +:+ c).
Proof. induction a as [|x a IH]; simpl; [done | by rewrite IH]. Qed.

Lemma string_app_nil_r (a : string) : a +:+ "" = a.
Proof. induction a as [|x a IH]; simpl; [done | by rewrite IH]. Qed.

Lemma occurs_in_app_r (needle haystack suffix : string) :
  Str.occurs_in needle haystack → Str.occurs_in needle (haystack +:+ suffix).
Proof.
  intros (before & after & ->). exists before, (after +:+ suffix).
  by rewrite !string_app_assoc.
Qed.

Lemma ply_ge_antisym (a b : option nat) :
  ply_ge a b = true → ply_ge b a = true → a = b.
Proof.
  destruct a, b; simpl; try done.
  rewrite !Nat.leb_le. intros. f_equal. lia.
Qed.

(** X4.  Adding moves to a game never loses a match: every catalogue entry
    that matched the shorter clean movetext matches the longer one, so an
    unclassified game that was given an entry is given an entry of at least
    that ply. *)
Theorem longer_game_is_classified_deeper
    (catalogue : list O.t) (g : G.t) (m more : string) (e : O.t) :
  G.clean_movetext g = Some m →
  applied_entry catalogue g = Some e →
  (∀ o, matches g o = true →
        matches (with_clean_movetext (Some (m +:+ more)) g) o = true) ∧
  ∃ e', applied_entry catalogue (with_clean_movetext (Some (m +:+ more)) g)
        = Some e' ∧
        ply_ge (opening_ply e') (opening_ply e) = true.
Proof.
  intros Hm He.
  set (g' := with_clean_movetext (Some (m +:+ more)) g).
  assert (∀ o, matches g o = true → matches g' o = true) as Hmono.
  { intros o (m0 & p & Hm0 & Hp & Hocc)%matches_spec.
    rewrite Hm in Hm0. injection Hm0 as <-.
    apply matches_spec. exists (m +:+ more), p.
    split_and!; [done | done | by apply occurs_in_app_r]. }
  split; [done |].
  assert (G.Opening g = None) as Hnull.
  { unfold applied_entry in He. by destruct (decide (G.Opening g = None)). }
  pose proof (applied_entry_spec catalogue g Hnull) as H.
  rewrite He in H. destruct H as (_ & Hin & Hmatch & _).
  pose proof (applied_entry_spec catalogue g' Hnull) as H'.
  destruct (applied_entry catalogue g') as [e'|].
  - exists e'. split; [done |]. destruct H' as (_ & _ & _ & Hmax).
    apply Hmax; [done | by apply Hmono].
  - destruct H' as [_ Hno]. specialize (Hmono e Hmatch).
    by rewrite (Hno e Hin) in Hmono.
Qed.

Lemma longer_game_is_classified_deeper_witness :
  ∃ e', applied_entry sample_catalogue
          (with_clean_movetext (Some ("1. e4 e5" +:+ " 2. Nf3 Nc6 3. Bc4"))
             (sample_game (Some "1. e4 e5") None None None None))
        = Some e' ∧
        ply_ge (opening_ply e') (opening_ply open_game) = true.
Proof.
  apply (longer_game_is_classified_deeper sample_catalogue
           (sample_game (Some "1. e4 e5") None None None None)
           "1. e4 e5" " 2. Nf3 Nc6 3. Bc4" open_game); reflexivity.
Defined.

(** X5.  The order of the catalogue matters only among matching entries of
    the same greatest ply: for two catalogues with the same entries, a game
    is given an entry under one exactly when it is under the other, the two
    entries have the same ply, and they are the same entry when no other
    matching entry has that ply. *)
Theorem catalogue_order_matters_only_for_ties
    (catalogue1 catalogue2 : list O.t) (g : G.t) :
  catalogue1 ≡ₚ catalogue2 →
  (applied_entry catalogue1 g = None ↔ applied_entry catalogue2 g = None) ∧
  ∀ e1 e2,
    applied_entry catalogue1 g = Some e1 →
    applied_entry catalogue2 g = Some e2 →
    opening_ply e1 = opening_ply e2 ∧
    ((∀ o, o ∈ catalogue1 → matches g o = true →
           opening_ply o = opening_ply e1 → o = e1) →
     e2 = e1).
Proof.
  intros Hperm.
  destruct (decide (G.Opening g = None)) as [Hnull|Hset].
  2:{ unfold applied_entry. rewrite !decide_False by done. done. }
  pose proof (applied_entry_spec catalogue1 g Hnull) as H1.
  pose proof (applied_entry_spec catalogue2 g Hnull) as H2.
  split.
  - destruct (applied_entry catalogue1 g) as [e1|],
      (applied_entry catalogue2 g) as [e2|]; try done.
    + destruct H1 as (_ & Hin & Hm & _), H2 as [_ Hno].
      rewrite Hperm in Hin. by rewrite (Hno e1 Hin) in Hm.
    + destruct H2 as (_ & Hin & Hm & _), H1 as [_ Hno].
      rewrite <- Hperm in Hin. by rewrite (Hno e2 Hin) in Hm.
  - intros e1 e2 He1 He2. rewrite He1 in H1. rewrite He2 in H2.
    destruct H1 as (_ & Hin1 & Hm1 & Hmax1), H2 as (_ & Hin2 & Hm2 & Hmax2).
    assert (opening_ply e1 = opening_ply e2) as Hply.
    { apply ply_ge_antisym.
      - apply Hmax1; [by rewrite Hperm | done].
      - apply Hmax2; [by rewrite <- Hperm | done]. }
    split; [done |]. intros Huniq.
    apply Huniq; [by rewrite Hperm | done | done].
Qed.

Lemma catalogue_order_matters_only_for_ties_witness :
  applied_entry [open_game; italian_game; kings_knight]
    (sample_game (Some "1. e4 e5 2. Nf3 Nc6") None None None None) = None ↔
  applied_entry [kings_knight; open_game; italian_game]
    (sample_game (Some "1. e4 e5 2. Nf3 Nc6") None None None None) = None.
Proof.
  apply (catalogue_order_matters_only_for_ties
           [open_game; italian_game; kings_knight]
           [kings_knight; open_game; italian_game]).
  symmetry. apply (Permutation_cons_append [open_game; italian_game] kings_knight).
Defined.

(** ** What the export writes and what it leaves alone *)









(** ** [sqlPath] *)

Lemma replaceAll_removes (c r : ascii) (s : string) :
  c ≠ r → Str.count_char c (Str.replaceAll c (String r "") s) = 0.
Proof.
  intros Hne. induction s as [|a s IH]; simpl; [done |].
  destruct (Ascii.eqb a c) eqn:Ha; simpl.
  - rewrite IH. by rewrite (proj2 (Ascii.eqb_neq r c)) by done.
  - by rewrite Ha, IH.
Qed.

Lemma replaceAll_absent (c : ascii) (r : string) (s : string) :
  Str.count_char c s = 0 → Str.replaceAll c r s = s.
Proof.
  induction s as [|a s IH]; simpl; [done |].
  destruct (Ascii.eqb a c); simpl; [done |]. intros H. by rewrite IH.
Qed.

(** X8.  A path put into SQL text through [sqlPath] is read back by the SQL
    lexer as that path with every backslash turned into a slash: quotes in
    the path do not end the literal, no backslash is left, and a path
    without backslashes is read back as it is. *)
Theorem sqlPath_reads_back (p : string) :
  sql_literal ("'" +:+ sqlPath p +:+ "'")
  = Some (Str.replaceAll "\" "/" p, "") ∧
  Str.count_char "\" (Str.replaceAll "\" "/" p) = 0 ∧
  (Str.count_char "\" p = 0 →
   sql_literal ("'" +:+ sqlPath p +:+ "'") = Some (p, "")).
Proof.
  assert (sql_literal ("'" +:+ sqlPath p +:+ "'")
          = Some (Str.replaceAll "\" "/" p, "")) as Hread.
  { unfold sqlPath.
    change ("'" +:+ sqlStringLiteral (Str.replaceAll "\" "/" p) +:+ "'")
      with (String quote (sqlStringLiteral (Str.replaceAll "\" "/" p)
                          +:+ String quote "")).
    by apply sql_literal_escape. }
  split_and!.
  - done.
  - by apply replaceAll_removes.
  - intros H. by rewrite Hread, replaceAll_absent.
Qed.

Lemma sqlPath_reads_back_witness :
  sql_literal ("'" +:+ sqlPath "data/o'brien/2020.duckdb" +:+ "'")
  = Some ("data/o'brien/2020.duckdb", "").
Proof.
  apply (sqlPath_reads_back "data/o'brien/2020.duckdb"). reflexivity.
Defined.

(** ** The listing *)

Lemma rev_app_spec (s1 s2 : string) :
  String.rev_app s1 s2 = String.rev s1 +:+ s2.
Proof.
  unfold String.rev. revert s2.
  induction s1 as [|a s1 IH]; intros s2; simpl; [done |].
  rewrite (IH (String a s2)), (IH (String a "")).
  by rewrite string_app_assoc.
Qed.

Lemma rev_cons (a : ascii) (s : string) :
  String.rev (String a s) = String.rev s +:+ String a "".
Proof. unfold String.rev at 1. simpl. by rewrite rev_app_spec. Qed.

Lemma rev_app (s1 s2 : string) :
  String.rev (s1 +:+ s2) = String.rev s2 +:+ String.rev s1.
Proof.
  induction s1 as [|a s1 IH]; simpl.
  - by rewrite string_app_nil_r.
  - by rewrite !rev_cons, IH, string_app_assoc.
Qed.








(** ** [escapeRegExp] and [outputStemFromRelativePath] *)

Lemma escapeRegExp_literal (s : string) :
  literal_pattern (escapeRegExp s) = true ∧ pattern_text (escapeRegExp s) = s.
Proof.
  induction s as [|a s [IH1 IH2]]; [done |].
  cbn [escapeRegExp]. destruct (syntax_character a) eqn:Ha.
  - cbn [literal_pattern pattern_text]. change (Ascii.eqb "\" "\") with true.
    cbv iota. by rewrite Ha, IH1, IH2.
  - cbn [literal_pattern pattern_text].
    destruct (Ascii.eqb_spec a "\") as [->|_]; [done |].
    by rewrite Ha, IH1, IH2.
Qed.

Lemma to_lower_to_upper (a : ascii) : Str.to_lower (to_upper a) = Str.to_lower a.
Proof. by destruct a as [[] [] [] [] [] [] [] []]. Qed.

Lemma to_upper_to_lower (a : ascii) : to_upper (Str.to_lower a) = to_upper a.
Proof. by destruct a as [[] [] [] [] [] [] [] []]. Qed.

Lemma to_upper_eq (a b : ascii) :
  to_upper a = to_upper b ↔ Str.to_lower a = Str.to_lower b.
Proof.
  split; intros H.
  - by rewrite <- (to_lower_to_upper a), H, to_lower_to_upper.
  - by rewrite <- (to_upper_to_lower a), H, to_upper_to_lower.
Qed.

Lemma matches_to_end_spec (text s : string) :
  matches_to_end text s = true ↔ Str.toLowerCase text = Str.toLowerCase s.
Proof.
  revert s. induction text as [|a text IH]; intros [|b s]; simpl; try done.
  rewrite andb_true_iff, IH.
  destruct (Ascii.eqb_spec (to_upper a) (to_upper b)) as [Hab|Hab].
  - apply to_upper_eq in Hab. rewrite Hab. split; [by intros [_ ->] |].
    by intros [= ->].
  - split; [by intros [? _] |]. intros [= Hab' _]. by apply to_upper_eq in Hab'.
Qed.

Lemma length_toLowerCase (s : string) :
  String.length (Str.toLowerCase s) = String.length s.
Proof. induction s as [|a s IH]; simpl; [done | by rewrite IH]. Qed.

Lemma string_length_app (s1 s2 : string) :
  String.length (s1 +:+ s2) = String.length s1 + String.length s2.
Proof. induction s1 as [|a s1 IH]; simpl; [done | by rewrite IH]. Qed.

Lemma matches_to_end_length (text s : string) :
  matches_to_end text s = true → String.length text = String.length s.
Proof.
  intros H%matches_to_end_spec.
  by rewrite <- (length_toLowerCase text), H, length_toLowerCase.
Qed.

Lemma replace_at_end_eq (text s : string) :
  replace_at_end text s
  = if matches_to_end text s then ""
    else match s with
         | "" => ""
         | String a s' => String a (replace_at_end text s')
         end.
Proof. by destruct s. Qed.

Lemma replace_at_end_strip (text pre e : string) :
  matches_to_end text e = true → replace_at_end text (pre +:+ e) = pre.
Proof.
  intros He. induction pre as [|a pre IH].
  - simpl. rewrite replace_at_end_eq. by rewrite He.
  - rewrite replace_at_end_eq.
    destruct (matches_to_end text (String a pre +:+ e)) eqn:Hm.
    + apply matches_to_end_length in Hm, He.
      rewrite string_length_app in Hm. simpl in Hm. lia.
    + simpl. by rewrite IH.
Qed.

Lemma replace_at_end_none (text s : string) :
  (∀ pre e, s = pre +:+ e → matches_to_end text e = false) →
  replace_at_end text s = s.
Proof.
  induction s as [|a s IH]; intros H.
  - rewrite replace_at_end_eq. by rewrite (H "" "").
  - rewrite replace_at_end_eq. rewrite (H "" (String a s)) by done.
    rewrite IH; [done |]. intros pre e ->. by apply (H (String a pre)).
Qed.

Lemma replace_separators_app (s1 s2 : string) :
  replace_separators (s1 +:+ s2)
  = replace_separators s1 +:+ replace_separators s2.
Proof.
  induction s1 as [|a s1 IH]; simpl; [done |].
  destruct (Ascii.eqb a "\" || Ascii.eqb a "/"); simpl; by rewrite IH.
Qed.

Lemma replace_separators_count (s : string) :
  Str.count_char "/" (replace_separators s) = 0 ∧
  Str.count_char "\" (replace_separators s) = 0.
Proof.
  induction s as [|a s [IH1 IH2]]; simpl; [done |].
  destruct (Ascii.eqb a "\") eqn:H1; simpl; [done |].
  destruct (Ascii.eqb a "/") eqn:H2; simpl; [done |].
  by rewrite H1, H2.
Qed.

Lemma replace_separators_id (s : string) :
  Str.count_char "/" s = 0 → Str.count_char "\" s = 0 →
  replace_separators s = s.
Proof.
  induction s as [|a s IH]; simpl; [done |].
  destruct (Ascii.eqb a "\"), (Ascii.eqb a "/"); simpl; try done.
  intros ??. by rewrite IH.
Qed.

Lemma replace_separators_sep (pf : platform) :
  replace_separators (sep pf) = "__".
Proof. by destruct pf. Qed.

Lemma replace_separators_concat (pf : platform) (segs : list string) :
  Forall (λ seg, Str.count_char "/" seg = 0 ∧ Str.count_char "\" seg = 0) segs →
  replace_separators (path_string pf segs) = String.concat "__" segs.
Proof.
  unfold path_string. induction 1 as [|seg segs [H1 H2] Hsegs IH]; [done |].
  destruct segs as [|seg' segs].
  - simpl. by apply replace_separators_id.
  - cbn [String.concat] in *.
    rewrite !replace_separators_app, IH, replace_separators_sep.
    by rewrite replace_separators_id.
Qed.

Lemma concat_snoc_app (sp : string) (l : list string) (x y : string) :
  String.concat sp (l ++ [x +:+ y]) = String.concat sp (l ++ [x]) +:+ y.
Proof.
  induction l as [|z l IH]; [done |].
  change ((z :: l) ++ [x +:+ y]) with (z :: (l ++ [x +:+ y])).
  change ((z :: l) ++ [x]) with (z :: (l ++ [x])).
  destruct l as [|z' l].
  - simpl. by rewrite !string_app_assoc.
  - cbn [app String.concat] in *. rewrite IH. by rewrite !string_app_assoc.
Qed.

Lemma is_sep_count (pf : platform) (a : ascii) :
  is_sep pf a = true → Ascii.eqb a "/" = true ∨ Ascii.eqb a "\" = true.
Proof.
  unfold is_sep. destruct pf, (Ascii.eqb a "/"), (Ascii.eqb a "\"); simpl; tauto.
Qed.

Lemma split_path_single (pf : platform) (s : string) :
  Str.count_char "/" s = 0 → Str.count_char "\" s = 0 → split_path pf s = [s].
Proof.
  induction s as [|a s IH]; simpl; [done |]. intros H1 H2.
  destruct (is_sep pf a) eqn:Ha.
  - apply is_sep_count in Ha as [Ha|Ha]; rewrite Ha in *; done.
  - rewrite IH; [done | |].
    + by destruct (Ascii.eqb a "/").
    + by destruct (Ascii.eqb a "\").
Qed.

Lemma count_char_app (c : ascii) (s1 s2 : string) :
  Str.count_char c (s1 +:+ s2) = Str.count_char c s1 + Str.count_char c s2.
Proof. induction s1 as [|a s1 IH]; simpl; [done | rewrite IH; lia]. Qed.

Lemma plain_segment_ext (x : string) : plain_segment (x +:+ ".duckdb").
Proof.
  assert (∀ y, String.length y < 7 → x +:+ ".duckdb" ≠ y) as H.
  { intros y Hy Heq. rewrite <- Heq, string_length_app in Hy. simpl in Hy. lia. }
  split_and!; apply H; simpl; lia.
Qed.

(** X10.  [escapeRegExp] makes a pattern of any string: the result has no
    syntax left but escaped characters, and the text it stands for is the
    string itself; so the pattern that [outputStemFromRelativePath] builds
    from an extension matches exactly the texts that are the extension up
    to the case of letters. *)
Theorem escapeRegExp_reads_back (s : string) :
  literal_pattern (escapeRegExp s) = true ∧
  pattern_text (escapeRegExp s) = s ∧
  ∀ t, matches_to_end (pattern_text (escapeRegExp s)) t = true ↔
       Str.toLowerCase t = Str.toLowerCase s.
Proof.
  destruct (escapeRegExp_literal s) as [H1 H2]. split_and!; [done | done |].
  intros t. rewrite H2, matches_to_end_spec. split; by intros ->.
Qed.

(** X11.  The stem that [outputStemFromRelativePath] gives has no slash and
    no backslash, on either platform, so the store that [read-pgn.ts] names
    after it lies directly in the output directory, however deep the PGN
    file is below the input directory.  For a file [rootDir/dirs/base.ext],
    the extension in any case of letters, the stem is the segments of
    [dirs] and [base] with [__] between them; a file whose name does not
    end with the extension keeps its whole name. *)
Theorem stem_is_flat (pf : platform) (rootDir filePath : path)
    (stripExtLower : string) :
  let stem := outputStemFromRelativePath pf rootDir filePath stripExtLower in
  (Str.count_char "/" stem = 0 ∧ Str.count_char "\" stem = 0) ∧
  (∀ outDir, resolved outDir →
     join outDir (split_path pf (stem +:+ ".duckdb"))
     = outDir ++ [stem +:+ ".duckdb"]) ∧
  (∀ dirs base e,
     filePath = rootDir ++ dirs ++ [base +:+ e] →
     Forall (λ seg, Str.count_char "/" seg = 0 ∧ Str.count_char "\" seg = 0)
       (dirs ++ [base]) →
     Str.toLowerCase e = Str.toLowerCase stripExtLower →
     stem = String.concat "__" (dirs ++ [base])) ∧
  (∀ segs,
     filePath = rootDir ++ segs →
     Forall (λ seg, Str.count_char "/" seg = 0 ∧ Str.count_char "\" seg = 0)
       segs →
     (∀ pre e, path_string pf segs = pre +:+ e →
               Str.toLowerCase e ≠ Str.toLowerCase stripExtLower) →
     stem = String.concat "__" segs).
Proof.
  intros stem. unfold stem, outputStemFromRelativePath.
  destruct (escapeRegExp_literal stripExtLower) as [_ ->].
  split; [apply replace_separators_count |]. split_and!.
  - intros outDir Ho.
    destruct (replace_separators_count
                (replace_at_end stripExtLower
                   (path_string pf (relative rootDir filePath)))) as [H1 H2].
    rewrite split_path_single.
    + apply join_resolved; [done |]. apply Forall_singleton, plain_segment_ext.
    + rewrite count_char_app, H1. done.
    + rewrite count_char_app, H2. done.
  - intros dirs base e -> Hsegs He. rewrite relative_app.
    unfold path_string. rewrite concat_snoc_app, replace_at_end_strip.
    + by apply (replace_separators_concat pf).
    + by apply matches_to_end_spec.
  - intros segs -> Hsegs Hno. rewrite relative_app, replace_at_end_none.
    + by apply replace_separators_concat.
    + intros pre e Heq.
      destruct (matches_to_end stripExtLower e) eqn:Hm; [|done].
      apply matches_to_end_spec in Hm. by destruct (Hno pre e Heq).
Qed.

(** ** The loop of [read-pgn.ts] *)

Lemma fs_write_same (q : path) (f : file) (s : fs) :
  fs_lookup q s = Some f → fs_write q f s = s.
Proof.
  induction s as [|[r g] s IH]; simpl; [done |].
  destruct (decide (r = q)) as [->|Hne]; [by intros [= ->] |].
  intros H. by rewrite IH.
Qed.

Lemma fs_write_keys (q : path) (f : file) (s : fs) :
  (fs_write q f s).*1
  = if fs_lookup q s is Some _ then s.*1 else s.*1 ++ [q].
Proof.
  induction s as [|[r g] s IH]; [done |]. cbn [fs_write fs_lookup].
  destruct (decide (r = q)) as [->|Hne]; [done |].
  rewrite !fmap_cons, IH. by destruct (fs_lookup q s).
Qed.

Lemma open_or_create_Ok (s : fs) (q : path) (d : database) :
  ExportToParquet.open_or_create s q = Ok d ↔
  fs_lookup q s = Some (DbFile d) ∨
  (fs_lookup q s = None ∧ d = Database None None None).
Proof.
  unfold ExportToParquet.open_or_create.
  destruct (fs_lookup q s) as [[d0| |]|]; split;
    try (by intros [= <-]; auto); try (by intros [[= ->]|[? _]]);
    try (by intros [?|[? ?]]).
  by intros [?|[_ ->]].
Qed.

Lemma store_has_games (s : fs) (q : path) :
  (∃ d, fs_lookup q s = Some (DbFile d) ∧ is_Some (games d)) ∨
  ¬ (∃ d, fs_lookup q s = Some (DbFile d) ∧ is_Some (games d)).
Proof.
  destruct (fs_lookup q s) as [[d| |]|]; try (by right; intros (? & ? & _)).
  destruct (games d) as [old|] eqn:Hg.
  - left. exists d. by rewrite Hg.
  - right. intros (d' & [= <-] & [? Hg']). by rewrite Hg in Hg'.
Qed.

Section ReadPgnLoop.

Context (pf : platform) (read_pgn : path → option (list R.t)).
Context (chess_moves_normalize : option string → option string).
Context (i o : path).

#[local] Abbreviation outDb := (ReadPgn.outDb pf i o).
#[local] Abbreviation readOnePgn :=
  (ReadPgn.readOnePgn pf read_pgn chess_moves_normalize i o).
#[local] Abbreviation loaded rows d :=
  (Database (Some (ReadPgn.select chess_moves_normalize <$> rows))
     (openings d) (combined d)).

Lemma readOnePgn_inv (s s1 : fs) (p : path) :
  readOnePgn s p = Ok s1 →
  is_Some (fs_lookup p s) ∧ is_Some (read_pgn p) ∧
  ((∃ d, fs_lookup (outDb p) s = Some (DbFile d) ∧ is_Some (games d) ∧ s1 = s) ∨
   (∃ rows d, read_pgn p = Some rows ∧
              ExportToParquet.open_or_create s (outDb p) = Ok d ∧
              games d = None ∧
              s1 = fs_write (outDb p) (DbFile (loaded rows d)) s)).
Proof.
  unfold ReadPgn.readOnePgn.
  destruct (ExportToParquet.open_or_create s (outDb p)) as [d|e] eqn:Hd; [|done].
  rewrite result_bind_Ok. unfold ReadPgn.create_games.
  destruct (fs_lookup p s) as [f|]; [|done].
  destruct (read_pgn p) as [rows|]; [|done].
  intros H. split; [done |]. split; [done |].
  destruct (games d) as [old|] eqn:Hg.
  - rewrite ?result_bind_Ok in H. injection H as <-. left. exists d.
    apply open_or_create_Ok in Hd as [Hd|[_ ->]]; [|done].
    split_and!; [done | by rewrite Hg | by apply fs_write_same].
  - rewrite ?result_bind_Ok in H. injection H as <-. right. by exists rows, d.
Qed.

Lemma readOnePgn_kept (s : fs) (p : path) (d : database) :
  is_Some (fs_lookup p s) → is_Some (read_pgn p) →
  fs_lookup (outDb p) s = Some (DbFile d) → is_Some (games d) →
  readOnePgn s p = Ok s.
Proof.
  intros [f Hf] [rows Hrows] Hd [old Hg]. unfold ReadPgn.readOnePgn.
  unfold ExportToParquet.open_or_create. rewrite Hd, result_bind_Ok.
  unfold ReadPgn.create_games. rewrite Hf, Hrows, Hg, result_bind_Ok.
  by rewrite fs_write_same.
Qed.

Lemma read_loop_spec (l : list path) : ∀ s s' : fs,
  for_each readOnePgn l s = Ok s' →
  (∀ q, (∀ p, p ∈ l → q ≠ outDb p) → fs_lookup q s' = fs_lookup q s) ∧
  (∀ q d, fs_lookup q s = Some (DbFile d) → is_Some (games d) →
          fs_lookup q s' = Some (DbFile d)) ∧
  (∀ q, is_Some (fs_lookup q s) → is_Some (fs_lookup q s')) ∧
  (∃ extra, s'.*1 = s.*1 ++ extra ∧
            Forall (λ q, ∃ p, p ∈ l ∧ q = outDb p) extra) ∧
  ∀ p, p ∈ l →
    (∃ d, fs_lookup (outDb p) s = Some (DbFile d) ∧ is_Some (games d)) ∨
    (∃ l1 p0 l2 rows d,
       l = l1 ++ p0 :: l2 ∧ outDb p0 = outDb p ∧
       (∀ q, q ∈ l1 → outDb q ≠ outDb p) ∧
       read_pgn p0 = Some rows ∧
       ExportToParquet.open_or_create s (outDb p) = Ok d ∧
       games d = None ∧
       fs_lookup (outDb p) s' = Some (DbFile (loaded rows d))).
Proof.
  induction l as [|p l IH]; intros s s'.
  - intros [= <-]. split_and!; try done.
    + exists []. by rewrite app_nil_r.
    + by intros p ?%elem_of_nil.
  - rewrite for_each_cons.
    destruct (readOnePgn s p) as [s1|e] eqn:Hstep; [|done].
    rewrite result_bind_Ok. intros Hloop.
    destruct (IH s1 s' Hloop) as (Hframe & Hkept & Hex & (extra & Hkeys & Hextra) & Hst).
    apply readOnePgn_inv in Hstep as (Hp & _ & Hstep).
    assert (∀ q, q ≠ outDb p → fs_lookup q s1 = fs_lookup q s) as Hframe1.
    { intros q Hq. destruct Hstep as [(_ & _ & _ & ->) | (? & ? & _ & _ & _ & ->)];
        [done |]. by apply fs_lookup_write_ne. }
    assert (∀ q d, fs_lookup q s = Some (DbFile d) → is_Some (games d) →
                   fs_lookup q s1 = Some (DbFile d)) as Hkept1.
    { intros q d Hq Hg.
      destruct Hstep as [(_ & _ & _ & ->) | (rows & d0 & _ & Hd0 & Hg0 & ->)];
        [done |].
      destruct (decide (q = outDb p)) as [->|Hne].
      - apply open_or_create_Ok in Hd0 as [Hd0|[Hd0 _]]; rewrite Hd0 in Hq;
          [|done]. injection Hq as ->. rewrite Hg0 in Hg. by destruct Hg.
      - by rewrite fs_lookup_write_ne. }
    split_and!.
    + intros q Hq. rewrite Hframe.
      * apply Hframe1, Hq. by left.
      * intros p' Hp'. apply Hq. by right.
    + intros q d Hq Hg. apply Hkept; [by apply Hkept1 | done].
    + intros q Hq. apply Hex.
      destruct Hstep as [(_ & _ & _ & ->) | (? & ? & _ & _ & _ & ->)]; [done |].
      destruct (decide (q = outDb p)) as [->|Hne].
      * by rewrite fs_lookup_write_eq.
      * by rewrite fs_lookup_write_ne.
    + destruct Hstep as [(_ & _ & _ & ->) | (rows & d0 & _ & Hd0 & _ & ->)].
      * exists extra. split; [done |].
        eapply Forall_impl; [done |]. intros q (p' & ? & ?). exists p'.
        split; [by right | done].
      * rewrite fs_write_keys in Hkeys.
        destruct (fs_lookup (outDb p) s) eqn:Hl.
        -- exists extra. split; [done |].
           eapply Forall_impl; [done |]. intros q (p' & ? & ?). exists p'.
           split; [by right | done].
        -- exists (outDb p :: extra). rewrite Hkeys, <- app_assoc.
           split; [done |]. constructor.
           ++ exists p. split; [by left | done].
           ++ eapply Forall_impl; [done |]. intros q (p' & ? & ?). exists p'.
              split; [by right | done].
    + intros p' Hp'.
      destruct (store_has_games s (outDb p')) as [Hhas|Hnot]; [by left |].
      right. destruct (decide (outDb p = outDb p')) as [Heq|Hne].
      * destruct Hstep as [(d & Hd & Hg & _) | (rows & d0 & Hr & Hd0 & Hg0 & ->)].
        { destruct Hnot. exists d. by rewrite <- Heq. }
        exists [], p, l, rows, d0. rewrite <- Heq.
        split_and!; try done.
        -- by intros q ?%elem_of_nil.
        -- apply Hkept; [apply fs_lookup_write_eq | done].
      * apply elem_of_cons in Hp' as [->|Hp']; [done |].
        destruct (Hst p' Hp')
          as [(d & Hd & Hg) | (l1 & p0 & l2 & rows & d & -> & H0 & Hl1 & Hr & Hd & Hg & Hs')].
        { destruct Hnot. exists d. by rewrite <- Hframe1 by done. }
        exists (p :: l1), p0, l2, rows, d. split_and!; try done.
        -- intros q [->|Hq]%elem_of_cons; [done | by apply Hl1].
        -- rewrite <- Hd. unfold ExportToParquet.open_or_create.
           by rewrite Hframe1 by done.
Qed.

End ReadPgnLoop.

Lemma join_stem (pf : platform) (o : path) (stem : string) :
  resolved o →
  Str.count_char "/" stem = 0 → Str.count_char "\" stem = 0 →
  join o (split_path pf (stem +:+ ".duckdb")) = o ++ [stem +:+ ".duckdb"].
Proof.
  intros Ho H1 H2. rewrite split_path_single.
  - apply join_resolved; [done |]. apply Forall_singleton, plain_segment_ext.
  - by rewrite count_char_app, H1.
  - by rewrite count_char_app, H2.
Qed.

Lemma outDb_flat (pf : platform) (i o p : path) :
  resolved o →
  ReadPgn.outDb pf i o p
  = o ++ [outputStemFromRelativePath pf i p ".pgn" +:+ ".duckdb"].
Proof.
  intros Ho. unfold ReadPgn.outDb.
  apply join_stem; [done | |]; apply replace_separators_count.
Qed.

Lemma listing_keys (s : fs) (dir : path) (ext : string) :
  listFilesByExtensionRecursively s dir ext
  = filter (λ p, dir `prefix_of` p ∧ p ≠ dir ∧
                 Str.endsWith (Str.toLowerCase (default "" (last p))) ext)
      (s.*1).
Proof.
  unfold listFilesByExtensionRecursively.
  induction s as [|[q f] s IH]; [done |].
  rewrite fmap_cons. cbn [fst].
  destruct (decide (dir `prefix_of` q ∧ q ≠ dir ∧
                    Str.endsWith (Str.toLowerCase (default "" (last q))) ext))
    as [H|H].
  - rewrite (filter_cons_True _ q) by done.
    rewrite filter_cons_True by done. rewrite fmap_cons. by rewrite IH.
  - rewrite (filter_cons_False _ q) by done.
    by rewrite filter_cons_False by done.
Qed.

Lemma toLowerCase_app (s1 s2 : string) :
  Str.toLowerCase (s1 +:+ s2) = Str.toLowerCase s1 +:+ Str.toLowerCase s2.
Proof. induction s1 as [|a s1 IH]; simpl; [done | by rewrite IH]. Qed.

Lemma store_is_no_pgn (x : string) :
  Str.endsWith (Str.toLowerCase (x +:+ ".duckdb")) ".pgn" = false.
Proof.
  unfold Str.endsWith. rewrite toLowerCase_app, rev_app. done.
Qed.


Lemma elem_of_fs_lookup (p : path) (f : file) (s : fs) :
  (p, f) ∈ s → is_Some (fs_lookup p s).
Proof.
  intros Hin. destruct (fs_lookup p s) eqn:Hl; [done |].
  by destruct (proj1 (fs_lookup_None_not_elem_of p s) Hl f).
Qed.

Lemma listed_exists (s : fs) (dir : path) (ext : string) (p : path) :
  p ∈ listFilesByExtensionRecursively s dir ext → is_Some (fs_lookup p s).
Proof. intros (f & Hin & _)%elem_of_listFiles. by eapply elem_of_fs_lookup. Qed.

Lemma for_each_fixed {A S} (body : S → A → result S) (l : list A) (s : S) :
  (∀ x, x ∈ l → body s x = Ok s) → for_each body l s = Ok s.
Proof.
  induction l as [|x l IH]; intros H; [done |].
  rewrite for_each_cons, H by (by left). rewrite result_bind_Ok.
  apply IH. intros y Hy. apply H. by right.
Qed.


Lemma read_pgn_main_inv pf read_pgn norm (args : ReadPgn.Args) (s s' : fs) :
  ReadPgn.main pf read_pgn norm args s = Ok s' →
  ∃ i o,
    ReadPgn.inDir args = Some i ∧ ReadPgn.outDir args = Some o ∧
    listFilesByExtensionRecursively s i ".pgn" ≠ [] ∧
    for_each (ReadPgn.readOnePgn pf read_pgn norm i o)
      (listFilesByExtensionRecursively s i ".pgn") s = Ok s'.
Proof.
  unfold ReadPgn.main.
  destruct (ReadPgn.inDir args) as [i|]; [|done].
  destruct (ReadPgn.outDir args) as [o|]; [|done].
  destruct (decide _) as [|Hne]; [done |]. intros H. by exists i, o.
Qed.

Lemma read_loop_listing pf read_pgn norm (i o : path) (l : list path)
    (s s' : fs) :
  resolved o →
  for_each (ReadPgn.readOnePgn pf read_pgn norm i o) l s = Ok s' →
  listFilesByExtensionRecursively s' i ".pgn"
  = listFilesByExtensionRecursively s i ".pgn".
Proof.
  intros Ho (_ & _ & _ & (extra & Hkeys & Hextra) & _)%read_loop_spec.
  rewrite !listing_keys, Hkeys, filter_app.
  rewrite (filter_none _ extra), app_nil_r; [done |].
  intros q Hq (_ & _ & Hend).
  rewrite Forall_forall in Hextra. destruct (Hextra q Hq) as (p & _ & ->).
  rewrite outDb_flat, last_snoc in Hend by done. simpl in Hend.
  by rewrite store_is_no_pgn in Hend.
Qed.


(** X12.  What a successful run of [read-pgn.ts] leaves: the store of a
    listed PGN file lies directly in the output directory, under the stem of
    the file; a store that had a table [games] before the run is as it was,
    the PGN file is not read into it; otherwise the store holds the rows of
    the first listed PGN file of that stem, each with [clean_movetext]
    computed from its movetext, and the other PGN files of that stem are
    not loaded.  No file outside the output directory is changed, and no
    file that is not such a store. *)
Theorem read_pgn_stores (pf : platform) (read_pgn : path → option (list R.t))
    (chess_moves_normalize : option string → option string)
    (args : ReadPgn.Args) (i o : path) (s s' : fs) :
  ReadPgn.inDir args = Some i →
  ReadPgn.outDir args = Some o →
  resolved o →
  ReadPgn.main pf read_pgn chess_moves_normalize args s = Ok s' →
  (∀ p, p ∈ listFilesByExtensionRecursively s i ".pgn" →
     ReadPgn.outDb pf i o p
     = o ++ [outputStemFromRelativePath pf i p ".pgn" +:+ ".duckdb"] ∧
     ((∃ d, fs_lookup (ReadPgn.outDb pf i o p) s = Some (DbFile d) ∧
            is_Some (games d) ∧
            fs_lookup (ReadPgn.outDb pf i o p) s' = Some (DbFile d)) ∨
      (∃ l1 p0 l2 rows d,
         listFilesByExtensionRecursively s i ".pgn" = l1 ++ p0 :: l2 ∧
         ReadPgn.outDb pf i o p0 = ReadPgn.outDb pf i o p ∧
         (∀ q, q ∈ l1 → ReadPgn.outDb pf i o q ≠ ReadPgn.outDb pf i o p) ∧
         read_pgn p0 = Some rows ∧
         ExportToParquet.open_or_create s (ReadPgn.outDb pf i o p) = Ok d ∧
         games d = None ∧
         fs_lookup (ReadPgn.outDb pf i o p) s'
         = Some (DbFile
                   (Database
                      (Some (ReadPgn.select chess_moves_normalize <$> rows))
                      (openings d) (combined d)))))) ∧
  (∀ q, ¬ o `prefix_of` q → fs_lookup q s' = fs_lookup q s) ∧
  (∀ q, (∀ p, p ∈ listFilesByExtensionRecursively s i ".pgn" →
              q ≠ ReadPgn.outDb pf i o p) →
        fs_lookup q s' = fs_lookup q s).
Proof.
  intros Hi Ho Hres Hrun.
  apply read_pgn_main_inv in Hrun as (i' & o' & Hi' & Ho' & Hne & Hloop).
  rewrite Hi in Hi'. rewrite Ho in Ho'. injection Hi' as <-. injection Ho' as <-.
  apply read_loop_spec in Hloop as (Hframe & Hkept & _ & _ & Hst).
  split_and!.
  - intros p Hp. split; [by apply outDb_flat |].
    destruct (Hst p Hp) as [(d & Hd & Hg) | H]; [|by right].
    left. exists d. split_and!; [done | done | by apply Hkept].
  - intros q Hq. apply Hframe. intros p _ ->. apply Hq.
    rewrite outDb_flat by done. by apply prefix_app_r.
  - done.
Qed.

Lemma read_pgn_stores_witness :
  ∃ s', ReadPgn.main Posix sample_read_pgn sample_normalize
          sample_read_pgn_args sample_pgn_fs = Ok s' ∧
        fs_lookup ["pgn"; "club.pgn"] s'
        = fs_lookup ["pgn"; "club.pgn"] sample_pgn_fs.
Proof.
  eexists. split; [vm_compute; reflexivity |].
  edestruct (read_pgn_stores Posix sample_read_pgn sample_normalize
               sample_read_pgn_args ["pgn"] ["stores"] sample_pgn_fs)
    as (_ & H & _);
    [reflexivity | reflexivity | repeat constructor; discriminate
    | vm_compute; reflexivity |].
  apply H. compute_done.
Defined.

(** X13.  [read-pgn.ts] never refreshes a store: a second run over the
    output of a successful run lists the same PGN files and, when the
    extension can still read them, succeeds and changes nothing, whatever
    rows the PGN files give by then. *)
Theorem read_pgn_never_refreshes (pf : platform)
    (read_pgn read_pgn' : path → option (list R.t))
    (chess_moves_normalize chess_moves_normalize' : option string → option string)
    (args : ReadPgn.Args) (i o : path) (s s' : fs) :
  ReadPgn.inDir args = Some i →
  ReadPgn.outDir args = Some o →
  resolved o →
  ReadPgn.main pf read_pgn chess_moves_normalize args s = Ok s' →
  (∀ p, p ∈ listFilesByExtensionRecursively s i ".pgn" →
        is_Some (read_pgn' p)) →
  listFilesByExtensionRecursively s' i ".pgn"
  = listFilesByExtensionRecursively s i ".pgn" ∧
  ReadPgn.main pf read_pgn' chess_moves_normalize' args s' = Ok s'.
Proof.
  intros Hi0 Ho Hres Hrun Hread.
  apply read_pgn_main_inv in Hrun as (i' & o' & Hi & Ho' & Hne & Hloop).
  rewrite Ho in Ho'. injection Ho' as <-.
  rewrite Hi0 in Hi. injection Hi as <-. split.
  { by eapply read_loop_listing. }
  pose proof (read_loop_listing _ _ _ _ _ _ _ _ Hres Hloop) as Hlist.
  pose proof Hloop as (_ & Hkept & Hex & _ & Hst)%read_loop_spec.
  unfold ReadPgn.main. rewrite Hi0, Ho, Hlist, decide_False by done.
  apply for_each_fixed. intros p Hp.
  assert (∃ d, fs_lookup (ReadPgn.outDb pf i o p) s' = Some (DbFile d) ∧
               is_Some (games d)) as (d & Hd & Hg).
  { destruct (Hst p Hp)
      as [(d & Hd & Hg) | (_ & _ & _ & rows & d & _ & _ & _ & _ & _ & _ & Hd)].
    - exists d. split; [by apply Hkept | done].
    - eexists. split; [done |]. by eexists. }
  apply (readOnePgn_kept _ _ _ _ _ _ _ d); [| by apply Hread | done..].
  apply Hex. by eapply listed_exists.
Qed.

Lemma read_pgn_never_refreshes_witness :
  ∃ s', ReadPgn.main Posix sample_read_pgn sample_normalize
          sample_read_pgn_args sample_pgn_fs = Ok s' ∧
        ReadPgn.main Posix (λ _, Some []) (λ _, None) sample_read_pgn_args s'
        = Ok s'.
Proof.
  eexists. split; [vm_compute; reflexivity |].
  apply (read_pgn_never_refreshes Posix sample_read_pgn (λ _, Some [])
           sample_normalize (λ _, None) sample_read_pgn_args
           ["pgn"] ["stores"] sample_pgn_fs);
    [reflexivity | reflexivity | repeat constructor; discriminate
    | vm_compute; reflexivity | done].
Defined.



(** ** From [read-pgn.ts] to [find-openings.ts] *)



(** ** From [find-openings.ts] to [export-to-parquet.ts] *)






(** ** The scraper: the loop that removes duplicates *)

Lemma dedupe_foldl (ds : list ScrapeLumbras.Dataset) :
  ∀ seen acc,
    foldl ScrapeLumbras.dedupe_step (seen, acc) ds
    = (seen ++ (ScrapeLumbras.key <$> dedupe_from seen ds),
       acc ++ dedupe_from seen ds).
Proof.
  induction ds as [|d ds IH]; intros seen acc; simpl.
  - by rewrite !app_nil_r.
  - unfold ScrapeLumbras.dedupe_step at 2. simpl.
    destruct (bool_decide (ScrapeLumbras.key d ∈ seen)); [apply IH |].
    rewrite IH, fmap_cons, <- !app_assoc. done.
Qed.

Lemma dedupe_from_spec (ds : list ScrapeLumbras.Dataset) :
  ∀ seen d,
    d ∈ dedupe_from seen ds ↔
    ∃ l1 l2, ds = l1 ++ d :: l2 ∧ (ScrapeLumbras.key d ∉ seen) ∧
             (ScrapeLumbras.key d ∉ ScrapeLumbras.key <$> l1).
Proof.
  induction ds as [|x ds IH]; intros seen d; simpl.
  - split; [by intros ?%elem_of_nil |]. intros (l1 & l2 & H & _).
    by destruct l1.
  - case_bool_decide as Hx.
    + rewrite IH. split.
      * intros (l1 & l2 & -> & H1 & H2). exists (x :: l1), l2.
        split_and!; [done | done |]. rewrite fmap_cons, not_elem_of_cons.
        split; [|done]. intros Heq. apply H1. by rewrite Heq.
      * intros (l1 & l2 & Heq & H1 & H2). destruct l1 as [|y l1].
        { injection Heq as <- _. done. }
        injection Heq as <- ->. exists l1, l2.
        rewrite fmap_cons, not_elem_of_cons in H2. by destruct H2.
    + rewrite elem_of_cons, IH. split.
      * intros [->|(l1 & l2 & -> & H1 & H2)].
        { exists [], ds. split_and!; [done | done |]. apply not_elem_of_nil. }
        exists (x :: l1), l2. rewrite not_elem_of_app in H1.
        destruct H1 as [H1 H1']. rewrite list_elem_of_singleton in H1'.
        split_and!; [done | done |]. rewrite fmap_cons, not_elem_of_cons.
        done.
      * intros (l1 & l2 & Heq & H1 & H2). destruct l1 as [|y l1].
        { injection Heq as <- _. by left. }
        injection Heq as <- ->. right. exists l1, l2.
        rewrite fmap_cons, not_elem_of_cons in H2. destruct H2 as [H2 H2'].
        split_and!; [done | | done]. rewrite not_elem_of_app.
        split; [done |]. by rewrite list_elem_of_singleton.
Qed.

Lemma dedupe_from_NoDup (ds : list ScrapeLumbras.Dataset) :
  ∀ seen,
    NoDup (ScrapeLumbras.key <$> dedupe_from seen ds) ∧
    ∀ k, k ∈ (ScrapeLumbras.key <$> dedupe_from seen ds) → k ∉ seen.
Proof.
  induction ds as [|x ds IH]; intros seen; simpl.
  - split; [apply NoDup_nil_2 | by intros k ?%elem_of_nil].
  - case_bool_decide as Hx; [apply IH |].
    destruct (IH (seen ++ [ScrapeLumbras.key x])) as [Hnd Hseen].
    rewrite fmap_cons. split.
    + apply NoDup_cons. split; [|done]. intros Hin%Hseen.
      apply Hin, elem_of_app. right. by apply list_elem_of_singleton.
    + intros k [->|Hk%Hseen]%elem_of_cons; [done |].
      intros Hin. apply Hk, elem_of_app. by left.
Qed.

Lemma dedupe_from_sublist (ds : list ScrapeLumbras.Dataset) :
  ∀ seen, dedupe_from seen ds `sublist_of` ds.
Proof.
  induction ds as [|x ds IH]; intros seen; simpl; [done |].
  case_bool_decide; [by apply sublist_cons | by apply sublist_skip].
Qed.

Lemma dedupe_from_id (ds : list ScrapeLumbras.Dataset) :
  ∀ seen,
    NoDup (ScrapeLumbras.key <$> ds) →
    (∀ k, k ∈ (ScrapeLumbras.key <$> ds) → k ∉ seen) →
    dedupe_from seen ds = ds.
Proof.
  induction ds as [|x ds IH]; intros seen; simpl; [done |].
  rewrite NoDup_cons. intros [Hx Hnd] Hseen.
  rewrite bool_decide_eq_false_2 by (apply Hseen; by left).
  f_equal. apply IH; [done |]. intros k Hk [Hin|Hin]%elem_of_app.
  - apply (Hseen k); [by right | done].
  - apply list_elem_of_singleton in Hin as ->. done.
Qed.

(** X17.  The loop that ends [extractDownloadLinks] keeps, of the datasets
    with one key, the first and only the first: the result has no key
    twice, it is the input with datasets left out and nothing reordered, a
    dataset is kept exactly when no dataset before it has its key, and an
    input without a repeated key is returned as it is. *)
Theorem dedupe_keeps_first (datasets : list ScrapeLumbras.Dataset) :
  NoDup (ScrapeLumbras.key <$> ScrapeLumbras.dedupe datasets) ∧
  ScrapeLumbras.dedupe datasets `sublist_of` datasets ∧
  (∀ d, d ∈ ScrapeLumbras.dedupe datasets ↔
        ∃ l1 l2, datasets = l1 ++ d :: l2 ∧
                 (ScrapeLumbras.key d ∉ ScrapeLumbras.key <$> l1)) ∧
  (NoDup (ScrapeLumbras.key <$> datasets) →
   ScrapeLumbras.dedupe datasets = datasets).
Proof.
  unfold ScrapeLumbras.dedupe. rewrite dedupe_foldl. simpl.
  split_and!.
  - apply dedupe_from_NoDup.
  - apply dedupe_from_sublist.
  - intros d. rewrite dedupe_from_spec. split.
    + intros (l1 & l2 & ? & _ & ?). by exists l1, l2.
    + intros (l1 & l2 & ? & ?). exists l1, l2.
      split_and!; [done | apply not_elem_of_nil | done].
  - intros Hnd. apply dedupe_from_id; [done |].
    intros k _. apply not_elem_of_nil.
Qed.

(** ** The scraper: the keys of [params.yaml] *)

Lemma split_lines_cons (c : N) (txt : Js.str) :
  ScrapeLumbras.split_lines (c :: txt)
  = if (c =? 10)%N then [] :: ScrapeLumbras.split_lines txt
    else match txt with
         | c' :: txt' =>
             if (c =? 13)%N && (c' =? 10)%N
             then [] :: ScrapeLumbras.split_lines txt'
             else match ScrapeLumbras.split_lines txt with
                  | line :: lines => (c :: line) :: lines
                  | [] => [[c]]
                  end
         | [] => [[c]]
         end.
Proof. done. Qed.

Lemma split_lines_plain (l rest : Js.str) :
  plain_line l →
  ScrapeLumbras.split_lines (l ++ 10%N :: rest)
  = l :: ScrapeLumbras.split_lines rest.
Proof.
  induction l as [|c l IH]; intros [Hlf Hcr].
  - done.
  - change ((c :: l) ++ 10%N :: rest) with (c :: (l ++ 10%N :: rest)).
    rewrite split_lines_cons.
    apply not_elem_of_cons in Hlf as [Hc Hlf].
    rewrite (proj2 (N.eqb_neq c 10)) by done.
    destruct l as [|c' l].
    + simpl app. destruct (N.eqb_spec c 13) as [->|_]; [done |].
      done.
    + change ((c' :: l) ++ 10%N :: rest) with (c' :: (l ++ 10%N :: rest)) in *.
      apply not_elem_of_cons in Hlf as Hlf'. destruct Hlf' as [Hc' _].
      rewrite (proj2 (N.eqb_neq c' 10)) by done. rewrite andb_false_r.
      rewrite IH; [done |]. split; [done |]. by rewrite last_cons_cons in Hcr.
Qed.

Lemma split_lines_console_text (logged : list Js.str) (rest : Js.str) :
  Forall plain_line logged →
  ScrapeLumbras.split_lines (ScrapeLumbras.console_text logged ++ rest)
  = logged ++ ScrapeLumbras.split_lines rest.
Proof.
  induction 1 as [|l logged Hl _ IH]; [done |].
  unfold ScrapeLumbras.console_text in *. rewrite bind_cons.
  rewrite <- !app_assoc. simpl. by rewrite split_lines_plain, IH.
Qed.

Lemma set_add_spec (k k' : Js.str) (keys : list Js.str) :
  k ∈ ScrapeLumbras.set_add k' keys ↔ k = k' ∨ k ∈ keys.
Proof.
  unfold ScrapeLumbras.set_add. case_bool_decide as Hin.
  - split; [by right | by intros [->|]].
  - rewrite elem_of_app, list_elem_of_singleton. tauto.
Qed.

Lemma keys_of_lines_spec (lines : list Js.str) : ∀ (acc : list Js.str) k,
  k ∈ foldl (λ keys line,
               match ScrapeLumbras.key_of_line line with
               | Some k => ScrapeLumbras.set_add k keys
               | None => keys
               end) acc lines ↔
  k ∈ acc ∨ ∃ line, line ∈ lines ∧ ScrapeLumbras.key_of_line line = Some k.
Proof.
  induction lines as [|l lines IH]; intros acc k; simpl.
  - split; [by left | intros [|(? & ?%elem_of_nil & _)]; done].
  - rewrite IH. split.
    + intros [Hk|(line & Hin & Hline)].
      * destruct (ScrapeLumbras.key_of_line l) as [k'|] eqn:Hl; [|by left].
        apply set_add_spec in Hk as [->|]; [|by left].
        right. exists l. split; [by left | done].
      * right. exists line. split; [by right | done].
    + intros [Hk|(line & [->|Hin]%elem_of_cons & Hline)].
      * left. destruct (ScrapeLumbras.key_of_line l); [|done].
        apply set_add_spec. by right.
      * left. rewrite Hline. apply set_add_spec. by left.
      * right. by exists line.
Qed.

Lemma existingSourceKeys_spec (txt : Js.str) (k : Js.str) :
  k ∈ ScrapeLumbras.existingSourceKeys (Some txt) ↔
  ∃ line, line ∈ ScrapeLumbras.split_lines txt ∧
          ScrapeLumbras.key_of_line line = Some k.
Proof.
  unfold ScrapeLumbras.existingSourceKeys. rewrite keys_of_lines_spec.
  split; [intros [?%elem_of_nil|]; done | by right].
Qed.

Lemma word_run_word (w rest : Js.str) :
  Forall (λ c, Js.is_word c = true) w → Js.word_ends rest = true →
  ScrapeLumbras.word_run (w ++ rest) = (w, rest).
Proof.
  intros Hw Hrest. induction Hw as [|c w Hc Hw IH]; simpl.
  - destruct rest as [|c rest]; [done |]. simpl in Hrest.
    simpl. by destruct (Js.is_word c).
  - by rewrite Hc, IH.
Qed.

Lemma key_of_line_key (k : Js.str) :
  k ≠ [] → Forall (λ c, Js.is_word c = true) k →
  ScrapeLumbras.key_of_line (Js.lit "  " ++ k ++ Js.lit ":") = Some k.
Proof.
  intros Hne Hk. change (Js.lit "  " ++ k ++ Js.lit ":")
    with (32%N :: 32%N :: (k ++ [58%N])).
  unfold ScrapeLumbras.key_of_line.
  change (Js.is_space 32 && Js.is_space 32) with true. cbv iota.
  rewrite word_run_word by done. by destruct k.
Qed.

Lemma key_of_line_indented (l : Js.str) :
  ScrapeLumbras.key_of_line (32%N :: 32%N :: 32%N :: l) = None.
Proof. done. Qed.

Lemma key_of_line_comment (l : Js.str) :
  ScrapeLumbras.key_of_line (35%N :: l) = None.
Proof. by destruct l. Qed.

Lemma lit_word_free_lf (k : Js.str) :
  Forall (λ c, Js.is_word c = true) k → 10%N ∉ k.
Proof.
  intros Hk Hin. rewrite Forall_forall in Hk. by apply Hk in Hin.
Qed.

Lemma printed_lines_plain (e : ScrapeLumbras.Entry) :
  Forall (λ c, Js.is_word c = true) (ScrapeLumbras.e_key e) →
  (10%N ∉ ScrapeLumbras.e_mega e) →
  Forall plain_line (ScrapeLumbras.printYamlEntries [e]).
Proof.
  intros Hk Hm.
  change (ScrapeLumbras.printYamlEntries [e])
    with ([Js.lit "  " ++ ScrapeLumbras.e_key e ++ Js.lit ":";
           Js.lit "    mega: " ++ [34%N] ++ ScrapeLumbras.e_mega e ++ [34%N];
           Js.lit "    category: " ++ [34%N]
           ++ ScrapeLumbras.category_name (ScrapeLumbras.e_category e)
           ++ [34%N];
           []] ++ []).
  rewrite app_nil_r.
  repeat apply Forall_cons_2; [| | | | apply Forall_nil_2].
  - split.
    + rewrite !not_elem_of_app.
      split_and!; [compute_done | by apply lit_word_free_lf | compute_done].
    + rewrite app_assoc. change (Js.lit ":") with [58%N]. by rewrite last_snoc.
  - split.
    + rewrite !not_elem_of_app.
      split_and!; [compute_done | compute_done | done | compute_done].
    + rewrite !app_assoc. by rewrite last_snoc.
  - destruct (ScrapeLumbras.e_category e); split; compute_done.
  - split; [apply not_elem_of_nil | done].
Qed.

Lemma printYamlEntries_plain (entries : list ScrapeLumbras.Entry) :
  Forall printable entries →
  Forall plain_line (ScrapeLumbras.printYamlEntries entries).
Proof.
  intros H. unfold ScrapeLumbras.printYamlEntries. apply Forall_bind.
  eapply Forall_impl; [done |]. intros e (_ & Hk & Hm). simpl.
  pose proof (printed_lines_plain e Hk Hm) as Hp.
  unfold ScrapeLumbras.printYamlEntries in Hp. rewrite bind_singleton in Hp.
  done.
Qed.

Lemma printed_keys (entries : list ScrapeLumbras.Entry) (k : Js.str) :
  Forall printable entries →
  (∃ line, line ∈ ScrapeLumbras.printYamlEntries entries ∧
           ScrapeLumbras.key_of_line line = Some k) ↔
  k ∈ ScrapeLumbras.e_key <$> entries.
Proof.
  intros H. rewrite Forall_forall in H. split.
  - intros (line & (e & Hline & He)%list_elem_of_bind & Hk).
    apply list_elem_of_fmap. exists e. split; [|done].
    destruct (H e He) as (Hne & Hw & _).
    repeat (apply elem_of_cons in Hline as [->|Hline]).
    + rewrite key_of_line_key in Hk by done. by injection Hk.
    + done.
    + done.
    + done.
    + by apply elem_of_nil in Hline.
  - intros (e & -> & He)%list_elem_of_fmap.
    destruct (H e He) as (Hne & Hw & _).
    exists (Js.lit "  " ++ ScrapeLumbras.e_key e ++ Js.lit ":"). split.
    + apply list_elem_of_bind. exists e. split; [by left | done].
    + by apply key_of_line_key.
Qed.

(** X18.  What [printYamlEntries] prints is read back by
    [existingSourceKeys]: in a text that has, after any lines, what
    [console.log] writes for the entries, and then any text, the keys found
    are the keys of the lines before, the keys of the entries, and the keys
    of the text after; the lines for [mega] and [category] add no key.  The
    keys have to be words of [[A-Za-z0-9_]] and the MEGA keys free of line
    feeds. *)
Theorem printed_keys_are_read_back (before : list Js.str)
    (entries : list ScrapeLumbras.Entry) (rest : Js.str) (k : Js.str) :
  Forall plain_line before →
  Forall printable entries →
  k ∈ ScrapeLumbras.existingSourceKeys
        (Some (ScrapeLumbras.console_text
                 (before ++ ScrapeLumbras.printYamlEntries entries) ++ rest)) ↔
  (∃ line, line ∈ before ∧ ScrapeLumbras.key_of_line line = Some k) ∨
  k ∈ ScrapeLumbras.e_key <$> entries ∨
  k ∈ ScrapeLumbras.existingSourceKeys (Some rest).
Proof.
  intros Hbefore Hentries.
  rewrite !existingSourceKeys_spec, split_lines_console_text.
  2:{ apply Forall_app. split; [done | by apply printYamlEntries_plain]. }
  rewrite <- (printed_keys entries k Hentries). split.
  - intros (line & [[Hin|Hin]%elem_of_app|Hin]%elem_of_app & Hk).
    + left. by exists line.
    + right. left. by exists line.
    + right. right. by exists line.
  - intros [(line & Hin & Hk) | [(line & Hin & Hk) | (line & Hin & Hk)]];
      exists line; (split; [|done]); rewrite !elem_of_app; auto.
Qed.

Lemma printed_keys_are_read_back_witness :
  Js.lit "lumbras_otb_2025"
  ∈ ScrapeLumbras.existingSourceKeys
      (Some (ScrapeLumbras.console_text
               ([Js.lit "sources:"; Js.lit "  # OTB datasets"]
                ++ ScrapeLumbras.printYamlEntries
                     [ScrapeLumbras.Build_Entry (Js.lit "lumbras_otb_2025")
                        ScrapeLumbras.OTB (Js.lit "AbCd#key")]) ++ [])).
Proof.
  apply (printed_keys_are_read_back
           [Js.lit "sources:"; Js.lit "  # OTB datasets"]
           [ScrapeLumbras.Build_Entry (Js.lit "lumbras_otb_2025")
              ScrapeLumbras.OTB (Js.lit "AbCd#key")] []).
  - repeat constructor; compute_done.
  - repeat constructor; compute_done.
  - right. left. compute_done.
Defined.

(** ** The scraper: the keys that [deriveKey] makes *)

Lemma digits_spec (n : nat) (s y rest : Js.str) :
  Js.digits n s = Some (y, rest) → n_digits n y ∧ s = y ++ rest.
Proof.
  unfold Js.digits. destruct (bool_decide _ && _) eqn:H; [|done].
  apply andb_true_iff in H as [Hlen%bool_decide_eq_true Hd].
  intros [= <- <-]. split; [split; [done |] | by rewrite take_drop].
  apply Forall_forall. intros c Hc.
  rewrite forallb_forall in Hd. apply Hd. by apply list_elem_of_In.
Qed.

Lemma find_year_spec (s : Js.str) : ∀ prev y,
  Js.find_year prev s = Some y → n_digits 4 y.
Proof.
  induction s as [|c s IH]; intros prev y; [done |].
  cbn [Js.find_year]. destruct prev.
  - apply IH.
  - destruct (Js.digits 4 (c :: s)) as [[y' rest]|] eqn:Hd; [|apply IH].
    destruct (Js.word_ends rest); [|apply IH].
    intros [= <-]. by apply digits_spec in Hd as [? _].
Qed.

Lemma match_range_spec (n : nat) (s y1 y2 : Js.str) :
  Js.match_range n s = Some (y1, y2) → n_digits 4 y1 ∧ n_digits n y2.
Proof.
  unfold Js.match_range.
  destruct (Js.digits 4 s) as [[y r1]|] eqn:H1; [|done].
  destruct (Js.trimStart r1) as [|c r2]; [done |].
  destruct (c =? 45)%N; [|done].
  destruct (Js.digits n (Js.trimStart r2)) as [[y' [|? ?]]|] eqn:H2; try done.
  intros [= <- <-]. apply digits_spec in H1 as [? _], H2 as [? _]. done.
Qed.

Lemma match_year_spec (s y : Js.str) :
  Js.match_year s = Some y → n_digits 4 y.
Proof.
  unfold Js.match_year.
  destruct (Js.digits 4 s) as [[y' [|? ?]]|] eqn:H; try done.
  intros [= <-]. by apply digits_spec in H as [? _].
Qed.

Lemma suffix_of_spec (remainder suffix : Js.str) :
  ScrapeLumbras.suffix_of remainder = Some suffix → key_suffix suffix.
Proof.
  unfold ScrapeLumbras.suffix_of, key_suffix.
  destruct (Js.equals_ci _ _); [intros [= <-]; by left |].
  destruct (Js.includes_ci _ _).
  { destruct (Js.find_year false remainder) as [y|] eqn:Hy; intros [= <-].
    - right. right. left. exists y. split; [|done]. by eapply find_year_spec.
    - right. by left. }
  destruct (Js.match_range 4 remainder) as [[y1 y2]|] eqn:Hr.
  { intros [= <-]. apply match_range_spec in Hr as [? ?].
    do 3 right. left. by exists y1, y2. }
  destruct (Js.match_year remainder) as [y|] eqn:Hy.
  { intros [= <-]. apply match_year_spec in Hy.
    do 4 right. left. by exists y. }
  destruct (Js.match_range 2 remainder) as [[y m]|] eqn:Hm; [|done].
  intros [= <-]. apply match_range_spec in Hm as [? ?].
  do 5 right. by exists y, m.
Qed.

Lemma is_digit_is_word (c : N) : Js.is_digit c = true → Js.is_word c = true.
Proof. unfold Js.is_word. by intros ->. Qed.

Lemma n_digits_word (n : nat) (y : Js.str) :
  n_digits n y → Forall (λ c, Js.is_word c = true) y.
Proof.
  intros [_ H]. eapply Forall_impl; [done |]. apply is_digit_is_word.
Qed.

Lemma key_suffix_word (suffix : Js.str) :
  key_suffix suffix → Forall (λ c, Js.is_word c = true) suffix.
Proof.
  intros [->|[->|[(y & Hy & ->)|[(y1 & y2 & H1 & H2 & ->)|[(y & Hy & ->)|
    (y & m & Hy & Hm & ->)]]]]];
    rewrite ?Forall_app; repeat split;
    try (by eapply n_digits_word); by repeat constructor.
Qed.

Lemma derived_key_word (c : ScrapeLumbras.Category) (suffix : Js.str) :
  key_suffix suffix →
  ScrapeLumbras.key_of_line
    (Js.lit "  "
     ++ (Js.lit "lumbras_" ++ ScrapeLumbras.category_lower c ++ Js.lit "_"
         ++ suffix)
     ++ Js.lit ":")
  = Some (Js.lit "lumbras_" ++ ScrapeLumbras.category_lower c ++ Js.lit "_"
          ++ suffix).
Proof.
  intros Hs. apply key_of_line_key; [by destruct c |].
  rewrite !Forall_app. split_and!.
  - by repeat constructor.
  - destruct c; by repeat constructor.
  - by repeat constructor.
  - by apply key_suffix_word.
Qed.

(** X19.  Every key that [deriveKey] makes is [lumbras_], the category in
    lower case, [_] and a suffix that is [nodate], [partial], a year with
    [_partial], two years, one year, or a year and a month, with [_]
    between the two; the category is [OTB] exactly when the normalized
    title starts with the word [otb], in any case of letters; and the key
    is one that [existingSourceKeys] finds in the line that
    [printYamlEntries] prints for it. *)
Theorem derived_key_shape (fromCharCode_big : Js.str → N)
    (title k : Js.str) (c : ScrapeLumbras.Category) :
  ScrapeLumbras.deriveKey fromCharCode_big title = Some (k, c) →
  (∃ suffix,
     k = Js.lit "lumbras_" ++ ScrapeLumbras.category_lower c ++ Js.lit "_"
         ++ suffix ∧
     key_suffix suffix) ∧
  (c = ScrapeLumbras.OTB ↔
   is_Some (Js.match_leading_word (Js.lit "otb")
              (ScrapeLumbras.normalizeTitle fromCharCode_big title))) ∧
  ScrapeLumbras.key_of_line (Js.lit "  " ++ k ++ Js.lit ":") = Some k.
Proof.
  unfold ScrapeLumbras.deriveKey. cbv zeta.
  set (t := ScrapeLumbras.normalizeTitle fromCharCode_big title).
  destruct (negb _ && negb _) eqn:Hnone; [done |].
  destruct (ScrapeLumbras.suffix_of _) as [suffix|] eqn:Hs; [|done].
  intros [= <- <-]. apply suffix_of_spec in Hs.
  split_and!.
  - by exists suffix.
  - case_bool_decide as Hotb; [done |]. split; [done | by intros ?].
  - by apply derived_key_word.
Qed.

Lemma derived_key_shape_witness :
  ScrapeLumbras.key_of_line
    (Js.lit "  " ++ Js.lit "lumbras_otb_1995_2009" ++ Js.lit ":")
  = Some (Js.lit "lumbras_otb_1995_2009").
Proof.
  apply (derived_key_shape (λ _, 0%N) (Js.lit "OTB 1995&#8211;2009")
           (Js.lit "lumbras_otb_1995_2009") ScrapeLumbras.OTB).
  vm_compute. reflexivity.
Defined.

(** ** The scraper: normalized titles *)

Lemma trimStart_suffix (s : Js.str) : Js.trimStart s `suffix_of` s.
Proof.
  induction s as [|c s IH]; simpl; [done |].
  destruct (Js.is_space c); [by apply suffix_cons_r | done].
Qed.

Lemma trimStart_head (s : Js.str) (c : N) :
  head (Js.trimStart s) = Some c → Js.is_space c = false.
Proof.
  induction s as [|x s IH]; simpl; [done |].
  destruct (Js.is_space x) eqn:Hx; [done |]. simpl. by intros [= <-].
Qed.

Lemma trimStart_id (s : Js.str) :
  (∀ c, head s = Some c → Js.is_space c = false) → Js.trimStart s = s.
Proof.
  destruct s as [|c s]; [done |]. intros H. simpl.
  by rewrite (H c eq_refl).
Qed.

Lemma trimEnd_prefix (s : Js.str) : Js.trimEnd s `prefix_of` s.
Proof.
  unfold Js.trimEnd.
  destruct (trimStart_suffix (reverse s)) as [k Hk].
  exists (reverse k). apply (inj reverse).
  by rewrite reverse_app, !reverse_involutive.
Qed.

Lemma trimEnd_last (s : Js.str) (c : N) :
  last (Js.trimEnd s) = Some c → Js.is_space c = false.
Proof.
  unfold Js.trimEnd. rewrite last_reverse. apply trimStart_head.
Qed.

Lemma trim_spec (s : Js.str) :
  (∃ l1 l2, s = l1 ++ Js.trim s ++ l2) ∧
  (∀ c, head (Js.trim s) = Some c → Js.is_space c = false) ∧
  (∀ c, last (Js.trim s) = Some c → Js.is_space c = false).
Proof.
  unfold Js.trim.
  destruct (trimStart_suffix s) as [l1 H1].
  destruct (trimEnd_prefix (Js.trimStart s)) as [l2 H2].
  split_and!.
  - exists l1, l2. by rewrite <- H2.
  - intros c Hc. apply (trimStart_head s).
    rewrite H2. destruct (Js.trimEnd (Js.trimStart s)); [done |].
    by simpl in *.
  - apply trimEnd_last.
Qed.

Lemma trim_id (s : Js.str) :
  (∀ c, head s = Some c → Js.is_space c = false) →
  (∀ c, last s = Some c → Js.is_space c = false) →
  Js.trim s = s.
Proof.
  intros Hh Hl. unfold Js.trim. rewrite (trimStart_id s Hh).
  unfold Js.trimEnd. rewrite trimStart_id; [apply reverse_involutive |].
  intros c. rewrite head_reverse. apply Hl.
Qed.

Lemma collapse_spaces_spec (s : Js.str) : ∀ in_run,
  Forall (λ c, Js.is_space c = true → c = 32%N)
    (ScrapeLumbras.collapse_spaces in_run s) ∧
  (∀ l1 a b l2,
     ScrapeLumbras.collapse_spaces in_run s = l1 ++ a :: b :: l2 →
     Js.is_space a = true → Js.is_space b = false) ∧
  (in_run = true →
   ∀ c, head (ScrapeLumbras.collapse_spaces in_run s) = Some c →
        Js.is_space c = false) ∧
  (∀ c, c ∈ ScrapeLumbras.collapse_spaces in_run s → c = 32%N ∨ c ∈ s).
Proof.
  induction s as [|c s IH]; intros in_run; simpl.
  - split_and!; [done | by intros [|? ?] | done | by intros c ?%elem_of_nil].
  - destruct (Js.is_space c) eqn:Hc.
    + destruct in_run.
      * destruct (IH true) as (H1 & H2 & H3 & H4).
        split_and!; [done | done | done |].
        intros x [?|?]%H4; [by left | right; by right].
      * destruct (IH true) as (H1 & H2 & H3 & H4). split_and!.
        -- by constructor.
        -- intros [|x l1] a b l2 Heq Ha.
           ++ injection Heq as <- Heq. apply H3; [done |]. by rewrite Heq.
           ++ injection Heq as <- Heq. by eapply H2.
        -- done.
        -- intros x [->|[?|?]%H4]%elem_of_cons;
             [by left | by left | right; by right].
    + destruct (IH false) as (H1 & H2 & H3 & H4). split_and!.
      * constructor; [by rewrite Hc | done].
      * intros [|x l1] a b l2 Heq Ha.
        -- injection Heq as <- Heq. by rewrite Hc in Ha.
        -- injection Heq as <- Heq. by eapply H2.
      * by intros _ x [= <-].
      * intros x [->|[?|?]%H4]%elem_of_cons;
          [right; by left | by left | right; by right].
Qed.

Lemma replace_dashes_spec (s : Js.str) (c : N) :
  c ∈ ScrapeLumbras.replace_dashes s → c ≠ 8211%N ∧ c ≠ 8212%N.
Proof.
  unfold ScrapeLumbras.replace_dashes.
  intros (x & -> & _)%list_elem_of_fmap.
  destruct (N.eqb_spec x 8211), (N.eqb_spec x 8212); simpl; done.
Qed.

(** X20.  A normalized title has no en or em dash, its only white space is
    the space character, never two in a row and none at either end; so
    [trim] leaves it as it is. *)
Theorem normalized_title_shape (fromCharCode_big : Js.str → N)
    (input : Js.str) :
  let t := ScrapeLumbras.normalizeTitle fromCharCode_big input in
  (8211%N ∉ t) ∧ (8212%N ∉ t) ∧
  Forall (λ c, Js.is_space c = true → c = 32%N) t ∧
  (∀ l1 l2, t ≠ l1 ++ 32%N :: 32%N :: l2) ∧
  (∀ c, head t = Some c → Js.is_space c = false) ∧
  (∀ c, last t = Some c → Js.is_space c = false) ∧
  Js.trim t = t.
Proof.
  intros t. unfold t, ScrapeLumbras.normalizeTitle.
  set (u := ScrapeLumbras.replace_dashes _).
  destruct (collapse_spaces_spec u false) as (H1 & H2 & _ & H4).
  destruct (trim_spec (ScrapeLumbras.collapse_spaces false u))
    as ((l1 & l2 & Hv) & Hh & Hl).
  set (v := ScrapeLumbras.collapse_spaces false u) in *.
  assert (∀ c, c ∈ Js.trim v → c ∈ v) as Hsub.
  { intros c Hc. rewrite Hv, !elem_of_app. auto. }
  assert (∀ c, c ∈ v → c ≠ 8211%N ∧ c ≠ 8212%N) as Hdash.
  { intros c [->|Hc]%H4; [done |]. by eapply replace_dashes_spec. }
  split_and!.
  - intros Hc%Hsub%Hdash. by destruct Hc.
  - intros Hc%Hsub%Hdash. by destruct Hc.
  - rewrite Hv in H1. by apply Forall_app in H1 as [_ [? _]%Forall_app].
  - intros k1 k2 Heq.
    assert (Js.is_space 32 = false) as Hf; [|done].
    apply (H2 (l1 ++ k1) 32%N 32%N (k2 ++ l2)); [|done].
    rewrite Hv, Heq, <- !app_assoc. done.
  - done.
  - done.
  - by apply trim_id.
Qed.

(** ** The scraper: what a run prints *)

Lemma insert_by_key_perm lc x l :
  ScrapeLumbras.insert_by_key lc x l ≡ₚ x :: l.
Proof.
  induction l as [|y l IH]; simpl; [done |].
  destruct (_ <=? _)%Z; [done |]. rewrite IH. apply Permutation_swap.
Qed.

Lemma sort_by_key_perm lc l : ScrapeLumbras.sort_by_key lc l ≡ₚ l.
Proof.
  induction l as [|x l IH]; simpl; [done |].
  by rewrite insert_by_key_perm, IH.
Qed.

Lemma plain_line_app (pre l : Js.str) :
  (10%N ∉ pre) → last pre ≠ Some 13%N → plain_line l → plain_line (pre ++ l).
Proof.
  intros H1 H2 [H3 H4]. split.
  - rewrite not_elem_of_app. done.
  - rewrite last_app. by destruct (last l).
Qed.

Lemma comment_lines_plain (d : ScrapeLumbras.Dataset) :
  printable_dataset d → Forall plain_line (ScrapeLumbras.comment_lines d).
Proof.
  intros (_ & _ & Ht & Hu). unfold ScrapeLumbras.comment_lines.
  repeat constructor; (apply plain_line_app; [compute_done | compute_done | done]).
Qed.

Lemma comment_lines_no_key (d : ScrapeLumbras.Dataset) :
  Forall (λ l, ScrapeLumbras.key_of_line l = None)
    (ScrapeLumbras.comment_lines d).
Proof. repeat constructor; apply key_of_line_comment. Qed.

Section Report.

Context (resolveMegaKey : Js.str → option (option Js.str)).
Context (includeExisting resolve : bool).

#[local] Abbreviation select :=
  (ScrapeLumbras.select resolveMegaKey includeExisting resolve).

#[local] Abbreviation selected :=
  (selected_dataset resolveMegaKey includeExisting resolve).

Lemma select_spec (existing : list Js.str)
    (datasets : list ScrapeLumbras.Dataset) :
  Forall (λ l, ScrapeLumbras.key_of_line l = None) (select existing datasets).1 ∧
  (Forall printable_dataset datasets →
   Forall plain_line (select existing datasets).1) ∧
  ∀ toPrint, (select existing datasets).2 = Some toPrint →
    ∀ e, e ∈ toPrint ↔
         ∃ d mega, d ∈ datasets ∧ selected existing d mega ∧
                   e = ScrapeLumbras.Build_Entry (ScrapeLumbras.key d)
                         (ScrapeLumbras.category d) mega.
Proof.
  induction datasets as [|d ds IH].
  { simpl. split_and!; [done | done |]. intros toPrint [= <-] e. split.
    - by intros ?%elem_of_nil.
    - by intros (? & ? & ?%elem_of_nil & _). }
  cbn [ScrapeLumbras.select]. revert IH.
  destruct (select existing ds) as [log sel]. cbn [fst snd].
  intros (IH1 & IH2 & IH3).
  destruct (negb includeExisting && bool_decide (ScrapeLumbras.key d ∈ existing))
    eqn:Hskip.
  { split_and!; [done | intros [_ ?]%Forall_cons; by apply IH2 |].
    intros toPrint Htp e. rewrite (IH3 toPrint Htp). split.
    - intros (d' & mega & ? & ? & ?). exists d', mega.
      split_and!; [by right | done | done].
    - intros (d' & mega & [->|?]%elem_of_cons & Hsel & ?);
        [|by exists d', mega].
      exfalso. destruct Hsel as ([->|Hnin] & _); [done |].
      rewrite bool_decide_eq_false_2 in Hskip by done.
      by rewrite andb_false_r in Hskip. }
  destruct resolve eqn:Hres; cbn [negb].
  2:{ cbn [fst snd]. split_and!.
      - apply Forall_app. split; [apply comment_lines_no_key |].
        by constructor.
      - intros [Hd Hds]%Forall_cons. apply Forall_app.
        split; [by apply comment_lines_plain |].
        constructor; [by split; [apply not_elem_of_nil |] | by apply IH2].
      - intros toPrint Htp e. rewrite (IH3 toPrint Htp). split.
        + intros (d' & mega & _ & (_ & ? & _) & _). done.
        + intros (d' & mega & _ & (_ & ? & _) & _). done. }
  destruct (resolveMegaKey (ScrapeLumbras.downloadUrl d))
    as [[[|c mega]|]|] eqn:Hmega; cbn [fst snd].
  - split_and!.
    + apply Forall_app. split; [apply comment_lines_no_key |].
      by repeat constructor.
    + intros [Hd Hds]%Forall_cons. apply Forall_app.
      split; [by apply comment_lines_plain |].
      constructor; [by split; compute_done |].
      constructor; [by split; [apply not_elem_of_nil |] | by apply IH2].
    + intros toPrint Htp e. rewrite (IH3 toPrint Htp). split.
      * intros (d' & mega & ? & ? & ?). exists d', mega.
        split_and!; [by right | done | done].
      * intros (d' & mega & [->|?]%elem_of_cons & Hsel & ?);
          [|by exists d', mega].
        destruct Hsel as (_ & _ & Hne & Hm). rewrite Hmega in Hm.
        by injection Hm as <-.
  - split_and!; [done | intros [_ ?]%Forall_cons; by apply IH2 |].
    intros toPrint Htp e.
    destruct sel as [rest|]; [|by simpl in Htp].
    simpl in Htp. injection Htp as <-. rewrite elem_of_cons, (IH3 rest eq_refl). split.
    + intros [->|(d' & mega' & ? & ? & ?)].
      * exists d, (c :: mega). split_and!; [by left | | done].
        split_and!; [| done | done | done].
        destruct includeExisting; [by left |]. right.
        simpl in Hskip. by apply bool_decide_eq_false_1 in Hskip.
      * exists d', mega'. split_and!; [by right | done | done].
    + intros (d' & mega' & [->|?]%elem_of_cons & Hsel & ->).
      * left. destruct Hsel as (_ & _ & _ & Hm). rewrite Hmega in Hm.
        by injection Hm as <-.
      * right. by exists d', mega'.
  - split_and!.
    + apply Forall_app. split; [apply comment_lines_no_key |].
      by repeat constructor.
    + intros [Hd Hds]%Forall_cons. apply Forall_app.
      split; [by apply comment_lines_plain |].
      constructor; [by split; compute_done |].
      constructor; [by split; [apply not_elem_of_nil |] | by apply IH2].
    + intros toPrint Htp e. rewrite (IH3 toPrint Htp). split.
      * intros (d' & mega & ? & ? & ?). exists d', mega.
        split_and!; [by right | done | done].
      * intros (d' & mega & [->|?]%elem_of_cons & Hsel & ?);
          [|by exists d', mega].
        destruct Hsel as (_ & _ & Hne & Hm). rewrite Hmega in Hm. done.
  - split_and!; [done | done | done].
Qed.

End Report.

Lemma keys_of_console_text (logged : list Js.str) (k : Js.str) :
  Forall plain_line logged →
  k ∈ ScrapeLumbras.existingSourceKeys
        (Some (ScrapeLumbras.console_text logged)) ↔
  ∃ line, line ∈ logged ∧ ScrapeLumbras.key_of_line line = Some k.
Proof.
  intros Hplain.
  rewrite <- (app_nil_r (ScrapeLumbras.console_text logged)).
  rewrite existingSourceKeys_spec, split_lines_console_text by done. split.
  - intros (line & [Hin|Hin]%elem_of_app & Hk); [by exists line |].
    apply list_elem_of_singleton in Hin as ->. done.
  - intros (line & Hin & Hk). exists line. rewrite elem_of_app. auto.
Qed.

Lemma Forall_filter_keep {A} (P Q : A → Prop) `{!∀ x, Decision (Q x)}
    (l : list A) :
  Forall P l → Forall P (filter Q l).
Proof.
  rewrite !Forall_forall. intros Hl x [_ Hx]%list_elem_of_filter. by apply Hl.
Qed.

Lemma yaml_section_spec (heading : Js.str) (entries : list ScrapeLumbras.Entry)
    (k : Js.str) :
  plain_line heading → ScrapeLumbras.key_of_line heading = None →
  Forall printable entries →
  Forall plain_line (ScrapeLumbras.yaml_section heading entries) ∧
  ((∃ line, line ∈ ScrapeLumbras.yaml_section heading entries ∧
            ScrapeLumbras.key_of_line line = Some k) ↔
   k ∈ ScrapeLumbras.e_key <$> entries).
Proof.
  intros Hh Hk He. rewrite <- (printed_keys entries k He).
  destruct entries as [|e entries]; [done |].
  cbn [ScrapeLumbras.yaml_section]. split.
  - constructor; [done | by apply printYamlEntries_plain].
  - split.
    + intros (line & [->|Hin]%elem_of_cons & Hline); [congruence |].
      by exists line.
    + intros (line & Hin & Hline). exists line. split; [by right | done].
Qed.

Lemma optional_comment (b : bool) (x : Js.str) :
  plain_line x → ScrapeLumbras.key_of_line x = None →
  Forall plain_line (if b then [x] else []) ∧
  ∀ l, l ∈ (if b then [x] else []) → ScrapeLumbras.key_of_line l = None.
Proof.
  intros Hx Hk. destruct b.
  - split; [by constructor |]. by intros l ->%list_elem_of_singleton.
  - split; [done | by intros l ?%elem_of_nil].
Qed.

Lemma print_selected_spec (includeExisting resolve : bool)
    (paramsPath : Js.str) (toPrint : list ScrapeLumbras.Entry) (k : Js.str) :
  plain_line paramsPath →
  Forall printable toPrint →
  Forall plain_line
    (ScrapeLumbras.print_selected includeExisting resolve paramsPath toPrint) ∧
  ((∃ line,
      line ∈ ScrapeLumbras.print_selected includeExisting resolve paramsPath
               toPrint ∧
      ScrapeLumbras.key_of_line line = Some k) ↔
   k ∈ ScrapeLumbras.e_key <$> toPrint).
Proof.
  intros Hp Hprint. unfold ScrapeLumbras.print_selected.
  set (online := filter (λ e, ScrapeLumbras.e_category e = ScrapeLumbras.Online)
                   toPrint).
  set (otb := filter (λ e, ScrapeLumbras.e_category e = ScrapeLumbras.OTB)
                toPrint).
  destruct (yaml_section_spec (Js.lit "  # Online datasets") online k)
    as [Hon1 Hon2]; [by split; compute_done | done | by apply Forall_filter_keep |].
  destruct (yaml_section_spec (Js.lit "  # OTB datasets") otb k)
    as [Hotb1 Hotb2]; [by split; compute_done | done | by apply Forall_filter_keep |].
  assert (plain_line (ScrapeLumbras.no_new_datasets paramsPath)) as Hnew.
  { apply plain_line_app; [compute_done | compute_done | done]. }
  assert (ScrapeLumbras.key_of_line (ScrapeLumbras.no_new_datasets paramsPath)
          = None) as Hnew' by apply key_of_line_comment.
  set (m1 := if negb includeExisting && resolve
                && bool_decide (length toPrint = 0)
             then [ScrapeLumbras.no_new_datasets paramsPath] else []).
  set (m2 := if negb resolve && bool_decide (length toPrint = 0)
                && negb includeExisting
             then [ScrapeLumbras.no_new_datasets paramsPath] else []).
  destruct (optional_comment
              (negb includeExisting && resolve
               && bool_decide (length toPrint = 0))
              (ScrapeLumbras.no_new_datasets paramsPath) Hnew Hnew')
    as [Hm1 Hm1'].
  destruct (optional_comment
              (negb resolve && bool_decide (length toPrint = 0)
               && negb includeExisting)
              (ScrapeLumbras.no_new_datasets paramsPath) Hnew Hnew')
    as [Hm2 Hm2'].
  fold m1 in Hm1, Hm1'. fold m2 in Hm2, Hm2'.
  split.
  - rewrite !Forall_app. done.
  - assert (k ∈ ScrapeLumbras.e_key <$> toPrint ↔
            k ∈ ScrapeLumbras.e_key <$> online ∨
            k ∈ ScrapeLumbras.e_key <$> otb) as ->.
    { rewrite !list_elem_of_fmap. unfold online, otb. split.
      - intros (e & -> & He).
        destruct (ScrapeLumbras.e_category e) eqn:Hc; [left | right];
          exists e; (split; [done |]); by apply list_elem_of_filter.
      - intros [(e & -> & [_ He]%list_elem_of_filter) |
                (e & -> & [_ He]%list_elem_of_filter)]; by exists e. }
    rewrite <- Hon2, <- Hotb2. split.
    + intros (line & Hin & Hline). rewrite !elem_of_app in Hin.
      destruct Hin as [Hin|[Hin|[Hin|Hin]]].
      * left. by exists line.
      * right. by exists line.
      * rewrite (Hm1' line Hin) in Hline. done.
      * rewrite (Hm2' line Hin) in Hline. done.
    + intros [(line & Hin & Hline) | (line & Hin & Hline)];
        exists line; (split; [|done]); rewrite !elem_of_app; auto.
Qed.

Lemma select_completes (resolveMegaKey : Js.str → option (option Js.str))
    (includeExisting resolve : bool) (existing : list Js.str)
    (datasets : list ScrapeLumbras.Dataset) :
  is_Some (ScrapeLumbras.select resolveMegaKey includeExisting resolve
             existing datasets).2 ↔
  ∀ d, d ∈ datasets →
       (includeExisting = true ∨ ScrapeLumbras.key d ∉ existing) →
       resolve = true →
       is_Some (resolveMegaKey (ScrapeLumbras.downloadUrl d)).
Proof.
  induction datasets as [|d ds IH].
  { split; [by intros _ d ?%elem_of_nil | by eexists]. }
  cbn [ScrapeLumbras.select]. revert IH.
  destruct (ScrapeLumbras.select _ _ _ existing ds) as [log sel].
  cbn [fst snd]. intros IH.
  assert ((∀ d', d' ∈ d :: ds →
             (includeExisting = true ∨ ScrapeLumbras.key d' ∉ existing) →
             resolve = true →
             is_Some (resolveMegaKey (ScrapeLumbras.downloadUrl d'))) ↔
          ((includeExisting = true ∨ ScrapeLumbras.key d ∉ existing) →
           resolve = true →
           is_Some (resolveMegaKey (ScrapeLumbras.downloadUrl d))) ∧
          is_Some sel) as ->.
  { rewrite IH. split.
    - intros H. split; [apply H; by left |].
      intros d' Hd'. apply H. by right.
    - intros [H1 H2] d' [->|Hd']%elem_of_cons; [done | by apply H2]. }
  destruct (negb includeExisting && bool_decide (ScrapeLumbras.key d ∈ existing))
    eqn:Hskip.
  { split; [|by intros [_ ?]]. intros Hsel. split; [|done].
    intros [->|Hnin]; [done |].
    rewrite bool_decide_eq_false_2 in Hskip by done.
    by rewrite andb_false_r in Hskip. }
  destruct resolve; cbn [negb fst snd].
  2:{ split; [by intros ? | by intros [_ ?]]. }
  destruct (resolveMegaKey (ScrapeLumbras.downloadUrl d))
    as [[[|c mega]|]|] eqn:Hmega; cbn [fst snd].
  - split; [by intros ? | by intros [_ ?]].
  - rewrite fmap_is_Some. split; [by intros ? | by intros [_ ?]].
  - split; [by intros ? | by intros [_ ?]].
  - split; [by intros [? ?] |]. intros [H _].
    destruct H as [? H]; [| done | done].
    destruct includeExisting; [by left |]. right.
    simpl in Hskip. by apply bool_decide_eq_false_1 in Hskip.
Qed.

Lemma report_inv (resolveMegaKey : Js.str → option (option Js.str))
    (lc : Js.str → Js.str → Z) (includeExisting resolve : bool)
    (paramsPath : Js.str) (found : list ScrapeLumbras.Dataset)
    (params : option Js.str) (logged : list Js.str) :
  ScrapeLumbras.report resolveMegaKey lc includeExisting resolve paramsPath
    found params = (logged, true) →
  ∃ log toPrint,
    ScrapeLumbras.select resolveMegaKey includeExisting resolve
      (ScrapeLumbras.existingSourceKeys params)
      (ScrapeLumbras.sort_by_key lc found) = (log, Some toPrint) ∧
    logged = log ++ ScrapeLumbras.print_selected includeExisting resolve
                      paramsPath toPrint.
Proof.
  unfold ScrapeLumbras.report. cbv zeta.
  destruct (ScrapeLumbras.select _ _ _ _ _) as [log [toPrint|]]; [|done].
  intros [= <-]. by exists log, toPrint.
Qed.

Lemma report_keys (resolveMegaKey : Js.str → option (option Js.str))
    (lc : Js.str → Js.str → Z) (includeExisting resolve : bool)
    (paramsPath : Js.str) (found : list ScrapeLumbras.Dataset)
    (params : option Js.str) (logged : list Js.str) (k : Js.str) :
  Forall printable_dataset found →
  (∀ url mega, resolveMegaKey url = Some (Some mega) → 10%N ∉ mega) →
  plain_line paramsPath →
  ScrapeLumbras.report resolveMegaKey lc includeExisting resolve paramsPath
    found params = (logged, true) →
  k ∈ ScrapeLumbras.existingSourceKeys
        (Some (ScrapeLumbras.console_text logged)) ↔
  ∃ d mega,
    d ∈ found ∧ ScrapeLumbras.key d = k ∧
    selected_dataset resolveMegaKey includeExisting resolve
      (ScrapeLumbras.existingSourceKeys params) d mega.
Proof.
  intros Hfound Hmega Hpath (log & toPrint & Hsel & ->)%report_inv.
  pose proof (select_spec resolveMegaKey includeExisting resolve
                (ScrapeLumbras.existingSourceKeys params)
                (ScrapeLumbras.sort_by_key lc found)) as (Hno & Hplain & Hin).
  rewrite Hsel in Hno, Hplain, Hin. cbn [fst snd] in *.
  specialize (Hin toPrint eq_refl).
  assert (Forall printable_dataset (ScrapeLumbras.sort_by_key lc found))
    as Hsorted by (by rewrite sort_by_key_perm).
  assert (Forall printable toPrint) as Hprint.
  { apply Forall_forall. intros e (d & mega & Hd & Hs & ->)%Hin.
    rewrite Forall_forall in Hsorted.
    destruct (Hsorted d Hd) as (? & ? & _). destruct Hs as (_ & _ & _ & Hm).
    split_and!; [done | done | by eapply Hmega]. }
  destruct (print_selected_spec includeExisting resolve paramsPath toPrint k
              Hpath Hprint) as [Hplain' Hkeys].
  rewrite keys_of_console_text by (apply Forall_app; auto).
  assert ((∃ line,
             line ∈ log ++ ScrapeLumbras.print_selected includeExisting resolve
                             paramsPath toPrint ∧
             ScrapeLumbras.key_of_line line = Some k) ↔
          k ∈ ScrapeLumbras.e_key <$> toPrint) as ->.
  { rewrite <- Hkeys. split.
    - intros (line & [Hl|Hl]%elem_of_app & Hline); [|by exists line].
      rewrite Forall_forall in Hno. by rewrite (Hno line Hl) in Hline.
    - intros (line & Hl & Hline). exists line. rewrite elem_of_app. auto. }
  rewrite list_elem_of_fmap. split.
  - intros (e & -> & (d & mega & Hd & Hs & ->)%Hin).
    exists d, mega. split_and!; [by rewrite <- (sort_by_key_perm lc) | done..].
  - intros (d & mega & Hd & <- & Hs).
    exists (ScrapeLumbras.Build_Entry (ScrapeLumbras.key d)
              (ScrapeLumbras.category d) mega).
    split; [done |]. apply Hin. exists d, mega.
    split_and!; [by rewrite sort_by_key_perm | done..].
Qed.

(** X21.  The keys that [existingSourceKeys] finds in the output of a run
    that has come to its end are exactly the keys of the datasets that the
    run has resolved and printed as YAML: those found on the page whose
    key is not in [params.yaml], or any with [--all], for which the
    request has given a MEGA key.  So without [--all] no key that
    [params.yaml] has is printed again, and with [--noResolve] no key is
    printed; the comments and warnings of the run add none. *)
Theorem report_prints_new_keys
    (resolveMegaKey : Js.str → option (option Js.str))
    (lc : Js.str → Js.str → Z) (includeExisting resolve : bool)
    (paramsPath : Js.str) (found : list ScrapeLumbras.Dataset)
    (params : option Js.str) (logged : list Js.str) :
  Forall printable_dataset found →
  (∀ url mega, resolveMegaKey url = Some (Some mega) → 10%N ∉ mega) →
  plain_line paramsPath →
  ScrapeLumbras.report resolveMegaKey lc includeExisting resolve paramsPath
    found params = (logged, true) →
  (∀ k, k ∈ ScrapeLumbras.existingSourceKeys
              (Some (ScrapeLumbras.console_text logged)) ↔
        ∃ d mega,
          d ∈ found ∧ ScrapeLumbras.key d = k ∧
          selected_dataset resolveMegaKey includeExisting resolve
            (ScrapeLumbras.existingSourceKeys params) d mega) ∧
  (includeExisting = false →
   ∀ k, k ∈ ScrapeLumbras.existingSourceKeys
              (Some (ScrapeLumbras.console_text logged)) →
        k ∉ ScrapeLumbras.existingSourceKeys params) ∧
  (resolve = false →
   ScrapeLumbras.existingSourceKeys
     (Some (ScrapeLumbras.console_text logged)) = []).
Proof.
  intros Hfound Hmega Hpath Hrun.
  pose proof (λ k, report_keys resolveMegaKey lc includeExisting resolve
                     paramsPath found params logged k Hfound Hmega Hpath Hrun)
    as Hkeys.
  split_and!.
  - done.
  - intros -> k (d & mega & _ & <- & ([?|?] & _))%Hkeys; done.
  - intros ->. apply elem_of_nil_inv.
    intros k (d & mega & _ & _ & (_ & ? & _))%Hkeys. done.
Qed.

Lemma report_prints_new_keys_witness :
  ∃ logged,
    ScrapeLumbras.report sample_resolve sample_compare false true
      (Js.lit "params.yaml") sample_datasets (Some sample_params)
    = (logged, true) ∧
    ∀ k, k ∈ ScrapeLumbras.existingSourceKeys
               (Some (ScrapeLumbras.console_text logged)) →
         k ∉ ScrapeLumbras.existingSourceKeys (Some sample_params).
Proof.
  eexists. split; [vm_compute; reflexivity |].
  edestruct (report_prints_new_keys sample_resolve sample_compare false true
               (Js.lit "params.yaml") sample_datasets (Some sample_params))
    as (_ & H & _); [| | | vm_compute; reflexivity | by apply H].
  - repeat constructor; compute_done.
  - intros url mega. unfold sample_resolve. case_bool_decide; [done |].
    intros [= <-]. compute_done.
  - split; compute_done.
Defined.

(** X22.  A run after the output of a run has been put into [params.yaml]
    prints no dataset again: when the second run finds the same datasets,
    gets the same answers to its requests and reads a [params.yaml] that
    has the keys it had and the keys of the first output, it comes to its
    end and its output has no key. *)
Theorem rerun_prints_nothing
    (resolveMegaKey : Js.str → option (option Js.str))
    (lc : Js.str → Js.str → Z) (resolve : bool)
    (paramsPath : Js.str) (found : list ScrapeLumbras.Dataset)
    (params params' : option Js.str) (logged : list Js.str) :
  Forall printable_dataset found →
  (∀ url mega, resolveMegaKey url = Some (Some mega) → 10%N ∉ mega) →
  plain_line paramsPath →
  ScrapeLumbras.report resolveMegaKey lc false resolve paramsPath
    found params = (logged, true) →
  (∀ k, k ∈ ScrapeLumbras.existingSourceKeys params →
        k ∈ ScrapeLumbras.existingSourceKeys params') →
  (∀ k, k ∈ ScrapeLumbras.existingSourceKeys
              (Some (ScrapeLumbras.console_text logged)) →
        k ∈ ScrapeLumbras.existingSourceKeys params') →
  ∃ logged',
    ScrapeLumbras.report resolveMegaKey lc false resolve paramsPath
      found params' = (logged', true) ∧
    ScrapeLumbras.existingSourceKeys
      (Some (ScrapeLumbras.console_text logged')) = [].
Proof.
  intros Hfound Hmega Hpath Hrun Hold Hnew.
  pose proof (λ k, report_keys resolveMegaKey lc false resolve
                     paramsPath found params logged k Hfound Hmega Hpath Hrun)
    as Hkeys.
  pose proof Hrun as (log & toPrint & Hsel & _)%report_inv.
  assert (is_Some (ScrapeLumbras.select resolveMegaKey false resolve
                     (ScrapeLumbras.existingSourceKeys params')
                     (ScrapeLumbras.sort_by_key lc found)).2) as [toPrint' Hsel'].
  { apply select_completes. intros d Hd [?|Hnin] Hres; [done |].
    assert (is_Some (ScrapeLumbras.select resolveMegaKey false resolve
                       (ScrapeLumbras.existingSourceKeys params)
                       (ScrapeLumbras.sort_by_key lc found)).2) as Hdone
      by (by rewrite Hsel).
    rewrite select_completes in Hdone. apply Hdone; [done | | done].
    right. intros Hin. by apply Hnin, Hold. }
  assert (∃ logged', ScrapeLumbras.report resolveMegaKey lc false resolve
                       paramsPath found params' = (logged', true))
    as [logged' Hrun'].
  { unfold ScrapeLumbras.report. cbv zeta. revert Hsel'.
    destruct (ScrapeLumbras.select resolveMegaKey false resolve
                (ScrapeLumbras.existingSourceKeys params')
                (ScrapeLumbras.sort_by_key lc found)) as [log' sel'].
    simpl. intros ->. by eexists. }
  exists logged'. split; [done |]. apply elem_of_nil_inv. intros k Hk.
  apply (report_keys resolveMegaKey lc false resolve paramsPath found params'
           logged' k Hfound Hmega Hpath Hrun') in Hk
    as (d & mega & Hd & <- & ([?|Hnin] & Hres & Hne & Hm)); [done |].
  apply Hnin, Hnew, Hkeys. exists d, mega.
  split_and!; [done | done |]. split_and!; [| done..].
  right. intros Hin. by apply Hnin, Hold.
Qed.

Lemma rerun_prints_nothing_witness :
  ∃ logged logged',
    ScrapeLumbras.report sample_resolve sample_compare false true
      (Js.lit "params.yaml") sample_datasets (Some sample_params)
    = (logged, true) ∧
    ScrapeLumbras.report sample_resolve sample_compare false true
      (Js.lit "params.yaml") sample_datasets
      (Some (sample_params ++ ScrapeLumbras.console_text logged))
    = (logged', true) ∧
    ScrapeLumbras.existingSourceKeys
      (Some (ScrapeLumbras.console_text logged')) = [].
Proof.
  eexists.
  edestruct (rerun_prints_nothing sample_resolve sample_compare true
               (Js.lit "params.yaml") sample_datasets (Some sample_params))
    as (logged' & H1 & H2).
  - repeat constructor; compute_done.
  - intros url mega. unfold sample_resolve. case_bool_decide; [done |].
    intros [= <-]. compute_done.
  - split; compute_done.
  - vm_compute. reflexivity.
  - shelve.
  - shelve.
  - exists logged'. split; [reflexivity |]. split; [exact H1 | exact H2].
  Unshelve.
  + intros k Hk. apply list_elem_of_In in Hk. vm_compute in Hk.
    destruct Hk as [<- | []]. compute_done.
  + intros k Hk. apply list_elem_of_In in Hk. vm_compute in Hk.
    destruct Hk as [<- | []]. compute_done.
Defined.

(** ** The arguments of the DuckDB command line *)

Lemma split_spaces_spec (s : Js.str) : ∀ in_run,
  Forall (Forall (λ c, Js.is_space c = false)) (split_spaces in_run s) ∧
  mjoin (split_spaces in_run s) = filter (λ c, Js.is_space c = false) s.
Proof.
  induction s as [|c s IH]; intros in_run; [by repeat constructor |].
  cbn [split_spaces]. destruct (Js.is_space c) eqn:Hc.
  - rewrite filter_cons_False by (by rewrite Hc).
    destruct in_run; [apply IH |].
    destruct (IH true) as [H1 H2]. split; [by constructor | done].
  - rewrite filter_cons_True by done.
    destruct (IH false) as [H1 H2].
    destruct (split_spaces false s) as [|piece pieces].
    + simpl in H2. rewrite <- H2. by repeat constructor.
    + apply Forall_cons in H1 as [Hp Hps]. split.
      * constructor; [by constructor | done].
      * simpl in *. by rewrite H2.
Qed.

Lemma mjoin_filter_nonempty {A} (l : list (list A)) :
  mjoin (filter (λ a, a ≠ []) l) = mjoin l.
Proof.
  induction l as [|a l IH]; [done |].
  destruct a as [|x a].
  - by rewrite filter_cons_False by (by intros ?).
  - rewrite filter_cons_True by done. simpl. by rewrite IH.
Qed.

Lemma filter_trimStart (s : Js.str) :
  filter (λ c, Js.is_space c = false) (Js.trimStart s)
  = filter (λ c, Js.is_space c = false) s.
Proof.
  induction s as [|c s IH]; simpl; [done |].
  destruct (Js.is_space c) eqn:Hc; [|done].
  by rewrite filter_cons_False by (by rewrite Hc).
Qed.

Lemma filter_trim (s : Js.str) :
  filter (λ c, Js.is_space c = false) (Js.trim s)
  = filter (λ c, Js.is_space c = false) s.
Proof.
  unfold Js.trim, Js.trimEnd.
  rewrite filter_reverse, filter_trimStart, <- filter_reverse.
  by rewrite reverse_involutive, filter_trimStart.
Qed.

(** X23.  [duckdbCliArgs] gives, in this order, [-unsigned] at most once,
    the arguments of [DUCKDB_CLI_ARGS] and the extra arguments as they
    are.  [-unsigned] is there exactly when [params.yaml] has forced it or
    [DUCKDB_UNSIGNED] is truthy.  The arguments of [DUCKDB_CLI_ARGS] are
    never empty and have no white space, and together they are the
    characters of the variable that are not white space, so quotes in the
    variable do not keep words together.  What [params.yaml] says is
    settled at the first call: a later call gives the same arguments
    whatever the file says by then. *)
Theorem duckdbCliArgs_shape (toLowerCase : Js.str → Js.str)
    (cached : option bool) (raw : option Js.str)
    (env_unsigned env_args : option Js.str) (extra : option (list Js.str)) :
  ∃ unsigned from_env,
    duckdbCliArgs toLowerCase cached raw env_unsigned env_args extra
    = (unsigned ++ from_env ++ default [] extra,
       Some (default (force_from_params toLowerCase raw) cached)) ∧
    (unsigned = [Js.lit "-unsigned"] ∨ unsigned = []) ∧
    (unsigned = [Js.lit "-unsigned"] ↔
     default (force_from_params toLowerCase raw) cached = true ∨
     isTruthyEnvValue toLowerCase env_unsigned = true) ∧
    Forall (λ a, a ≠ [] ∧ Forall (λ c, Js.is_space c = false) a) from_env ∧
    mjoin from_env
    = filter (λ c, Js.is_space c = false) (default [] env_args) ∧
    ∀ raw',
      duckdbCliArgs toLowerCase
        (Some (default (force_from_params toLowerCase raw) cached))
        raw' env_unsigned env_args extra
      = duckdbCliArgs toLowerCase cached raw env_unsigned env_args extra.
Proof.
  set (force := default (force_from_params toLowerCase raw) cached).
  set (unsigned := if force then [Js.lit "-unsigned"]
                   else if isTruthyEnvValue toLowerCase env_unsigned
                        then [Js.lit "-unsigned"] else []).
  set (from_env := match Js.trim <$> env_args with
                   | Some (c :: extra_env) =>
                       filter (λ a, a ≠ [])
                         (split_spaces false (c :: extra_env))
                   | _ => []
                   end).
  exists unsigned, from_env.
  assert (∀ c fp, default (force_from_params toLowerCase fp) c = force →
            duckdbCliArgs toLowerCase c fp env_unsigned env_args extra
            = (unsigned ++ from_env ++ default [] extra, Some force)) as Hcall.
  { intros c fp Hc. unfold duckdbCliArgs, shouldForceDuckdbUnsignedFromParamsYaml.
    destruct c as [b|]; simpl in Hc; by rewrite Hc. }
  split_and!.
  - by apply Hcall.
  - unfold unsigned. destruct force; [by left |].
    destruct (isTruthyEnvValue _ _); [by left | by right].
  - unfold unsigned. destruct force; [by split; [left |] |].
    destruct (isTruthyEnvValue _ _); [by split; [right |] |].
    split; [done | by intros [|]].
  - unfold from_env. destruct env_args as [v|]; simpl; [|done].
    destruct (Js.trim v) as [|c t]; [done |].
    destruct (split_spaces_spec (c :: t) false) as [H _].
    apply Forall_forall. intros a [Ha Hin]%list_elem_of_filter.
    split; [done |]. rewrite Forall_forall in H. by apply H.
  - unfold from_env. destruct env_args as [v|]; simpl; [|done].
    rewrite <- (filter_trim v).
    destruct (Js.trim v) as [|c t]; [done |].
    rewrite mjoin_filter_nonempty.
    exact (proj2 (split_spaces_spec (c :: t) false)).
  - intros fp'. rewrite (Hcall (Some force) fp') by done.
    by rewrite (Hcall cached raw).
Qed.

(** ** The version of the extension in [params.yaml] *)

Lemma search_version_eq (line_start : bool) (s : Js.str) :
  search_version line_start s
  = match (if line_start then match_version_at s else None) with
    | Some group => Some group
    | None =>
        match s with
        | [] => None
        | c :: s' => search_version (is_line_terminator c) s'
        end
    end.
Proof. by destruct s. Qed.

Lemma trimStart_split (s : Js.str) :
  ∃ w, s = w ++ Js.trimStart s ∧ Forall (λ c, Js.is_space c = true) w.
Proof.
  induction s as [|c s (w & Hw & Hs)]; [by exists [] |]. simpl.
  destruct (Js.is_space c) eqn:Hc; [|by exists []].
  exists (c :: w). split; [by rewrite Hw at 1 | by constructor].
Qed.

Lemma trimStart_app (w s : Js.str) :
  Forall (λ c, Js.is_space c = true) w →
  Js.trimStart (w ++ s) = Js.trimStart s.
Proof. induction 1 as [|c w Hc _ IH]; simpl; [done | by rewrite Hc]. Qed.

Lemma trimStart_nonempty (s : Js.str) (c : N) :
  c ∈ s → Js.is_space c = false → Js.trimStart s ≠ [].
Proof.
  induction s as [|x s IH]; [by intros ?%elem_of_nil |].
  intros [-> | Hin]%elem_of_cons Hc; simpl.
  - by rewrite Hc.
  - destruct (Js.is_space x); [by apply IH | done].
Qed.

Lemma strip_prefix_spec (pat s r : Js.str) :
  strip_prefix pat s = Some r ↔ s = pat ++ r.
Proof.
  revert s. induction pat as [|p pat IH]; intros s; simpl.
  - split; [by intros [= ->] | by intros ->].
  - destruct s as [|c s]; [done |].
    destruct (N.eqb_spec p c) as [-> | Hne].
    + rewrite IH. split; [by intros -> | by intros [= ->]].
    + split; [done | by intros [= ? _]].
Qed.

Lemma run_app (kind : N → bool) (a b : Js.str) :
  Forall (λ c, kind c = true) a →
  (∀ c, head b = Some c → kind c = false) →
  run kind (a ++ b) = (a, b).
Proof.
  intros Ha Hb. induction Ha as [|c a Hc _ IH]; simpl.
  - destruct b as [|c b]; [done |]. simpl. by rewrite (Hb c eq_refl).
  - by rewrite Hc, IH.
Qed.

Lemma includes_intro (pat a b : Js.str) : includes pat (a ++ pat ++ b) = true.
Proof.
  induction a as [|c a IH].
  - simpl. destruct (pat ++ b) eqn:E; simpl;
      (rewrite bool_decide_eq_true_2; [done |]); rewrite <- E;
      by apply prefix_app_r.
  - simpl. rewrite IH. apply orb_true_r.
Qed.

Lemma includes_cons (pat s : Js.str) (c : N) :
  includes pat (c :: s) = false → includes pat s = false.
Proof. simpl. by intros [_ ?]%orb_false_iff. Qed.

Lemma version_key_chars :
  Forall (λ c, Js.is_space c = false ∧ is_line_terminator c = false)
    version_key.
Proof. vm_compute. repeat constructor. Qed.

(** A match of the pattern at the start of a line starts, after white space,
    with the key, white space and a colon. *)
Lemma match_version_at_inv (s group : Js.str) :
  match_version_at s = Some group →
  ∃ indent gap after,
    s = indent ++ version_key ++ gap ++ [58%N] ++ after ∧
    Forall (λ c, Js.is_space c = true) indent ∧
    Forall (λ c, Js.is_space c = true) gap.
Proof.
  unfold match_version_at.
  destruct (trimStart_split s) as (indent & Hs & Hindent).
  destruct (strip_prefix _ _) as [after_key|] eqn:Hkey; [|done].
  apply strip_prefix_spec in Hkey.
  destruct (trimStart_split after_key) as (gap & Hafter & Hgap).
  destruct (Js.trimStart after_key) as [|c after]; [done |].
  destruct (N.eqb_spec c 58) as [-> | _]; [|done]. intros _.
  exists indent, gap, after. split; [|done].
  rewrite Hs at 1. rewrite Hkey. by rewrite Hafter at 1.
Qed.

Lemma match_version_at_indent (w s : Js.str) :
  Forall (λ c, Js.is_space c = true) w →
  match_version_at (w ++ s) = match_version_at s.
Proof. intros Hw. unfold match_version_at. by rewrite trimStart_app. Qed.

Lemma search_version_inv (s group : Js.str) : ∀ line_start,
  search_version line_start s = Some group →
  ∃ before indent gap after,
    s = before ++ indent ++ version_key ++ gap ++ [58%N] ++ after ∧
    match last before with
    | Some c => is_line_terminator c = true
    | None => line_start = true
    end ∧
    Forall (λ c, Js.is_space c = true) indent ∧
    Forall (λ c, Js.is_space c = true) gap.
Proof.
  induction s as [|c s IH]; intros line_start; rewrite search_version_eq.
  - destruct line_start; [|done].
    destruct (match_version_at []) as [g|] eqn:Hm; [|done]. intros _.
    destruct (match_version_at_inv _ _ Hm) as (indent & gap & after & ? & ? & ?).
    by exists [], indent, gap, after.
  - destruct (if line_start then _ else _) as [g|] eqn:Hm.
    + destruct line_start; [|done]. intros _.
      destruct (match_version_at_inv _ _ Hm)
        as (indent & gap & after & ? & ? & ?).
      by exists [], indent, gap, after.
    + intros (before & indent & gap & after & -> & Hlast & ? & ?)%IH.
      exists (c :: before), indent, gap, after. split_and!; [done | | done..].
      destruct before as [|b before]; [exact Hlast |].
      rewrite last_cons_cons.
      destruct (last (b :: before)) eqn:Hb; [done |].
      by apply last_None in Hb.
Qed.

(** The pattern on a line that gives the key a value. *)
Lemma match_version_at_line (indent gap1 gap2 quote value rest : Js.str) :
  Forall (λ c, Js.is_space c = true) indent →
  Forall (λ c, Js.is_space c = true) gap1 →
  Forall (λ c, Js.is_space c = true) gap2 →
  quote ∈ [[]; [39%N]; [34%N]] →
  Forall (λ c, in_value_class c = true) value →
  (∃ c, head value = Some c ∧ Js.is_space c = false) →
  (∀ c, head rest = Some c → in_value_class c = false) →
  match_version_at
    (indent ++ version_key ++ gap1 ++ [58%N] ++ gap2 ++ quote ++ value ++ rest)
  = Some value.
Proof.
  intros Hindent Hgap1 Hgap2 Hquote Hvalue (c & Hc & Hspace) Hrest.
  destruct value as [|c' value]; [done |]. injection Hc as ->.
  rewrite match_version_at_indent by done. unfold match_version_at.
  rewrite trimStart_id by (by intros ? [= <-]).
  fold version_key.
  rewrite (proj2 (strip_prefix_spec version_key _ _) eq_refl).
  rewrite trimStart_app by done. cbn [app Js.trimStart].
  change (Js.is_space 58) with false. cbn iota.
  change (58 =? 58)%N with true. cbn iota.
  assert (value_at ((c :: value) ++ rest) = Some (c :: value)) as Hat.
  { unfold value_at. by rewrite run_app. }
  cbn [app] in Hat.
  apply Forall_cons in Hvalue as Hclass. destruct Hclass as [Hclass _].
  unfold value_after_colon.
  repeat (apply elem_of_cons in Hquote as [-> | Hquote]); simpl.
  - rewrite run_app; [| done | by intros ? [= <-]].
    replace (is_quote c) with false; [by rewrite Hat |].
    revert Hclass. unfold in_value_class, is_quote.
    case_bool_decide as Hin; [done |]. intros _.
    symmetry. apply orb_false_iff.
    split; apply N.eqb_neq; intros ->; apply Hin;
      rewrite !elem_of_cons; auto.
  - rewrite run_app; [| done | by intros ? [= <-]].
    change (is_quote 39) with true. cbn iota. by rewrite Hat.
  - rewrite run_app; [| done | by intros ? [= <-]].
    change (is_quote 34) with true. cbn iota. by rewrite Hat.
  - by apply elem_of_nil in Hquote.
Qed.

(** Before a line with the key, in a text without the key, the pattern
    matches nowhere, or it matches that line. *)
Lemma match_version_at_before (u indent tail : Js.str) :
  includes version_key u = false →
  (∃ c, last u = Some c ∧ is_line_terminator c = true) →
  Forall (λ c, Js.is_space c = true) indent →
  match_version_at (u ++ indent ++ version_key ++ tail) = None ∨
  match_version_at (u ++ indent ++ version_key ++ tail)
  = match_version_at (indent ++ version_key ++ tail).
Proof.
  intros Hu (t & Hlast & Ht) Hindent.
  destruct (trimStart_split u) as (w & Hw & Hspace).
  destruct (Js.trimStart u) as [|c u'] eqn:Htrim.
  { right. rewrite app_nil_r in Hw. subst w.
    by apply match_version_at_indent. }
  left. unfold match_version_at.
  rewrite Hw, <- app_assoc, trimStart_app by done.
  rewrite trimStart_id
    by (intros ? [= <-]; apply (trimStart_head u); by rewrite Htrim).
  destruct (strip_prefix _ _) as [r|] eqn:Hkey; [|done]. exfalso.
  apply strip_prefix_spec in Hkey. fold version_key in Hkey.
  apply app_eq_inv in Hkey as [(k & Hk & _) | (k & Hk & _)].
  - rewrite Hw, Hk, includes_intro in Hu. done.
  - assert (last (c :: u') = Some t) as Hl.
    { rewrite Hw, last_app in Hlast.
      destruct (last (c :: u')) eqn:Hl; [done |].
      by apply last_None in Hl. }
    apply last_Some in Hl as [u'' Hl].
    pose proof version_key_chars as Hchars.
    rewrite Hk, Hl, !Forall_app, Forall_singleton in Hchars.
    destruct Hchars as [[_ [_ Ht']] _]. congruence.
Qed.

Lemma search_version_line (indent tail group : Js.str) :
  Forall (λ c, Js.is_space c = true) indent →
  match_version_at (indent ++ version_key ++ tail) = Some group →
  ∀ before line_start,
    includes version_key before = false →
    match last before with
    | Some c => is_line_terminator c = true
    | None => line_start = true
    end →
    search_version line_start (before ++ indent ++ version_key ++ tail)
    = Some group.
Proof.
  intros Hindent Hline. induction before as [|c before IH];
    intros line_start Hbefore Hlast; rewrite search_version_eq.
  - rewrite Hlast. cbn [app]. by rewrite Hline.
  - assert (search_version (is_line_terminator c)
              (before ++ indent ++ version_key ++ tail) = Some group) as Hnext.
    { apply IH; [by apply includes_cons in Hbefore |].
      destruct before as [|b before]; [exact Hlast |].
      rewrite last_cons_cons in Hlast.
      destruct (last (b :: before)) eqn:Hb; [done |].
      by apply last_None in Hb. }
    destruct line_start; [|done].
    destruct (match_version_at_before (c :: before) indent tail)
      as [Hm | Hm]; [done | | done | |].
    + destruct (last (c :: before)) as [t|] eqn:Ht; [by exists t |].
      by apply last_None in Ht.
    + by rewrite Hm.
    + by rewrite Hm, Hline.
Qed.

(** X24.  A line of [params.yaml] that starts, after white space, with
    [chess_ext_version], a colon and a value, in single quotes, double
    quotes or none, decides whether [-unsigned] is forced, when the key
    does not occur before that line: it is forced exactly when the value,
    trimmed and in lower case, has [local] in it.  The value goes up to
    the first quote, line feed or [#]. *)
Theorem version_line_decides (toLowerCase : Js.str → Js.str)
    (before indent gap1 gap2 quote value rest : Js.str) :
  includes version_key before = false →
  ends_line before →
  Forall (λ c, Js.is_space c = true) (indent ++ gap1 ++ gap2) →
  quote ∈ [[]; [39%N]; [34%N]] →
  Forall (λ c, in_value_class c = true) value →
  (∃ c, head value = Some c ∧ Js.is_space c = false) →
  (∀ c, head rest = Some c → in_value_class c = false) →
  force_from_params toLowerCase
    (Some (before ++ indent ++ version_key ++ gap1 ++ [58%N] ++ gap2
           ++ quote ++ value ++ rest))
  = includes (Js.lit "local") (toLowerCase (Js.trim value)).
Proof.
  intros Hbefore Hends Hspaces Hquote Hvalue Hhead Hrest.
  apply Forall_app in Hspaces as [Hindent Hgaps].
  apply Forall_app in Hgaps as [Hgap1 Hgap2].
  unfold force_from_params.
  rewrite (search_version_line indent
             (gap1 ++ [58%N] ++ gap2 ++ quote ++ value ++ rest) value);
    [| done | by apply match_version_at_line | done |].
  - cbn zeta. rewrite bool_decide_eq_false_2; [done |].
    destruct Hhead as (c & Hc & Hspace).
    destruct value as [|c' value]; [done |]. injection Hc as ->.
    unfold Js.trim. rewrite trimStart_id by (by intros ? [= <-]).
    unfold Js.trimEnd. intros Hnil.
    apply (f_equal reverse) in Hnil. rewrite reverse_involutive in Hnil.
    revert Hnil. apply (trimStart_nonempty _ c); [|done].
    apply elem_of_reverse. by left.
  - unfold ends_line in Hends. by destruct (last before).
Qed.

Lemma version_line_decides_witness :
  force_from_params sample_toLowerCase
    (Some ((Js.lit "sources: {}" ++ [10%N]) ++ Js.lit "  " ++ version_key
           ++ [] ++ [58%N] ++ Js.lit " " ++ [39%N] ++ Js.lit "Local build"
           ++ [39%N; 10%N]))
  = includes (Js.lit "local")
      (sample_toLowerCase (Js.trim (Js.lit "Local build"))).
Proof.
  apply (version_line_decides sample_toLowerCase
           (Js.lit "sources: {}" ++ [10%N]) (Js.lit "  ") [] (Js.lit " ")
           [39%N] (Js.lit "Local build") [39%N; 10%N]).
  - vm_compute. reflexivity.
  - vm_compute. reflexivity.
  - vm_compute. repeat constructor.
  - rewrite !elem_of_cons. auto.
  - vm_compute. repeat constructor.
  - exists 76%N. vm_compute. done.
  - intros c [= <-]. vm_compute. reflexivity.
Defined.

(** X25.  [-unsigned] is forced from [params.yaml] only when the file can
    be read and has a line that starts, after white space only, with
    [chess_ext_version], white space and a colon: without the key, or with
    the key only behind other text of its line, as in a comment, it is not
    forced. *)
Theorem forced_only_by_version_line (toLowerCase : Js.str → Js.str)
    (raw : option Js.str) :
  force_from_params toLowerCase raw = true →
  ∃ before indent gap after,
    raw = Some (before ++ indent ++ version_key ++ gap ++ [58%N] ++ after) ∧
    ends_line before ∧
    Forall (λ c, Js.is_space c = true) (indent ++ gap).
Proof.
  unfold force_from_params. destruct raw as [r|]; [|done].
  destruct (search_version true r) as [group|] eqn:Hsearch; [|done].
  intros _.
  apply search_version_inv in Hsearch
    as (before & indent & gap & after & -> & Hlast & Hindent & Hgap).
  exists before, indent, gap, after. split_and!; [done | |].
  - unfold ends_line. by destruct (last before).
  - by apply Forall_app.
Qed.

Lemma forced_only_by_version_line_witness :
  ∃ before indent gap after,
    Some (Js.lit "# v1" ++ [10%N] ++ version_key ++ Js.lit ": local")
    = Some (before ++ indent ++ version_key ++ gap ++ [58%N] ++ after) ∧
    ends_line before ∧
    Forall (λ c, Js.is_space c = true) (indent ++ gap).
Proof.
  apply (forced_only_by_version_line sample_toLowerCase).
  vm_compute. reflexivity.
Defined.

(** ** The scraper: HTML entities *)

Lemma replaceAll_go_skip (pat rep l rest : Js.str) :
  Js.replaceAll_go pat rep (length l) (l ++ rest)
  = Js.replaceAll_go pat rep 0 rest.
Proof. induction l as [|c l IH]; [done | exact IH]. Qed.

Lemma replaceAll_go_eq (pat rep : Js.str) (c : N) (s : Js.str) :
  Js.replaceAll_go pat rep 0 (c :: s)
  = if bool_decide (pat `prefix_of` c :: s)
    then rep ++ Js.replaceAll_go pat rep (length pat - 1) s
    else c :: Js.replaceAll_go pat rep 0 s.
Proof. reflexivity. Qed.

Lemma replaceAll_go_plain (pt rep t rest : Js.str) :
  38%N ∉ t →
  Js.replaceAll_go (38%N :: pt) rep 0 (t ++ rest)
  = t ++ Js.replaceAll_go (38%N :: pt) rep 0 rest.
Proof.
  induction t as [|c t IH]; [done |].
  intros [Hc Ht]%not_elem_of_cons. cbn [app Js.replaceAll_go].
  rewrite bool_decide_eq_false_2, IH; [done.. |].
  by intros <-%prefix_cons_inv_1.
Qed.

Lemma replaceAll_plain (pt rep s : Js.str) :
  38%N ∉ s → Js.replaceAll (38%N :: pt) rep s = s.
Proof.
  intros Hs. unfold Js.replaceAll.
  rewrite <- (app_nil_r s) at 1. rewrite replaceAll_go_plain by done.
  by rewrite app_nil_r.
Qed.

(** One [replaceAll] of [decodeHtmlEntities] on an escaped text undoes the
    first entity of the table. *)
Lemma replaceAll_unescapes (ch : N) (pt : Js.str) (table : list (N * Js.str))
    (s : Js.str) :
  38%N ∉ s →
  escape_with table ch = [ch] →
  Forall (λ entry, ∃ t, entry.2 = 38%N :: t ∧ (38%N ∉ t) ∧
                        ∀ r, ¬ (38%N :: pt) `prefix_of` entry.2 ++ r) table →
  Js.replaceAll (38%N :: pt) [ch] (s ≫= escape_with ((ch, 38%N :: pt) :: table))
  = s ≫= escape_with table.
Proof.
  intros Hs Hch Htable. unfold Js.replaceAll.
  set (f := escape_with ((ch, 38%N :: pt) :: table)).
  induction s as [|c s IH]; [done |].
  apply not_elem_of_cons in Hs as [Hc Hs].
  rewrite !bind_cons.
  change (f c) with (if (c =? ch)%N then 38%N :: pt else escape_with table c).
  destruct (N.eqb_spec c ch) as [-> | Hne].
  - cbn [app Js.replaceAll_go].
    rewrite bool_decide_eq_true_2 by (by eexists).
    replace (length (38%N :: pt) - 1) with (length pt) by (simpl; lia).
    rewrite replaceAll_go_skip.
    by rewrite (IH Hs), Hch.
  - assert (∃ t, escape_with table c = [c] ∧ t = [] ∨
                 escape_with table c = 38%N :: t ∧ (38%N ∉ t) ∧
                 ∀ r, ¬ (38%N :: pt) `prefix_of` escape_with table c ++ r)
      as (t & Ht).
    { clear IH Hch.
      induction Htable as [|[ch' e] table (t & He & Ht & Hp) _ IH'].
      - exists []. by left.
      - cbn [escape_with]. destruct (c =? ch')%N; [|exact IH'].
        exists t. right. cbn [snd] in He, Hp. by subst e. }
    destruct Ht as [[-> _] | (Ht & Hplain & Hprefix)].
    + rewrite (replaceAll_go_plain pt [ch] [c]); [by rewrite (IH Hs) |].
      apply not_elem_of_cons. split; [done | apply not_elem_of_nil].
    + specialize (Hprefix (s ≫= f)).
      rewrite Ht in *. cbn [app Js.replaceAll_go].
      rewrite bool_decide_eq_false_2 by done.
      by rewrite replaceAll_go_plain, (IH Hs).
Qed.

Lemma bind_plain (f : N → Js.str) (s : Js.str) :
  (∀ c, c ∈ s → f c = [c]) → s ≫= f = s.
Proof.
  induction s as [|c s IH]; [done |]. intros H.
  rewrite bind_cons, H by (by left). simpl. f_equal.
  apply IH. intros x Hx. apply H. by right.
Qed.

Lemma decode_numeric_cons_plain (big : Js.str → N) (c : N) (s : Js.str) :
  c ≠ 38%N →
  ScrapeLumbras.decode_numeric big 0 (c :: s)
  = c :: ScrapeLumbras.decode_numeric big 0 s.
Proof.
  intros Hc%N.eqb_neq. cbn [ScrapeLumbras.decode_numeric].
  destruct s as [|c' s2]; [done |].
  destruct (Js.digit_run s2) as [[|d ds] [|semi r]]; [done.. |].
  by rewrite Hc.
Qed.

Lemma decode_numeric_plain (big : Js.str → N) (t rest : Js.str) :
  38%N ∉ t →
  ScrapeLumbras.decode_numeric big 0 (t ++ rest)
  = t ++ ScrapeLumbras.decode_numeric big 0 rest.
Proof.
  induction t as [|c t IH]; [done |].
  intros [Hc Ht]%not_elem_of_cons. cbn [app].
  rewrite decode_numeric_cons_plain by done. by rewrite IH.
Qed.

Lemma decode_numeric_skip (big : Js.str → N) (l rest : Js.str) :
  ScrapeLumbras.decode_numeric big (length l) (l ++ rest)
  = ScrapeLumbras.decode_numeric big 0 rest.
Proof. induction l as [|c l IH]; [done | exact IH]. Qed.

Lemma digit_run_app (ds rest : Js.str) :
  Forall (λ c, Js.is_digit c = true) ds →
  (∀ c, head rest = Some c → Js.is_digit c = false) →
  Js.digit_run (ds ++ rest) = (ds, rest).
Proof.
  intros Hds Hrest. induction Hds as [|c ds Hc _ IH]; simpl.
  - destruct rest as [|c rest]; [done |]. simpl. by rewrite (Hrest c eq_refl).
  - by rewrite Hc, IH.
Qed.

Lemma decode_numeric_eq (big : Js.str → N) (c c' : N) (s2 : Js.str) :
  ScrapeLumbras.decode_numeric big 0 (c :: c' :: s2)
  = match Js.digit_run s2 with
    | (d :: ds, semi :: _) =>
        if (c =? 38)%N && (c' =? 35)%N && (semi =? 59)%N
        then ScrapeLumbras.fromCharCode_Number big (d :: ds)
             :: ScrapeLumbras.decode_numeric big (length (d :: ds) + 2)
                  (c' :: s2)
        else c :: ScrapeLumbras.decode_numeric big 0 (c' :: s2)
    | _ => c :: ScrapeLumbras.decode_numeric big 0 (c' :: s2)
    end.
Proof. reflexivity. Qed.

Lemma decode_numeric_entity (big : Js.str → N) (ds b : Js.str) :
  ds ≠ [] → Forall (λ c, Js.is_digit c = true) ds →
  ScrapeLumbras.decode_numeric big 0 (38%N :: 35%N :: ds ++ 59%N :: b)
  = ScrapeLumbras.fromCharCode_Number big ds
    :: ScrapeLumbras.decode_numeric big 0 b.
Proof.
  intros Hne Hds. rewrite decode_numeric_eq.
  rewrite digit_run_app; [| done | by intros ? [= <-]].
  destruct ds as [|d ds]; [done |].
  change ((38 =? 38)%N && (35 =? 35)%N && (59 =? 59)%N) with true.
  cbn iota. f_equal.
  rewrite <- (decode_numeric_skip big (35%N :: (d :: ds) ++ [59%N]) b).
  f_equal.
  - rewrite !length_cons, length_app. simpl. lia.
  - simpl. by rewrite <- app_assoc.
Qed.

Lemma decode_numeric_id (big : Js.str → N) (s : Js.str) :
  38%N ∉ s → ScrapeLumbras.decode_numeric big 0 s = s.
Proof.
  intros Hs. rewrite <- (app_nil_r s) at 1.
  rewrite decode_numeric_plain by done. by rewrite app_nil_r.
Qed.

Lemma digits_plain (ds : Js.str) :
  Forall (λ c, Js.is_digit c = true) ds → 38%N ∉ ds.
Proof.
  intros Hds Hin. rewrite Forall_forall in Hds. by apply Hds in Hin.
Qed.

#[local] Ltac other_entity :=
  eexists; split; [reflexivity |]; split;
  [ apply (bool_decide_unpack _); vm_compute; exact I
  | intros r [k Hk]; vm_compute in Hk; discriminate Hk ].

#[local] Ltac other_entities :=
  repeat (apply Forall_cons_2; [other_entity |]); apply Forall_nil_2.

(** X26.  [decodeHtmlEntities] reads back a text without [&] from its
    escaped form, in which the double quote, the single quote, [<] and [>]
    are written [&quot;], [&#039;], [&lt;] and [&gt;]. *)
Theorem escaped_text_is_decoded (fromCharCode_big : Js.str → N)
    (s : Js.str) :
  38%N ∉ s →
  ScrapeLumbras.decodeHtmlEntities fromCharCode_big (escape_html s) = s.
Proof.
  intros Hs. unfold ScrapeLumbras.decodeHtmlEntities, escape_html.
  unfold named_entities.
  rewrite (replaceAll_unescapes 38 (Js.lit "amp;") _ s Hs);
    [| done | other_entities].
  rewrite (replaceAll_unescapes 34 (Js.lit "quot;") _ s Hs);
    [| done | other_entities].
  rewrite (replaceAll_unescapes 39 (Js.lit "#039;") _ s Hs);
    [| done | other_entities].
  rewrite (replaceAll_unescapes 60 (Js.lit "lt;") _ s Hs);
    [| done | other_entities].
  rewrite (replaceAll_unescapes 62 (Js.lit "gt;") _ s Hs);
    [| done | other_entities].
  rewrite bind_plain by done. by apply decode_numeric_id.
Qed.

Lemma escaped_text_is_decoded_witness :
  ScrapeLumbras.decodeHtmlEntities (λ _, 0%N)
    (escape_html (Js.lit "<b>'Open' 2024</b>"))
  = Js.lit "<b>'Open' 2024</b>".
Proof.
  apply escaped_text_is_decoded. apply (bool_decide_unpack _). vm_compute.
  exact I.
Defined.

(** The [replaceAll] for an entity with a name leaves a numeric entity as
    it is. *)
Lemma replaceAll_numeric (x : N) (pt rep a tail : Js.str) :
  x ≠ 35%N → 38%N ∉ a → 38%N ∉ tail →
  Js.replaceAll (38%N :: x :: pt) rep (a ++ 38%N :: 35%N :: tail)
  = a ++ 38%N :: 35%N :: tail.
Proof.
  intros Hx Ha Htail. unfold Js.replaceAll.
  rewrite replaceAll_go_plain by done. f_equal.
  rewrite replaceAll_go_eq, bool_decide_eq_false_2.
  - f_equal. apply (replaceAll_plain (x :: pt) rep (35%N :: tail)).
    apply not_elem_of_cons. by split.
  - by intros ?%prefix_cons_inv_2%prefix_cons_inv_1.
Qed.

(** The [replaceAll] for [&#039;] on a numeric entity. *)
Lemma replaceAll_039 (a ds b : Js.str) :
  38%N ∉ a → 38%N ∉ b → Forall (λ c, Js.is_digit c = true) ds →
  Js.replaceAll (Js.lit "&#039;") (Js.lit "'")
    (a ++ 38%N :: 35%N :: ds ++ 59%N :: b)
  = if decide (ds = [48; 51; 57]%N) then a ++ 39%N :: b
    else a ++ 38%N :: 35%N :: ds ++ 59%N :: b.
Proof.
  intros Ha Hb Hds. unfold Js.replaceAll.
  change (Js.lit "&#039;") with (38%N :: Js.lit "#039;").
  rewrite replaceAll_go_plain by done.
  destruct (decide (ds = [48; 51; 57]%N)) as [-> | Hne]; f_equal.
  - change (Js.replaceAll_go (38%N :: Js.lit "#039;") (Js.lit "'") 0
              (38%N :: 35%N :: [48; 51; 57]%N ++ 59%N :: b))
      with (39%N :: Js.replaceAll_go (38%N :: Js.lit "#039;") (Js.lit "'")
                      (length (Js.lit "#039;")) (Js.lit "#039;" ++ b)).
    rewrite replaceAll_go_skip. f_equal.
    by apply (replaceAll_plain (Js.lit "#039;") (Js.lit "'") b).
  - rewrite replaceAll_go_eq, bool_decide_eq_false_2.
    + f_equal.
      apply (replaceAll_plain (Js.lit "#039;") (Js.lit "'")
               (35%N :: ds ++ 59%N :: b)).
      rewrite not_elem_of_cons, not_elem_of_app, not_elem_of_cons.
      split_and!; [done | by apply digits_plain | done | done].
    + intros [k Hk]. apply Hne. vm_compute in Hk.
      injection Hk as Hk.
      destruct ds as [|d1 [|d2 [|d3 [|d4 ds]]]]; simplify_eq/=; try done.
      rewrite !Forall_cons in Hds. by destruct Hds as (_ & _ & _ & ? & _).
Qed.

(** X27.  [decodeHtmlEntities] turns a numeric entity [&#n;], between
    texts without [&], into the one character whose code is the number
    [n], taken modulo [2^16]. *)
Theorem numeric_entity_is_decoded (fromCharCode_big : Js.str → N)
    (a ds b : Js.str) :
  38%N ∉ a → 38%N ∉ b →
  ds ≠ [] → Forall (λ c, Js.is_digit c = true) ds →
  (Js.decimal ds < 2 ^ 53)%N →
  ScrapeLumbras.decodeHtmlEntities fromCharCode_big
    (a ++ Js.lit "&#" ++ ds ++ [59%N] ++ b)
  = a ++ [(Js.decimal ds mod 65536)%N] ++ b.
Proof.
  intros Ha Hb Hne Hds Hsmall. unfold ScrapeLumbras.decodeHtmlEntities.
  change (a ++ Js.lit "&#" ++ ds ++ [59%N] ++ b)
    with (a ++ 38%N :: 35%N :: ds ++ 59%N :: b).
  assert (38%N ∉ ds ++ 59%N :: b) as Htail.
  { rewrite not_elem_of_app, not_elem_of_cons.
    split_and!; [by apply digits_plain | done | done]. }
  rewrite (replaceAll_numeric 97 (Js.lit "mp;")) by done.
  rewrite (replaceAll_numeric 113 (Js.lit "uot;")) by done.
  rewrite replaceAll_039 by done.
  destruct (decide (ds = [48; 51; 57]%N)) as [-> | Hother].
  - assert (38%N ∉ a ++ 39%N :: b) as Hplain.
    { rewrite not_elem_of_app, not_elem_of_cons. by split_and!. }
    rewrite (replaceAll_plain (Js.lit "lt;")) by done.
    rewrite (replaceAll_plain (Js.lit "gt;")) by done.
    by rewrite decode_numeric_id.
  - rewrite (replaceAll_numeric 108 (Js.lit "t;")) by done.
    rewrite (replaceAll_numeric 103 (Js.lit "t;")) by done.
    rewrite decode_numeric_plain, decode_numeric_entity by done.
    rewrite decode_numeric_id by done.
    unfold ScrapeLumbras.fromCharCode_Number.
    by rewrite (proj2 (N.ltb_lt _ _) Hsmall).
Qed.

Lemma numeric_entity_is_decoded_witness :
  ScrapeLumbras.decodeHtmlEntities (λ _, 0%N)
    (Js.lit "2020 " ++ Js.lit "&#" ++ Js.lit "8211" ++ [59%N] ++ Js.lit " 2024")
  = Js.lit "2020 " ++ [(Js.decimal (Js.lit "8211") mod 65536)%N]
    ++ Js.lit " 2024".
Proof.
  apply numeric_entity_is_decoded.
  - apply (bool_decide_unpack _). vm_compute. exact I.
  - apply (bool_decide_unpack _). vm_compute. exact I.
  - done.
  - vm_compute. repeat constructor.
  - vm_compute. reflexivity.
Defined.
